(** * flotilla: the request context (ctx.go)

    A shallow embedding of the cancellation tree ([context], [cancel],
    [propagateCancel]) and of the handler-chain engine ([handlers], [Next],
    [Run], [rerun], [push], [reset], [replicate]) of ctx.go, and the
    properties of them that the specification states.

    Go pointers are addresses into stores: a [*context] is an index into the
    store of cancellation nodes, a [*handlers] an index into the store of
    cursors, a [*ctx] an index into the store of request contexts; a nil
    pointer is [None].  Two request contexts that hold the same [*handlers]
    therefore see each other's writes, as they do in Go. *)

From stdpp Require Import base option list gmap strings.
From Stdlib Require Import ZArith Lia DecimalString Ascii.

(** ** Outcomes of a call

    A Go call returns, panics, or (a goroutine taking a [sync.Mutex] it
    already holds) blocks for ever.  The store at the moment of a panic is
    kept: a recovered panic leaves it observable.  [OutOfFuel] is not a Go
    outcome, it only says the bound on the recursion depth was too small. *)

Inductive outcome (S A : Type) : Type :=
  | Ok (a : A) (s : S)
  | Panic (msg : string) (s : S)
  | Deadlock (s : S)
  | OutOfFuel.
Arguments Ok {S A} a s.
Arguments Panic {S A} msg s.
Arguments Deadlock {S A} s.
Arguments OutOfFuel {S A}.

Definition M (S A : Type) : Type := S → outcome S A.

Definition ret {S A} (a : A) : M S A := λ s, Ok a s.

Definition bind {S A B} (m : M S A) (k : A → M S B) : M S B :=
  λ s, match m s with
       | Ok a s' => k a s'
       | Panic msg s' => Panic msg s'
       | Deadlock s' => Deadlock s'
       | OutOfFuel => OutOfFuel
       end.

Definition panic {S A} (msg : string) : M S A := λ s, Panic msg s.
Definition deadlock {S A} : M S A := λ s, Deadlock s.
Definition out_of_fuel {S A} : M S A := λ _, OutOfFuel.
Definition modify {S} (f : S → S) : M S unit := λ s, Ok tt (f s).

Notation "x <- m ;; k" := (bind m (λ x, k))
  (at level 100, m at next level, right associativity, only parsing).
Notation "m ;; k" := (bind m (λ _, k))
  (at level 100, right associativity, only parsing).

(** A [for ... range] loop over the elements [l], in that order. *)
Fixpoint for_each {S A} (l : list A) (f : A → M S unit) : M S unit :=
  match l with
  | [] => ret tt
  | x :: rest => f x ;; for_each rest f
  end.

(** The run-time panics of Go that the code can raise. *)
Definition nil_dereference : string :=
  "runtime error: invalid memory address or nil pointer dereference".
Definition index_out_of_range : string := "runtime error: index out of range".
Definition close_of_closed : string := "close of closed channel".
Definition close_of_nil : string := "close of nil channel".
Definition unlock_of_unlocked : string := "sync: unlock of unlocked mutex".
Definition missing_cancel_error : string :=
  "Ctx.context: internal error: missing cancel error".

(** ** The cancellation tree *)

Definition nodeid := nat.
Definition ctxid := nat.
Definition hid := nat.

(** Values of Go's [error]; the nil error is [None]. *)
Inductive error :=
  | Canceled                 (* var Canceled = errors.New("flotilla.Ctx canceled") *)
  | OtherError (tag : string).

(** A [chan struct{}] on which nothing is ever sent: nil, open or closed. *)
Inductive chan := ChanNil | ChanOpen | ChanClosed.

(** [type context struct].  [children] is a Go map used as a set: [None] is
    the nil map.  [mu] is true while the mutex is held. *)
Record context := Context {
  parent : option nodeid;
  mu : bool;
  children : option (gset nodeid);
  done : chan;
  err : option error;
  value : option ctxid
}.

Definition set_mu (b : bool) (n : context) : context :=
  Context (parent n) b (children n) (done n) (err n) (value n).
Definition set_children (k : option (gset nodeid)) (n : context) : context :=
  Context (parent n) (mu n) k (done n) (err n) (value n).
Definition set_done (d : chan) (n : context) : context :=
  Context (parent n) (mu n) (children n) d (err n) (value n).
Definition set_err (e : option error) (n : context) : context :=
  Context (parent n) (mu n) (children n) (done n) e (value n).

Abbreviation heap := (list context).

(** Reading through a [*context]; a dangling or nil pointer panics. *)
Definition load (c : nodeid) : M heap context :=
  λ h, match h !! c with
       | Some n => Ok n h
       | None => Panic nil_dereference h
       end.

Definition update (c : nodeid) (f : context → context) : M heap unit :=
  n <- load c ;; modify (λ h, <[c := f n]> h).

(** [c.mu.Lock()] and [c.mu.Unlock()], for the one goroutine that runs. *)
Definition Lock (c : nodeid) : M heap unit :=
  n <- load c ;;
  if mu n then deadlock else update c (set_mu true).

Definition Unlock (c : nodeid) : M heap unit :=
  n <- load c ;;
  if mu n then update c (set_mu false) else panic unlock_of_unlocked.

(** [close(c.done)] *)
Definition close (c : nodeid) : M heap unit :=
  n <- load c ;;
  match done n with
  | ChanOpen => update c (set_done ChanClosed)
  | ChanClosed => panic close_of_closed
  | ChanNil => panic close_of_nil
  end.

(** [func (c *context) Done() <-chan struct{}] *)
Definition Done (c : nodeid) : M heap chan :=
  n <- load c ;; ret (done n).

(** [func (c *context) Err() error] *)
Definition Err (c : nodeid) : M heap (option error) :=
  Lock c ;;
  n <- load c ;;
  Unlock c ;;
  ret (err n).

Section Cancellation.

(** Go leaves the order in which [range] visits a map unspecified: the
    order is a parameter, and all that is known of it is that it visits
    every key once. *)
Variable range_order : gset nodeid → list nodeid.

(** [func (c *context) cancel(removeFromParent bool, err error)].
    The recursion follows the children; [fuel] bounds its depth. *)
Fixpoint cancel (fuel : nat) (c : nodeid) (removeFromParent : bool)
    (e : option error) : M heap unit :=
  match fuel with
  | O => out_of_fuel
  | S fuel' =>
    match e with
    | None => panic missing_cancel_error
    | Some _ =>
      Lock c ;;
      update c (set_err e) ;;
      close c ;;
      n <- load c ;;
      for_each (range_order (default ∅ (children n)))
               (λ child, cancel fuel' child false e) ;;
      update c (set_children None) ;;
      Unlock c ;;
      if removeFromParent then
        n <- load c ;;
        match children n with
        | Some s => update c (set_children (Some (s ∖ {[c]})))
        | None => ret tt
        end
      else ret tt
    end
  end.

(** [func propagateCancel(p *context, child canceler)] *)
Definition propagateCancel (fuel : nat) (p child : nodeid) : M heap unit :=
  d <- Done p ;;
  match d with
  | ChanNil => ret tt
  | _ =>
    Lock p ;;
    n <- load p ;;
    match err n with
    | Some e =>
      (* parent has already been canceled *)
      cancel fuel child false (Some e)
    | None =>
      match children n with
      | None => update p (set_children (Some ∅))
      | Some _ => ret tt
      end ;;
      update p (λ n, set_children (Some ({[child]} ∪ default ∅ (children n))) n)
    end ;;
    Unlock p
  end.

End Cancellation.

(** ** Handlers and the chain cursor *)

(** [type Manage func(Ctx)].  The engine cannot look inside a Go closure;
    what a handler does to the engine is the sequence of calls it makes on
    the context it is handed.  A [Manage] is a name, by which the trace
    tells handlers apart, and that sequence. *)
Inductive Manage :=
  | MkManage (name : string) (body : list call)
with call :=
  | CallNext                        (* c.Next() *)
  | CallPush (fn : Manage)          (* c.push(fn) *)
  | CallRerun (ms : list Manage)    (* c.rerun(ms...) *)
  | CallExt (fname : string).       (* c.Call(fname), an extension *)

Definition name (m : Manage) : string := let 'MkManage n _ := m in n.
Definition body (m : Manage) : list call := let 'MkManage _ b := m in b.

(** [type handlers struct]; [index] is an [int8], kept in [-128, 127]. *)
Record handlers := Handlers {
  index : Z;
  managers : list Manage;
  deferred : list Manage
}.

Definition set_index (i : Z) (h : handlers) : handlers :=
  Handlers i (managers h) (deferred h).
Definition set_managers (ms : list Manage) (h : handlers) : handlers :=
  Handlers (index h) ms (deferred h).
Definition set_deferred (ds : list Manage) (h : handlers) : handlers :=
  Handlers (index h) (managers h) ds.

(** Conversion to [int8], and [int8] arithmetic, wrap around. *)
Definition int8 (z : Z) : Z := ((z + 128) mod 256 - 128)%Z.

(** Modelled from the spec: the [responseWriter] struct is declared outside
    ctx.go.  The spec has the core wrap a response-writing handle and
    delegate the I/O to it: the wrapper holds that handle. *)
Record responseWriter := ResponseWriter { writer : option nat }.

(** Modelled from the spec: [func (w *responseWriter) reset(rw)] is declared
    outside ctx.go too.  The spec has [reset] bind the new response state:
    the wrapper holds the handle it was last reset to. *)
Definition rw_reset (w : option nat) (_ : responseWriter) : responseWriter :=
  ResponseWriter w.

(** [type ctx struct].  The embedded [*context] and [*handlers] are the
    fields [ctx_context] and [ctx_handlers]; [RW] holds [&c.rw] of some
    request context, so it is the address of that context.  The other
    collaborators ([Result], [Erroror], [Extensor], [Request], [Session],
    the [Data] map) are opaque references. *)
Record ctx := Ctx {
  Result : option nat;
  ctx_context : option nodeid;
  ctx_handlers : option hid;
  Erroror : option nat;
  Extensor : option nat;
  rw : responseWriter;
  RW : option ctxid;
  Request : option nat;
  Session : option nat;
  Data : option nat
}.

Definition set_Result (r : option nat) (c : ctx) : ctx :=
  Ctx r (ctx_context c) (ctx_handlers c) (Erroror c) (Extensor c) (rw c)
      (RW c) (Request c) (Session c) (Data c).
Definition set_context (n : option nodeid) (c : ctx) : ctx :=
  Ctx (Result c) n (ctx_handlers c) (Erroror c) (Extensor c) (rw c)
      (RW c) (Request c) (Session c) (Data c).
Definition set_handlers (h : option hid) (c : ctx) : ctx :=
  Ctx (Result c) (ctx_context c) h (Erroror c) (Extensor c) (rw c)
      (RW c) (Request c) (Session c) (Data c).
Definition set_Extensor (x : option nat) (c : ctx) : ctx :=
  Ctx (Result c) (ctx_context c) (ctx_handlers c) (Erroror c) x (rw c)
      (RW c) (Request c) (Session c) (Data c).
Definition set_rw (w : responseWriter) (c : ctx) : ctx :=
  Ctx (Result c) (ctx_context c) (ctx_handlers c) (Erroror c) (Extensor c) w
      (RW c) (Request c) (Session c) (Data c).
Definition set_RW (p : option ctxid) (c : ctx) : ctx :=
  Ctx (Result c) (ctx_context c) (ctx_handlers c) (Erroror c) (Extensor c)
      (rw c) p (Request c) (Session c) (Data c).
Definition set_Request (r : option nat) (c : ctx) : ctx :=
  Ctx (Result c) (ctx_context c) (ctx_handlers c) (Erroror c) (Extensor c)
      (rw c) (RW c) r (Session c) (Data c).

(** What an observer of a run sees, in order.  The trace is not Go state:
    it records which function the engine called, and when. *)
Inductive event :=
  | EvManage (i : Z) (who : string)   (* c.managers[i](c) *)
  | EvDeferred (who : string)         (* fn(c), fn ranging over c.deferred *)
  | EvCall (fname : string)           (* c.Call(fname) *)
  | EvPostProcess.                    (* c.PostProcess(...) *)

(** The whole store. *)
Record world := World {
  nodes : heap;
  cursors : list handlers;
  ctxs : list ctx;
  trace : list event
}.

Definition set_nodes (h : heap) (w : world) : world :=
  World h (cursors w) (ctxs w) (trace w).
Definition set_cursors (cs : list handlers) (w : world) : world :=
  World (nodes w) cs (ctxs w) (trace w).
Definition set_ctxs (xs : list ctx) (w : world) : world :=
  World (nodes w) (cursors w) xs (trace w).
Definition set_trace (t : list event) (w : world) : world :=
  World (nodes w) (cursors w) (ctxs w) t.

(** A call on the cancellation tree, made from the request context. *)
Definition on_nodes {A} (m : M heap A) : M world A :=
  λ w, match m (nodes w) with
       | Ok a h => Ok a (set_nodes h w)
       | Panic msg h => Panic msg (set_nodes h w)
       | Deadlock h => Deadlock (set_nodes h w)
       | OutOfFuel => OutOfFuel
       end.

Definition emit (e : event) : M world unit :=
  modify (λ w, set_trace (trace w ++ [e]) w).

(** [&context{...}], [&handlers{...}], [&ctx{...}]: the new object gets the
    next free address. *)
Definition alloc_node (n : context) : M world nodeid :=
  λ w, Ok (length (nodes w)) (set_nodes (nodes w ++ [n]) w).
Definition alloc_cursor (h : handlers) : M world hid :=
  λ w, Ok (length (cursors w)) (set_cursors (cursors w ++ [h]) w).
Definition alloc_ctx (c : ctx) : M world ctxid :=
  λ w, Ok (length (ctxs w)) (set_ctxs (ctxs w ++ [c]) w).

Definition load_ctx (c : ctxid) : M world ctx :=
  λ w, match ctxs w !! c with
       | Some cx => Ok cx w
       | None => Panic nil_dereference w
       end.

Definition update_ctx (c : ctxid) (f : ctx → ctx) : M world unit :=
  cx <- load_ctx c ;; modify (λ w, set_ctxs (<[c := f cx]> (ctxs w)) w).

(** Reading and writing [c.index], [c.managers], [c.deferred] goes through
    the embedded pointer [c.handlers]. *)
Definition cursor (c : ctxid) : M world (hid * handlers) :=
  cx <- load_ctx c ;;
  match ctx_handlers cx with
  | None => panic nil_dereference
  | Some h =>
    λ w, match cursors w !! h with
         | Some hs => Ok (h, hs) w
         | None => Panic nil_dereference w
         end
  end.

Definition read {A} (c : ctxid) (field : handlers → A) : M world A :=
  p <- cursor c ;; ret (field p.2).

Definition write (c : ctxid) (f : handlers → handlers) : M world unit :=
  p <- cursor c ;; modify (λ w, set_cursors (<[p.1 := f p.2]> (cursors w)) w).

(** [c.managers[i]] for an [int8] [i]: out of range panics. *)
Definition at_index (ms : list Manage) (i : Z) : M world Manage :=
  if (i <? 0)%Z then panic index_out_of_range
  else match ms !! Z.to_nat i with
       | Some m => ret m
       | None => panic index_out_of_range
       end.

(** [func defaulthandlers() *handlers] *)
Definition defaulthandlers : M world hid :=
  alloc_cursor (Handlers (-1) [] []).

(** [func emptyCtx() *ctx]; [erroror] is what [xrr.DefaultErroror()] gives. *)
Definition emptyCtx (erroror : option nat) : M world ctxid :=
  h <- defaulthandlers ;;
  alloc_ctx (Ctx None None (Some h) erroror None (ResponseWriter None) None
                 None None None).

(** [func NewCtx(ext, rs) *ctx]; [extensor] is what [newextensor(ext, c)]
    gives. *)
Definition NewCtx (erroror extensor rs : option nat) : M world ctxid :=
  c <- emptyCtx erroror ;;
  update_ctx c (set_Result rs) ;;
  update_ctx c (set_Extensor extensor) ;;
  update_ctx c (set_RW (Some c)) ;;
  ret c.

(** [func (c *ctx) push(fn Manage)] *)
Definition push (c : ctxid) (fn : Manage) : M world unit :=
  ds <- read c deferred ;;
  write c (set_deferred (ds ++ [fn])).

(** [func (c *ctx) rerun(managers ...Manage)], over the [Next] it calls. *)
Definition rerun_with (next : ctxid → M world unit) (c : ctxid)
    (ms : list Manage) : M world unit :=
  i <- read c index ;;
  (if (i =? -1)%Z then ret tt else write c (set_index (-1))) ;;
  write c (set_managers ms) ;;
  next c.

(** [func (c *ctx) Next()], the [for] loop in it from its condition on, and
    the call of a handler.  [s] is the local [int8(len(c.managers))], read
    once.  [fuel] bounds the depth of the calls and the turns of the loops. *)
Fixpoint Next (fuel : nat) (c : ctxid) : M world unit :=
  match fuel with
  | O => out_of_fuel
  | S fuel' =>
    i <- read c index ;;
    write c (set_index (int8 (i + 1))) ;;
    ms <- read c managers ;;
    loop fuel' c (int8 (Z.of_nat (length ms)))
  end
with loop (fuel : nat) (c : ctxid) (s : Z) : M world unit :=
  match fuel with
  | O => out_of_fuel
  | S fuel' =>
    i <- read c index ;;
    if (i <? s)%Z then
      ms <- read c managers ;;
      m <- at_index ms i ;;
      emit (EvManage i (name m)) ;;
      invoke fuel' c (body m) ;;
      i' <- read c index ;;
      write c (set_index (int8 (i' + 1))) ;;
      loop fuel' c s
    else ret tt
  end
with invoke (fuel : nat) (c : ctxid) (calls : list call) : M world unit :=
  match fuel with
  | O => out_of_fuel
  | S fuel' =>
    match calls with
    | [] => ret tt
    | k :: rest =>
      match k with
      | CallNext => Next fuel' c
      | CallPush fn => push c fn
      | CallRerun ms => rerun_with (Next fuel') c ms
      | CallExt f => emit (EvCall f)
      end ;;
      invoke fuel' c rest
    end
  end.

Definition rerun (fuel : nat) (c : ctxid) (ms : list Manage) : M world unit :=
  rerun_with (Next fuel) c ms.

(** The finalizer [Run] pushes: [func(c Ctx) { c.Call("release") }]. *)
Definition release : Manage := MkManage "release" [CallExt "release"].

(** [for _, fn := range c.deferred { fn(c) }], over the slice as it was when
    the loop began. *)
Fixpoint run_deferred (fuel : nat) (c : ctxid) (fns : list Manage) : M world unit :=
  match fns with
  | [] => ret tt
  | fn :: rest =>
    emit (EvDeferred (name fn)) ;;
    invoke fuel c (body fn) ;;
    run_deferred fuel c rest
  end.

(** [func (c *ctx) Run()] *)
Definition Run (fuel : nat) (c : ctxid) : M world unit :=
  push c release ;;
  Next fuel c ;;
  fns <- read c deferred ;;
  run_deferred fuel c fns.

Section RequestContext.

Variable range_order : gset nodeid → list nodeid.

(** [func (c *ctx) Cancel()].  The status hook is a collaborator's: it is
    recorded and taken to return. *)
Definition Cancel (fuel : nat) (c : ctxid) : M world unit :=
  emit EvPostProcess ;;
  cx <- load_ctx c ;;
  match ctx_context cx with
  | None => panic nil_dereference
  | Some n => on_nodes (cancel range_order fuel n true (Some Canceled))
  end.

(** [func (c *ctx) reset(rq *http.Request, rw http.ResponseWriter, m []Manage)] *)
Definition reset (c : ctxid) (rq : option nat) (w : option nat)
    (m : list Manage) : M world unit :=
  update_ctx c (set_Request rq) ;;
  update_ctx c (λ cx, set_rw (rw_reset w (rw cx)) cx) ;;
  n <- alloc_node (Context None false None ChanOpen None (Some c)) ;;
  update_ctx c (set_context (Some n)) ;;
  h <- defaulthandlers ;;
  update_ctx c (set_handlers (Some h)) ;;
  write c (set_managers m).

(** [func (c *ctx) replicate() *ctx] *)
Definition replicate (fuel : nat) (c : ctxid) : M world ctxid :=
  cx <- load_ctx c ;;
  child <- alloc_node (Context (ctx_context cx) false None ChanOpen None (Some c)) ;;
  match ctx_context cx with
  | None => panic nil_dereference
  | Some p => on_nodes (propagateCancel range_order fuel p child)
  end ;;
  rcopy <- load_ctx c ;;
  alloc_ctx (set_context (Some child) rcopy).

End RequestContext.

(** ** What a chain of handlers does, in closed form

    For handlers that call [Next], [push] and extensions, but never
    [rerun], the run of a chain can be written down by recursion on the
    chain: a handler runs up to its first [c.Next()], then the rest of the
    chain runs, then the handler finishes.  A handler without [c.Next()]
    finishes first and the loop goes on to the rest: the same order. *)

Definition is_next (k : call) : bool :=
  match k with CallNext => true | _ => false end.
Definition is_rerun (k : call) : bool :=
  match k with CallRerun _ => true | _ => false end.

Definition no_rerun (b : list call) : bool := forallb (λ k, negb (is_rerun k)) b.
Definition has_next (b : list call) : bool := existsb is_next b.

(** How many times a body calls [c.Next()]. *)
Fixpoint nexts (b : list call) : Z :=
  match b with
  | [] => 0
  | CallNext :: r => 1 + nexts r
  | _ :: r => nexts r
  end.

Fixpoint until_next (b : list call) : list call :=
  match b with
  | [] => []
  | CallNext :: _ => []
  | k :: r => k :: until_next r
  end.

Fixpoint after_next (b : list call) : list call :=
  match b with
  | [] => []
  | CallNext :: r => r
  | _ :: r => after_next r
  end.

Fixpoint pushes_of (b : list call) : list Manage :=
  match b with
  | [] => []
  | CallPush fn :: r => fn :: pushes_of r
  | _ :: r => pushes_of r
  end.

Fixpoint calls_of (b : list call) : list event :=
  match b with
  | [] => []
  | CallExt f :: r => EvCall f :: calls_of r
  | _ :: r => calls_of r
  end.

(** The events of running the chain [ms], whose first handler sits at index
    [k]; the finalizers it pushes; and by how much it moves the index: once
    for each handler the loop steps over, once for each [c.Next()]. *)
Fixpoint chain_trace (k : Z) (ms : list Manage) : list event :=
  match ms with
  | [] => []
  | m :: rest =>
    EvManage k (name m) :: calls_of (until_next (body m))
      ++ chain_trace (k + 1) rest ++ calls_of (after_next (body m))
  end.

Fixpoint chain_pushes (ms : list Manage) : list Manage :=
  match ms with
  | [] => []
  | m :: rest =>
    pushes_of (until_next (body m)) ++ chain_pushes rest
      ++ pushes_of (after_next (body m))
  end.

Fixpoint advances (ms : list Manage) : Z :=
  match ms with
  | [] => 0
  | m :: rest => 1 + nexts (body m) + advances rest
  end.

(** The handler invocations in a trace: index and handler, in order. *)
Fixpoint managed (t : list event) : list (Z * string) :=
  match t with
  | [] => []
  | EvManage i who :: r => (i, who) :: managed r
  | _ :: r => managed r
  end.

(** The finalizer invocations in a trace, in order. *)
Fixpoint finalized (t : list event) : list string :=
  match t with
  | [] => []
  | EvDeferred who :: r => who :: finalized r
  | _ :: r => finalized r
  end.

(** The handlers of [ms] with their indices, from index [k] on. *)
Fixpoint indexed (k : Z) (ms : list Manage) : list (Z * string) :=
  match ms with
  | [] => []
  | m :: rest => (k, name m) :: indexed (k + 1) rest
  end.

(** Handlers that leave the cursor alone: no [c.Next()], no [c.rerun()]. *)
Definition quiet (m : Manage) : bool :=
  negb (has_next (body m)) && no_rerun (body m).

(** The events of running the finalizers [fns], in order. *)
Fixpoint deferred_trace (fns : list Manage) : list event :=
  match fns with
  | [] => []
  | fn :: rest => EvDeferred (name fn) :: calls_of (body fn) ++ deferred_trace rest
  end.

(** A call that, given enough fuel, has the outcome [r]. *)
Definition settles {S A} (f : nat → M S A) (s : S) (r : outcome S A) : Prop :=
  ∃ n, ∀ fuel, n ≤ fuel → f fuel s = r.

(** [r] is [r'], unless fuel ran out before [r] was reached. *)
Definition below {S A} (r r' : outcome S A) : Prop := r = OutOfFuel ∨ r = r'.

(** The cursor a request context holds, read through its pointer. *)
Definition cursor_of (w : world) (c : ctxid) : option handlers :=
  cx ← ctxs w !! c; h ← ctx_handlers cx; cursors w !! h.

(** The cancellation node a request context holds. *)
Definition node_of (w : world) (c : ctxid) : option context :=
  cx ← ctxs w !! c; n ← ctx_context cx; nodes w !! n.

(** How many times the handlers of a chain call [c.Next()], all in all. *)
Fixpoint reentries (ms : list Manage) : Z :=
  match ms with
  | [] => 0
  | m :: rest => nexts (body m) + reentries rest
  end.

(** The worlds in which the cursor at address [h] holds the chain [ms], the
    index [i] and the finalizers [ds], and the trace is [tr]; the rest of
    the store is [nd], [cs], [xs]. *)
Definition at_cursor (nd : heap) (cs : list handlers) (xs : list ctx) (h : hid)
    (ms : list Manage) (i : Z) (ds : list Manage) (tr : list event) : world :=
  World nd (<[h := Handlers i ms ds]> cs) xs tr.


(** A store with one request context, its node, the cursor [emptyCtx] made
    and the cursor it is bound to: the chain [ms] at index [i], no
    finalizer yet, and the trace [tr] behind it. *)
Definition midway (ms : list Manage) (i : Z) (tr : list event) : world :=
  World [Context None false None ChanOpen None (Some 0)]
        [Handlers (-1) [] []; Handlers i ms []]
        [Ctx None (Some 0) (Some 1) None None (ResponseWriter None) (Some 0)
             None None None]
        tr.

(** What the loop of [Next] does from the handler at index [length pre] on,
    when [rest] are the handlers from there to the end of its reach: it
    runs them as [chain_trace] and [chain_pushes] say, and leaves the index
    [advances rest] further. *)
Definition loop_runs (nd : heap) (cs : list handlers) (xs : list ctx)
    (c : ctxid) (h : hid) (ms : list Manage) (s : Z)
    (pre rest : list Manage) : Prop :=
  ∀ ds tr,
    (Z.of_nat (length pre) + advances rest ≤ 127)%Z →
    settles (λ fuel, loop fuel c s)
      (at_cursor nd cs xs h ms (Z.of_nat (length pre)) ds tr)
      (Ok tt (at_cursor nd cs xs h ms (Z.of_nat (length pre) + advances rest)
                (ds ++ chain_pushes rest)
                (tr ++ chain_trace (Z.of_nat (length pre)) rest))).

(** The calls that never assign to a request context, only to what it
    points to. *)
Definition keeps_ctxs {A} (m : M world A) : Prop :=
  ∀ w a w', m w = Ok a w' → ctxs w' = ctxs w.

(** The store right after [NewCtx] and [reset] on an empty store. *)
Definition started (ms : list Manage) : world := midway ms (-1) [].

(** The handlers [Next] can reach: it reads the length of the chain as an
    [int8], and stops at that. *)
Definition reach (ms : list Manage) : list Manage :=
  take (Z.to_nat (int8 (Z.of_nat (length ms)))) ms.

(** The rest of the [for] loop of [Next], taken up again when the handler
    it called returns: the post statement [c.index++], then the loop from
    its condition on, with the [s] it read before the call. *)
Definition resume (fuel : nat) (c : ctxid) (s : Z) : M world unit :=
  i' <- read c index ;;
  write c (set_index (int8 (i' + 1))) ;;
  loop fuel c s.

(** A chain for the examples: a logging middleware that wraps the rest, a
    handler that answers and registers a finalizer, a last handler. *)
Definition demo_chain : list Manage :=
  [ MkManage "log" [CallExt "begin"; CallNext; CallExt "end"];
    MkManage "auth" [CallPush (MkManage "audit" [CallExt "audit"])];
    MkManage "page" [CallExt "serveplain"] ].

(** The run loop as the specification describes it, on a chain of handlers
    that call [Next], [push] and extensions: the index is incremented, then
    the handler at the current index is invoked and the index incremented,
    until the index reaches the chain length; a handler that calls the
    advance again yields to the handlers after it and then resumes its own
    post-processing; a handler that never calls the advance short-circuits
    the remainder of the chain.  These are the events of such a run on a
    chain whose first handler sits at index [k], in order. *)
Fixpoint advanceAll_from (k : Z) (ms : list Manage) : list event :=
  match ms with
  | [] => []
  | m :: rest =>
    EvManage k (name m) ::
      (if has_next (body m)
       then calls_of (until_next (body m)) ++ advanceAll_from (k + 1) rest
              ++ calls_of (after_next (body m))
       else calls_of (body m))
  end.

(** The specified run from the sentinel. *)
Definition advanceAll_trace (ms : list Manage) : list event := advanceAll_from 0 ms.


(** [Next] on the chain [ms] invokes the handlers of [ms], each once, in
    the order of their indices, and returns. *)
Definition invokes_whole_chain (w : world) (c : ctxid) (ms : list Manage) : Prop :=
  ∃ w', settles (λ fuel, Next fuel c) w (Ok tt w') ∧
        ∃ t, trace w' = trace w ++ t ∧ managed t = indexed 0 ms.

(** [Run] returns, having run the chain [ms] and then, with no handler
    after them, the finalizers: those registered before ([ds]), the release
    finalizer, those the handlers pushed, each once, in that order. *)
Definition finalizes_after_chain (w : world) (c : ctxid) (ms ds : list Manage) : Prop :=
  ∃ w', settles (λ fuel, Run fuel c) w (Ok tt w') ∧
        ∃ t1 t2, trace w' = trace w ++ t1 ++ t2 ∧
                 managed t1 = indexed 0 ms ∧ finalized t1 = [] ∧
                 managed t2 = [] ∧
                 finalized t2 = map name (ds ++ [release] ++ chain_pushes ms).

(** [rerun] returns, having invoked the handlers of the new chain [ms], each
    once, in the order of their indices. *)
Definition restarts_on_chain (w : world) (c : ctxid) (ms : list Manage) : Prop :=
  ∃ w', settles (λ fuel, rerun fuel c ms) w (Ok tt w') ∧
        ∃ t, trace w' = trace w ++ t ∧ managed t = indexed 0 ms.


(** Advancing the chain through a replica leaves the cursor of the context
    it was made from as it was. *)
Definition replica_advance_spares_parent (range_order : gset nodeid → list nodeid)
    (w : world) (c : ctxid) : Prop :=
  ∀ fuel r w1 w2,
    replicate range_order fuel c w = Ok r w1 →
    Next fuel r w1 = Ok tt w2 →
    cursor_of w2 c = cursor_of w1 c.

(** ** What [cancel] reaches

    The notions in which the properties of the cancellation tree are
    stated. *)

(** The store an outcome leaves; none when the fuel ran out. *)
Definition store_of {S A} (r : outcome S A) : option S :=
  match r with
  | Ok _ s | Panic _ s | Deadlock s => Some s
  | OutOfFuel => None
  end.

(** The child set of a node; the nil map has no key. *)
Definition kids (n : context) : gset nodeid := default ∅ (children n).

(** [x] is [c] or can be reached from [c] through child sets, in the heap [h]. *)
Inductive reaches (h : heap) : nodeid → nodeid → Prop :=
  | reaches_here c : reaches h c c
  | reaches_child c n k x :
      h !! c = Some n → k ∈ kids n → reaches h k x → reaches h c x.

(** The heap [h'] is [h] but for the nodes in [R]; no node of it has a new
    child, another parent or another value. *)
Definition confined (R : nodeid → Prop) (h h' : heap) : Prop :=
  length h' = length h ∧
  ∀ x, (¬ R x → h' !! x = h !! x) ∧
       ∀ n', h' !! x = Some n' →
             ∃ n, h !! x = Some n ∧ kids n' ⊆ kids n ∧
                  parent n' = parent n ∧ value n' = value n.

(** A node after [cancel] returned from it. *)
Definition cancelled (e : error) (n : context) : context :=
  Context (parent n) false None ChanClosed (Some e) (value n).

(** The nodes below [c], [c] included, are a tree of depth less than [d] of
    nodes that are open and whose mutex is free: every child set holds
    nodes of the heap, and no node is below two children of one node. *)
Fixpoint open_tree (h : heap) (d : nat) (c : nodeid) : Prop :=
  match d with
  | O => False
  | S d' =>
    ∃ n, h !! c = Some n ∧ mu n = false ∧ done n = ChanOpen ∧
         (∀ k, k ∈ kids n → open_tree h d' k) ∧
         (∀ k k' x, k ∈ kids n → k' ∈ kids n →
                    reaches h k x → reaches h k' x → k = k')
  end.

(** A node whose error and [done] agree: [done] is not nil, and the error
    is set exactly when [done] is closed. *)
Definition settled (n : context) : Prop :=
  done n ≠ ChanNil ∧ (err n = None ↔ done n = ChanOpen).

(** The heap after a new node was appended and registered as a child of the
    node [p], as [replicate] does on a node that is not cancelled. *)
Definition registered (h : heap) (p : nodeid) (np leaf : context) : heap :=
  <[p := set_children (Some ({[length h]} ∪ kids np)) np]> h ++ [leaf].

(** A call that keeps [I], however it ends. *)
Definition preserves {S A} (I : S → Prop) (m : M S A) : Prop :=
  ∀ s s', I s → store_of (m s) = Some s' → I s'.

(** ** Making a request context for a route *)

(** [func (a *App) Ctx() MakeCtxFunc]: the function it returns, for a route
    with the handlers [managers].  [erroror] and [extensor] are what
    [xrr.DefaultErroror()] and [newextensor(a.extensions, c)] give; the
    call of the "start" extension is recorded and taken to return. *)
Definition App_Ctx (erroror extensor : option nat) (rw rq rs : option nat)
    (managers : list Manage) : M world ctxid :=
  c <- NewCtx erroror extensor rs ;;
  reset c rq rw managers ;;
  emit (EvCall "start") ;;
  ret c.

(** The finalizers that the finalizers [fns] push when they run. *)
Fixpoint deferred_pushes (fns : list Manage) : list Manage :=
  match fns with
  | [] => []
  | fn :: rest => pushes_of (body fn) ++ deferred_pushes rest
  end.

(** [func (c *context) Value(key interface{}) interface{}]: the key is not
    looked at. *)
Definition Value (c : nodeid) : M heap (option ctxid) :=
  n <- load c ;; ret (value n).

(** ** Cookies (cookies.go)

    A Go string is a sequence of bytes: a [string] here. *)

Definition LF : ascii := "010"%char.
Definition CR : ascii := "013"%char.

(** [Replace] of a [strings.Replacer] whose old and new strings are single
    bytes: every byte is replaced on its own. *)
Fixpoint replace_bytes (f : ascii → ascii) (s : string) : string :=
  match s with
  | EmptyString => EmptyString
  | String c r => String (f c) (replace_bytes f r)
  end.

(** [cNameSanitizer = strings.NewReplacer("\n", "-", "\r", "-")] *)
Definition cNameSanitizer : string → string :=
  replace_bytes (λ c, if decide (c = LF) then "-"%char
                      else if decide (c = CR) then "-"%char else c).

(** [cValueSanitizer = strings.NewReplacer("\n", " ", "\r", " ", ";", " ")] *)
Definition cValueSanitizer : string → string :=
  replace_bytes (λ c, if decide (c = LF) then " "%char
                      else if decide (c = CR) then " "%char
                      else if decide (c = ";"%char) then " "%char else c).

(** A value of type [interface{}], as far as [basiccookie] tells values
    apart: an [int], a [string], a [bool], or anything else (nil included). *)
Inductive iface :=
  | VInt (z : Z)
  | VString (s : string)
  | VBool (b : bool)
  | VOther.

(** [%d] of an [int], and [strconv.FormatInt(n, 10)]: decimal digits, with a
    minus sign before them for a negative number. *)
Definition FormatInt (z : Z) : string := NilZero.string_of_int (Z.to_int z).

(** [func basiccookie(name string, value string, opts ...interface{}) string] *)
Definition basiccookie (name value : string) (opts : list iface) : string :=
  let b := cNameSanitizer name +:+ "=" +:+ cValueSanitizer value in
  let b := match opts !! 0 with
           | Some (VInt opt) =>
             if (0 <? opt)%Z then b +:+ "; Max-Age=" +:+ FormatInt opt
             else b +:+ "; Max-Age=0"
           | _ => b
           end in
  let b := match opts !! 1 with
           | Some (VString opt) =>
             if 0 <? String.length opt then b +:+ "; Path=" +:+ cValueSanitizer opt
             else b
           | _ => b
           end in
  let b := match opts !! 2 with
           | Some (VString opt) =>
             if 0 <? String.length opt then b +:+ "; Domain=" +:+ cValueSanitizer opt
             else b
           | _ => b
           end in
  let secure := match opts !! 3 with Some (VBool opt) => opt | _ => false end in
  let b := if secure then b +:+ "; Secure" else b in
  let httponly := match opts !! 4 with Some (VBool opt) => opt | _ => false end in
  let b := if httponly then b +:+ "; HttpOnly" else b in
  b.

(** The decimal digits. *)
Definition is_digit (a : ascii) : Prop :=
  a ∈ ["0"; "1"; "2"; "3"; "4"; "5"; "6"; "7"; "8"; "9"]%char.

(** How many times the byte [c] occurs in [s]. *)
Fixpoint occurs (c : ascii) (s : string) : nat :=
  match s with
  | EmptyString => 0
  | String a r => (if decide (a = c) then 1 else 0) + occurs c r
  end.

(** [strings.SplitN(s, sep, n)] for a separator of one byte and [n] not
    negative: at most [n] pieces, the last one the rest of [s] unsplit. *)
Fixpoint cut (sep : ascii) (s : string) : option (string * string) :=
  match s with
  | EmptyString => None
  | String c r =>
    if decide (c = sep) then Some (EmptyString, r)
    else match cut sep r with
         | Some (a, b) => Some (String c a, b)
         | None => None
         end
  end.

Fixpoint SplitN (s : string) (sep : ascii) (n : nat) : list string :=
  match n with
  | 0 => []
  | S n' =>
    match n' with
    | 0 => [s]
    | S _ =>
      match cut sep s with
      | Some (a, b) => a :: SplitN b sep n'
      | None => [s]
      end
    end
  end.

(** The part of [http.Cookie] the code reads. *)
Module http.
Record Cookie := MkCookie { Name : string; Value : string }.
End http.

(** [func cookies(c *ctx) map[string]*http.Cookie], over the cookies
    [c.Request.Cookies()] returns. *)
Definition cookies (request_cookies : list http.Cookie) : gmap string http.Cookie :=
  foldl (λ ret cookie, <[http.Name cookie := cookie]> ret) ∅ request_cookies.

Definition unreadable : string :=
  "cookie value could not be read and/or unpacked".

Section Cookies.

(** The [StoreItem] struct is declared outside the files at hand: a
    parameter, with the read of its field [http.Value], a string. *)
Variable StoreItem : Type.
Variable item_Value : StoreItem → string.

(** What an extension hands back, an [interface{}]: a [*StoreItem], nil or
    not, or something else (a value of another type, or the nil interface),
    with the text of the run-time error that the type assertion of
    [CheckStore] raises on it. *)
Inductive dyn :=
  | DynStoreItem (p : option StoreItem)
  | DynOther (interface_conversion : string).

(** [c.Call("store", c, key)], the capability the context calls through:
    a value and an error. *)
Variable Call_store : string → dyn * option error.

(** [func CheckStore(c Ctx, key string)], which returns a [*StoreItem] and
    a [bool]. *)
Definition CheckStore (key : string) : M unit (option StoreItem * bool) :=
  match Call_store key with
  | (item, None) =>
    match item with
    | DynStoreItem p => ret (p, true)
    | DynOther interface_conversion => panic interface_conversion
    end
  | (_, Some _) => ret (None, false)
  end.

(** [fmt.Sprintf("%02x", hmac.New(sha1.New, key).Sum(nil))]: the hex digits
    of the HMAC of the empty message under [key]. *)
Variable hmac_hex : string → string.

(** [base64.URLEncoding.EncodeToString] and the bytes [DecodeString]
    returns, whatever its error. *)
Variable b64encode : string → string.
Variable b64decode : string → string.

(** [func securevalue(secret string, value string) string]; [now] is what
    [time.Now().UnixNano()] gives. *)
Definition securevalue (now : Z) (secret value : string) : string :=
  let vs := b64encode value in
  let timestamp := FormatInt now in
  let sig := hmac_hex secret in
  vs +:+ "|" +:+ timestamp +:+ "|" +:+ sig.

(** [func unpackcookie(c *ctx, cookie *http.Cookie) string] *)
Definition unpackcookie (cookie : http.Cookie) : M unit string :=
  let val := http.Value cookie in
  if decide (val = "") then ret val
  else
    match SplitN val "|" 3 with
    | [vs; _; sig] =>
      r <- CheckStore "SECRET_KEY" ;;
      match r with
      | (secret, true) =>
        match secret with
        | None => panic nil_dereference
        | Some it =>
          if decide (hmac_hex (item_Value it) = sig) then ret (b64decode vs)
          else ret ""
        end
      | (_, false) => ret unreadable
      end
    | _ => ret val
    end.

(** The loop of [readcookies]: [ret[k] = unpackcookie(c, v)] for the
    entries [l] of the map, in that order. *)
Fixpoint unpack_each (l : list (string * http.Cookie)) (acc : gmap string string)
    : M unit (gmap string string) :=
  match l with
  | [] => ret acc
  | (k, v) :: rest => s <- unpackcookie v ;; unpack_each rest (<[k := s]> acc)
  end.

(** [func readcookies(c *ctx) map[string]string]; the range over the map
    [cookies] made visits it in the order [range_order] gives. *)
Definition readcookies (range_order : gmap string http.Cookie → list (string * http.Cookie))
    (request_cookies : list http.Cookie) : M unit (gmap string string) :=
  unpack_each (range_order (cookies request_cookies)) ∅.

End Cookies.

(** [base64.URLEncoding] of Go's library (RFC 4648, section 5, padded), for
    the examples: the theorems take the encoding as a parameter. *)
Definition b64_alphabet : list ascii :=
  String.list_ascii_of_string
    "ABCDEFGHIJKLMNOPQRSTUVWXYZabcdefghijklmnopqrstuvwxyz0123456789-_".

Definition b64_char (n : N) : ascii := nth (N.to_nat n) b64_alphabet "="%char.

Fixpoint b64_index_in (l : list ascii) (c : ascii) (i : N) : option N :=
  match l with
  | [] => None
  | a :: r => if decide (a = c) then Some i else b64_index_in r c (i + 1)%N
  end.

Definition b64_index (c : ascii) : option N := b64_index_in b64_alphabet c 0.

Fixpoint b64_encode (s : string) : string :=
  match s with
  | EmptyString => EmptyString
  | String a EmptyString =>
    let n := (N_of_ascii a * 16)%N in
    String (b64_char (n / 64)) (String (b64_char (n mod 64)) "==")
  | String a (String b EmptyString) =>
    let n := ((N_of_ascii a * 256 + N_of_ascii b) * 4)%N in
    String (b64_char (n / 4096))
      (String (b64_char (n / 64 mod 64)) (String (b64_char (n mod 64)) "="))
  | String a (String b (String c r)) =>
    let n := ((N_of_ascii a * 256 + N_of_ascii b) * 256 + N_of_ascii c)%N in
    String (b64_char (n / 262144))
      (String (b64_char (n / 4096 mod 64))
         (String (b64_char (n / 64 mod 64))
            (String (b64_char (n mod 64)) (b64_encode r))))
  end.

(** The bytes [DecodeString] has decoded when it stops, at the end or at
    the first byte outside the alphabet. *)
Fixpoint b64_decode (s : string) : string :=
  match s with
  | String a (String b (String c (String d r))) =>
    match b64_index a, b64_index b with
    | Some x, Some y =>
      match b64_index c with
      | Some z =>
        match b64_index d with
        | Some t =>
          let n := (((x * 64 + y) * 64 + z) * 64 + t)%N in
          String (ascii_of_N (n / 65536))
            (String (ascii_of_N (n / 256 mod 256))
               (String (ascii_of_N (n mod 256)) (b64_decode r)))
        | None =>
          let n := ((x * 64 + y) * 64 + z)%N in
          String (ascii_of_N (n / 1024)) (String (ascii_of_N (n / 4 mod 256)) "")
        end
      | None => String (ascii_of_N ((x * 64 + y) / 16)) ""
      end
    | _, _ => EmptyString
    end
  | _ => EmptyString
  end.

(** The nil interface, for the examples. *)
Definition nil_interface : dyn string :=
  DynOther string "interface conversion: interface is nil, not *flotilla.StoreItem".

(** A store for the examples: it holds the secret "s3cret" under
    "SECRET_KEY" and nothing else; an item is its value. *)
Definition example_store (key : string) : dyn string * option error :=
  if decide (key = "SECRET_KEY") then (DynStoreItem string (Some "s3cret"), None)
  else (nil_interface, Some (OtherError "no such item")).

(** The hex digits of the HMAC-SHA1 of the empty message under "s3cret". *)
Definition example_hmac_hex (key : string) : string :=
  if decide (key = "s3cret") then "3e48575537919d9187078407ecb88e44b1d674e4"
  else "".

(** ** The environment (env.go)

    A Go map with string keys: [None] is the nil map.  It reads as the empty
    map; an assignment to it panics. *)
Abbreviation gomap V := (option (gmap string V)).

Definition nil_map_assignment : string := "assignment to entry in nil map".

(** [v, ok := m[k]] *)
Definition map_get {V} (m : gomap V) (k : string) : option V :=
  match m with
  | Some g => g !! k
  | None => None
  end.

(** [m[k] = v], on the map the state holds. *)
Definition map_set {V} (k : string) (v : V) : M (gomap V) unit :=
  λ m, match m with
       | Some g => Ok tt (Some (<[k := v]> g))
       | None => Panic nil_map_assignment None
       end.

(** The entries a [range] over a map visits. *)
Definition entries {V} (m : gomap V) : gmap string V := default ∅ m.

Section Env.

(** The order in which [range] visits a map is unspecified: a parameter. *)
Context {V : Type}.
Variable range_order : gmap string V → list (string * V).

(** [func (env *Env) MergeStore(other Store)], on [env.Store].  The type of
    the store items is declared outside the files at hand: [defaultvalue] is
    the read [v.defaultvalue] of the loop, [None] where the item is a nil
    pointer. *)
Definition MergeStore (defaultvalue : V → option bool) (other : gomap V)
    : M (gomap V) unit :=
  for_each (range_order (entries other))
    (λ kv, match defaultvalue kv.2 with
           | None => panic nil_dereference
           | Some d =>
             if negb d then
               λ store, match map_get store kv.1 with
                        | Some _ => Ok tt store
                        | None => map_set kv.1 kv.2 store
                        end
             else ret tt
           end).

(** [func (env *Env) MergeExtensions(fns map[string]reflect.Value)], on
    [env.extensions]. *)
Definition MergeExtensions (fns : gomap V) : M (gomap V) unit :=
  for_each (range_order (entries fns)) (λ kv, map_set kv.1 kv.2).

End Env.

Section Extensions.

(** The functions handed in, the [reflect.Value]s kept, and the two
    helpers of the package that [AddExtension] calls. *)
Context {F V : Type}.
Variable validExtension : F → option error.
Variable valueFunc : F → V.
Variable range_order : gmap string F → list (string * F).

(** [func (env *Env) AddExtension(name string, fn interface{}) error], on
    [env.extensions]. *)
Definition AddExtension (name : string) (fn : F) : M (gomap V) (option error) :=
  modify (λ m : gomap V, match m with None => Some ∅ | Some _ => m end) ;;
  match validExtension fn with
  | None => map_set name (valueFunc fn) ;; ret None
  | Some e => ret (Some e)
  end.

(** The loop of [AddExtensions], which returns at the first error. *)
Fixpoint add_each (l : list (string * F)) : M (gomap V) (option error) :=
  match l with
  | [] => ret None
  | kv :: rest =>
    err <- AddExtension kv.1 kv.2 ;;
    match err with
    | Some e => ret (Some e)
    | None => add_each rest
    end
  end.

(** [func (env *Env) AddExtensions(fns map[string]interface{}) error] *)
Definition AddExtensions (fns : gomap F) : M (gomap V) (option error) :=
  add_each (range_order (entries fns)).

End Extensions.

(** * Properties *)

#[local] Arguments Z.add : simpl never.
#[local] Arguments Z.sub : simpl never.
#[local] Arguments Z.of_nat : simpl never.

(** ** The monad *)

Lemma bind_ok {S A B} (m : M S A) (k : A → M S B) s a s' :
  m s = Ok a s' → bind m k s = k a s'.
Proof. unfold bind. by intros ->. Qed.

Lemma bind_panic {S A B} (m : M S A) (k : A → M S B) s msg s' :
  m s = Panic msg s' → bind m k s = Panic msg s'.
Proof. unfold bind. by intros ->. Qed.

Lemma bind_deadlock {S A B} (m : M S A) (k : A → M S B) s s' :
  m s = Deadlock s' → bind m k s = Deadlock s'.
Proof. unfold bind. by intros ->. Qed.

(** ** [int8] *)

Lemma int8_range z : (-128 ≤ int8 z ≤ 127)%Z.
Proof. unfold int8. pose proof (Z.mod_pos_bound (z + 128) 256). lia. Qed.

Lemma int8_small z : (-128 ≤ z ≤ 127)%Z → int8 z = z.
Proof. intros H. unfold int8. rewrite Z.mod_small; lia. Qed.

Lemma int8_le z : (0 ≤ z)%Z → (int8 z ≤ z)%Z.
Proof.
  intros H. unfold int8.
  pose proof (Z.mod_le (z + 128) 256). lia.
Qed.


(** Facts on the closed forms. *)
Lemma nexts_nonneg b : (0 ≤ nexts b)%Z.
Proof. induction b as [|[] b IH]; simpl; lia. Qed.

Lemma nexts_has_next b : has_next b = true → (1 ≤ nexts b)%Z.
Proof.
  induction b as [|k b IH]; simpl; [done|].
  pose proof (nexts_nonneg b). destruct k; simpl; intros; try lia; auto.
Qed.

Lemma no_next_forms b :
  has_next b = false → nexts b = 0%Z ∧ until_next b = b ∧ after_next b = [].
Proof.
  induction b as [|k b IH]; simpl; [done|].
  destruct k; simpl; try done; intros H; destruct (IH H) as (-> & -> & ->); done.
Qed.

Lemma advances_ge ms : (Z.of_nat (length ms) ≤ advances ms)%Z.
Proof.
  induction ms as [|m ms IH]; simpl; [done|].
  pose proof (nexts_nonneg (body m)). lia.
Qed.

(** ** One cursor in the store

    The worlds in which the request context [c] holds the cursor at address
    [h]: everything else in the store is fixed, the cursor and the trace
    vary. *)

Section Cursor.

Variables (nd : heap) (cs : list handlers) (xs : list ctx).
Variables (c : ctxid) (cx : ctx) (h : hid).
Hypothesis Hc : xs !! c = Some cx.
Hypothesis Hh : ctx_handlers cx = Some h.
Hypothesis Hlen : h < length cs.

Local Abbreviation W := (at_cursor nd cs xs h).

Lemma cursor_at ms i ds tr :
  cursor c (W ms i ds tr) = Ok (h, Handlers i ms ds) (W ms i ds tr).
Proof.
  unfold cursor, bind, load_ctx, at_cursor; simpl.
  rewrite Hc, Hh. simpl. by rewrite list_lookup_insert_eq.
Qed.

Lemma read_at {A} (f : handlers → A) ms i ds tr :
  read c f (W ms i ds tr) = Ok (f (Handlers i ms ds)) (W ms i ds tr).
Proof. unfold read. by rewrite (bind_ok _ _ _ _ _ (cursor_at _ _ _ _)). Qed.

Lemma write_at f ms i ds tr :
  write c f (W ms i ds tr) =
  Ok tt (W (managers (f (Handlers i ms ds))) (index (f (Handlers i ms ds)))
                   (deferred (f (Handlers i ms ds))) tr).
Proof.
  unfold write. rewrite (bind_ok _ _ _ _ _ (cursor_at _ _ _ _)).
  unfold modify, at_cursor, set_cursors; simpl.
  rewrite list_insert_insert_eq. by destruct (f _).
Qed.

Lemma emit_at e ms i ds tr :
  emit e (W ms i ds tr) = Ok tt (W ms i ds (tr ++ [e])).
Proof. done. Qed.

Lemma push_at fn ms i ds tr :
  push c fn (W ms i ds tr) = Ok tt (W ms i (ds ++ [fn]) tr).
Proof.
  unfold push. rewrite (bind_ok _ _ _ _ _ (read_at _ _ _ _ _)).
  by rewrite write_at.
Qed.

Lemma at_index_ok (ms : list Manage) (k : nat) m w :
  ms !! k = Some m → at_index ms (Z.of_nat k) w = Ok m w.
Proof.
  intros H. unfold at_index.
  destruct (Z.ltb_spec (Z.of_nat k) 0); [lia|].
  by rewrite Nat2Z.id, H.
Qed.

Lemma at_index_out (ms : list Manage) (i : Z) w :
  (i < 0 ∨ Z.of_nat (length ms) ≤ i)%Z →
  at_index ms i w = Panic index_out_of_range w.
Proof.
  intros H. unfold at_index.
  destruct (Z.ltb_spec i 0); [done|].
  rewrite lookup_ge_None_2; [done | lia].
Qed.

Lemma write_index_at j ms i ds tr :
  write c (set_index j) (W ms i ds tr) = Ok tt (W ms j ds tr).
Proof. by rewrite write_at. Qed.

Lemma write_managers_at ms' ms i ds tr :
  write c (set_managers ms') (W ms i ds tr) = Ok tt (W ms' i ds tr).
Proof. by rewrite write_at. Qed.

Lemma Next_S fuel w :
  Next (S fuel) c w =
  (i <- read c index ;;
   write c (set_index (int8 (i + 1))) ;;
   ms <- read c managers ;;
   loop fuel c (int8 (Z.of_nat (length ms)))) w.
Proof. done. Qed.

Lemma loop_S fuel s w :
  loop (S fuel) c s w =
  (i <- read c index ;;
   if (i <? s)%Z then
     ms <- read c managers ;;
     m <- at_index ms i ;;
     emit (EvManage i (name m)) ;;
     invoke fuel c (body m) ;;
     i' <- read c index ;;
     write c (set_index (int8 (i' + 1))) ;;
     loop fuel c s
   else ret tt) w.
Proof. done. Qed.

Lemma invoke_nil fuel w : invoke (S fuel) c [] w = Ok tt w.
Proof. done. Qed.

Lemma invoke_cons fuel k rest w :
  invoke (S fuel) c (k :: rest) w =
  (match k with
   | CallNext => Next fuel c
   | CallPush fn => push c fn
   | CallRerun ms => rerun_with (Next fuel) c ms
   | CallExt f => emit (EvCall f)
   end ;; invoke fuel c rest) w.
Proof. done. Qed.

Lemma W_eq {A} (a : A) ms i i' ds ds' tr tr' :
  i = i' → ds = ds' → tr = tr' →
  Ok a (W ms i ds tr) = Ok a (W ms i' ds' tr').
Proof. by intros -> -> ->. Qed.

(** One step of the engine at a known cursor. *)
Ltac step :=
  first
    [ rewrite (bind_ok _ _ _ _ _ (read_at _ _ _ _ _))
    | rewrite (bind_ok _ _ _ _ _ (write_index_at _ _ _ _ _))
    | rewrite (bind_ok _ _ _ _ _ (write_managers_at _ _ _ _ _))
    | rewrite (bind_ok _ _ _ _ _ (push_at _ _ _ _ _))
    | rewrite (bind_ok _ _ _ _ _ (emit_at _ _ _ _ _)) ];
  cbn [index managers deferred].


(** The loop taken up again at an index past the chain: it stops, or it
    reads [c.managers] out of range; it invokes nothing. *)
Lemma resume_past_chain fuel s ms i ds tr :
  (Z.of_nat (length ms) ≤ i ≤ 127)%Z → 0 < fuel →
  resume fuel c s (W ms i ds tr) =
  if (int8 (i + 1) <? s)%Z
  then Panic index_out_of_range (W ms (int8 (i + 1)) ds tr)
  else Ok tt (W ms (int8 (i + 1)) ds tr).
Proof.
  intros Hi Hf. destruct fuel as [|fuel]; [lia|].
  unfold resume. do 2 step. rewrite loop_S. step.
  destruct (int8 (i + 1) <? s)%Z; [|done].
  step. apply bind_panic, at_index_out.
  destruct (Z.eq_dec i 127) as [->|]; [by left|].
  right. rewrite int8_small; lia.
Qed.

(** [rerun] is [Next] on the cursor rewound to the sentinel and bound to
    the new chain. *)
Lemma rerun_at fuel new ms i ds tr :
  rerun fuel c new (W ms i ds tr) = Next fuel c (W new (-1) ds tr).
Proof.
  unfold rerun, rerun_with. step.
  destruct (Z.eqb_spec i (-1)) as [->|].
  - unfold ret at 1. rewrite (bind_ok _ _ _ _ _ eq_refl). by step.
  - by do 2 step.
Qed.

(** A body that calls neither [Next] nor [rerun] leaves the index alone. *)
Lemma invoke_quiet b : ∀ fuel ms i ds tr,
  has_next b = false → no_rerun b = true → length b < fuel →
  invoke fuel c b (W ms i ds tr) =
  Ok tt (W ms i (ds ++ pushes_of b) (tr ++ calls_of b)).
Proof.
  induction b as [|k b IH]; intros fuel ms i ds tr Hn Hr Hf;
    (destruct fuel as [|fuel]; [simpl in Hf; lia|]).
  - rewrite invoke_nil. simpl. by rewrite !app_nil_r.
  - rewrite invoke_cons. simpl in Hf.
    destruct k; simpl in Hn, Hr; try done.
    + step. rewrite IH by (done || lia). simpl. by rewrite <- app_assoc.
    + step. rewrite IH by (done || lia). simpl. by rewrite <- app_assoc.
Qed.

Section Chain.

(** The chain [ms] is bound; [s] is what [Next] reads its length as, and
    [live] are the handlers below [s], the only ones the loop can reach. *)
Variables (ms live : list Manage) (s : Z).
Hypothesis Hs : s = int8 (Z.of_nat (length ms)).
Hypothesis Hs0 : (0 ≤ s)%Z.
Hypothesis Hlive : live = take (Z.to_nat s) ms.

Lemma live_length : Z.of_nat (length live) = s.
Proof.
  rewrite Hlive, length_take.
  pose proof (int8_le (Z.of_nat (length ms))). lia.
Qed.

Lemma live_lookup pre m rest :
  live = pre ++ m :: rest → ms !! length pre = Some m.
Proof.
  intros E.
  assert (live !! length pre = Some m) as H.
  { rewrite E. by rewrite list_lookup_middle. }
  rewrite Hlive in H. by apply lookup_take_Some in H as [? _].
Qed.

(** [Next] with no handler left to reach only moves the index. *)
Lemma Next_exhausted fuel i ds tr :
  (s ≤ i + 1 ≤ 127)%Z → 2 ≤ fuel →
  Next fuel c (W ms i ds tr) = Ok tt (W ms (i + 1) ds tr).
Proof using Hc Hh Hlen Hs.
  clear Hs0 Hlive. intros Hi Hf.
  pose proof (int8_range (Z.of_nat (length ms))). destruct fuel as [|[|fuel]]; [lia..|].
  rewrite Next_S. do 3 step. rewrite <- Hs.
  rewrite int8_small by lia.
  rewrite loop_S. step.
  destruct (Z.ltb_spec (i + 1) s); [lia | done].
Qed.

Lemma invoke_exhausted b : ∀ fuel i ds tr,
  no_rerun b = true → (s ≤ i + 1)%Z → (i + nexts b ≤ 127)%Z →
  2 + length b ≤ fuel →
  invoke fuel c b (W ms i ds tr) =
  Ok tt (W ms (i + nexts b) (ds ++ pushes_of b) (tr ++ calls_of b)).
Proof using Hc Hh Hlen Hs.
  clear Hs0 Hlive. pose proof (int8_range (Z.of_nat (length ms))).
  induction b as [|k b IH]; intros fuel i ds tr Hr Hi Hb Hf;
    (destruct fuel as [|fuel]; [simpl in Hf; lia|]).
  - rewrite invoke_nil. simpl. by rewrite Z.add_0_r, !app_nil_r.
  - rewrite invoke_cons. simpl in Hf.
    pose proof (nexts_nonneg b).
    destruct k; simpl in Hr, Hb; try done.
    + rewrite (bind_ok _ _ _ _ _ (Next_exhausted fuel i ds tr ltac:(lia) ltac:(lia))).
      rewrite IH by (done || lia). simpl. f_equal. f_equal. lia.
    + step. rewrite IH by (done || lia). simpl. by rewrite <- app_assoc.
    + step. rewrite IH by (done || lia). simpl. by rewrite <- app_assoc.
Qed.

Local Abbreviation loop_runs := (loop_runs nd cs xs c h ms s).

(** [Next] called from the handler just before [rest]. *)
Lemma Next_pending pre rest :
  loop_runs pre rest →
  ∀ ds tr,
    (Z.of_nat (length pre) + advances rest ≤ 127)%Z →
    settles (λ fuel, Next fuel c) (W ms (Z.of_nat (length pre) - 1) ds tr)
      (Ok tt (W ms (Z.of_nat (length pre) + advances rest)
                (ds ++ chain_pushes rest)
                (tr ++ chain_trace (Z.of_nat (length pre)) rest))).
Proof.
  intros HP ds tr Hb. pose proof (advances_ge rest) as HA.
  destruct (HP ds tr Hb) as [n Hn].
  exists (S n). intros fuel Hf. destruct fuel as [|fuel]; [lia|].
  rewrite Next_S. do 3 step. rewrite <- Hs, int8_small by lia.
  replace (Z.of_nat (length pre) - 1 + 1)%Z with (Z.of_nat (length pre)) by lia.
  apply Hn. lia.
Qed.

(** A body with a [c.Next()] in it, run by the handler just before [rest]. *)
Lemma invoke_pending pre rest :
  live = pre ++ rest → loop_runs pre rest →
  ∀ b ds tr,
    has_next b = true → no_rerun b = true →
    (Z.of_nat (length pre) - 1 + nexts b + advances rest ≤ 127)%Z →
    settles (λ fuel, invoke fuel c b) (W ms (Z.of_nat (length pre) - 1) ds tr)
      (Ok tt (W ms (Z.of_nat (length pre) - 1 + nexts b + advances rest)
                (ds ++ pushes_of (until_next b) ++ chain_pushes rest
                    ++ pushes_of (after_next b))
                (tr ++ calls_of (until_next b)
                    ++ chain_trace (Z.of_nat (length pre)) rest
                    ++ calls_of (after_next b)))).
Proof.
  intros E HP. pose proof live_length as HL.
  pose proof (advances_ge rest) as HA.
  assert (Z.of_nat (length pre) + Z.of_nat (length rest) = s)%Z as Hsplit.
  { rewrite <- HL, E, length_app. lia. }
  induction b as [|k b IH]; intros ds tr Hn Hr Hb; [done|].
  pose proof (nexts_nonneg b).
  destruct k; simpl in Hn, Hr, Hb; try done.
  - (* c.Next() *)
    destruct (Next_pending pre rest HP ds tr ltac:(lia)) as [n Hn'].
    exists (S (n + (2 + length b))). intros fuel Hf.
    destruct fuel as [|fuel]; [lia|].
    rewrite invoke_cons, (bind_ok _ _ _ _ _ (Hn' fuel ltac:(lia))).
    rewrite invoke_exhausted by (done || lia).
    simpl. rewrite <- !app_assoc. f_equal. f_equal. lia.
  - (* c.push(fn) *)
    destruct (IH (ds ++ [fn]) tr Hn Hr Hb) as [n Hn'].
    exists (S n). intros fuel Hf. destruct fuel as [|fuel]; [lia|].
    rewrite invoke_cons. step. rewrite Hn' by lia.
    simpl. by rewrite <- app_assoc.
  - (* c.Call(f) *)
    destruct (IH ds (tr ++ [EvCall fname]) Hn Hr Hb) as [n Hn'].
    exists (S n). intros fuel Hf. destruct fuel as [|fuel]; [lia|].
    rewrite invoke_cons. step. rewrite Hn' by lia.
    simpl. by rewrite <- app_assoc.
Qed.

(** The loop runs the handlers it can reach, each once, in order. *)
Lemma loop_live rest : ∀ pre,
  live = pre ++ rest →
  forallb (λ m, no_rerun (body m)) rest = true →
  loop_runs pre rest.
Proof.
  pose proof live_length as HL.
  induction rest as [|m rest IH]; intros pre E Hr ds tr Hb.
  - exists 1. intros fuel Hf. destruct fuel as [|fuel]; [lia|].
    rewrite app_nil_r in E. subst pre.
    rewrite loop_S. step. rewrite HL.
    destruct (Z.ltb_spec s s); [lia|].
    simpl. by rewrite Z.add_0_r, !app_nil_r.
  - simpl in Hr. apply andb_prop in Hr as [Hm Hr].
    assert (live = (pre ++ [m]) ++ rest) as E' by (by rewrite <- app_assoc).
    specialize (IH (pre ++ [m]) E' Hr).
    pose proof (advances_ge rest) as HA.
    pose proof (nexts_nonneg (body m)) as Hnn.
    assert (Z.of_nat (length pre) + 1 + Z.of_nat (length rest) = s)%Z as Hsplit.
    { rewrite <- HL, E, length_app. simpl. lia. }
    assert (Z.of_nat (length (pre ++ [m])) = Z.of_nat (length pre) + 1)%Z as Hpre.
    { rewrite length_app. simpl. lia. }
    simpl in Hb.
    destruct (has_next (body m)) eqn:Hnext.
    + (* the handler calls Next: the rest runs inside it *)
      pose proof (invoke_pending _ _ E' IH (body m) ds
                  (tr ++ [EvManage (Z.of_nat (length pre)) (name m)]) Hnext Hm)
        as HI.
      rewrite Hpre in HI.
      replace (Z.of_nat (length pre) + 1 - 1)%Z with (Z.of_nat (length pre)) in HI by lia.
      destruct HI as [n Hn]; [lia|].
      exists (S (S n)). intros fuel Hf. destruct fuel as [|fuel]; [lia|].
      rewrite loop_S. step.
      destruct (Z.ltb_spec (Z.of_nat (length pre)) s); [|lia].
      step. rewrite (bind_ok _ _ _ _ _ (at_index_ok _ _ _ _ (live_lookup _ _ _ E))).
      step. rewrite (bind_ok _ _ _ _ _ (Hn fuel ltac:(lia))).
      do 2 step. rewrite int8_small by lia.
      destruct fuel as [|fuel]; [lia|].
      rewrite loop_S. step.
      destruct (Z.ltb_spec (Z.of_nat (length pre) + nexts (body m)
                            + advances rest + 1) s); [lia|].
      apply W_eq; simpl; rewrite <- ?app_assoc; [lia | done | done].
    + (* the handler returns: the loop goes on *)
      destruct (no_next_forms _ Hnext) as (Hz & Hu & Ha).
      destruct (IH (ds ++ pushes_of (body m))
                  ((tr ++ [EvManage (Z.of_nat (length pre)) (name m)])
                      ++ calls_of (body m))) as [n Hn]; [lia|].
      exists (S (n + S (length (body m)))). intros fuel Hf.
      destruct fuel as [|fuel]; [lia|].
      rewrite loop_S. step.
      destruct (Z.ltb_spec (Z.of_nat (length pre)) s); [|lia].
      step. rewrite (bind_ok _ _ _ _ _ (at_index_ok _ _ _ _ (live_lookup _ _ _ E))).
      step. rewrite (bind_ok _ _ _ _ _ (invoke_quiet (body m) fuel _ _ _ _ Hnext Hm ltac:(lia))).
      do 2 step. rewrite int8_small by lia.
      rewrite <- Hpre, Hn by lia.
      apply W_eq; cbn [chain_pushes chain_trace advances];
        rewrite ?Hu, ?Ha, ?Hz, ?Hpre; simpl;
        rewrite ?app_nil_r, <- ?app_assoc; [lia | done | done].
Qed.

(** [Next] from the sentinel runs the whole reachable chain. *)
Lemma Next_live ds tr :
  forallb (λ m, no_rerun (body m)) live = true →
  (advances live ≤ 127)%Z →
  settles (λ fuel, Next fuel c) (W ms (-1) ds tr)
    (Ok tt (W ms (advances live) (ds ++ chain_pushes live)
              (tr ++ chain_trace 0 live))).
Proof.
  intros Hr Hb.
  apply (Next_pending [] live (loop_live live [] eq_refl Hr) ds tr Hb).
Qed.

End Chain.

End Cursor.

(** ** Fuel

    More fuel never changes an outcome that was reached. *)

Lemma below_refl {S A} (r : outcome S A) : below r r.
Proof. by right. Qed.

Lemma below_bind {S A B} (m m' : M S A) (k k' : A → M S B) s :
  below (m s) (m' s) → (∀ a s', below (k a s') (k' a s')) →
  below (bind m k s) (bind m' k' s).
Proof.
  unfold below, bind. intros [->| <-] Hk; [by left|].
  destruct (m s); auto.
Qed.

Lemma below_fuel {S A} (f : nat → M S A) :
  (∀ n s, below (f n s) (f (Datatypes.S n) s)) →
  ∀ n m s, n ≤ m → below (f n s) (f m s).
Proof.
  intros H n m s Hnm. induction Hnm as [|m Hnm IH]; [apply below_refl|].
  destruct IH as [->| ->]; [by left | apply H].
Qed.

Lemma settles_at {S A} (f : nat → M S A) n s r :
  (∀ n s, below (f n s) (f (Datatypes.S n) s)) →
  f n s = r → r ≠ OutOfFuel → settles f s r.
Proof.
  intros H E Hr. exists n. intros fuel Hf.
  destruct (below_fuel f H n fuel s Hf) as [E'|E']; congruence.
Qed.

Lemma settles_unique {S A} (f : nat → M S A) s r r' :
  settles f s r → settles f s r' → r = r'.
Proof.
  intros [n Hn] [n' Hn'].
  rewrite <- (Hn (n `max` n')), <- (Hn' (n `max` n')) by lia. done.
Qed.

Lemma engine_fuel n :
  (∀ c w, below (Next n c w) (Next (S n) c w)) ∧
  (∀ c s w, below (loop n c s w) (loop (S n) c s w)) ∧
  (∀ c b w, below (invoke n c b w) (invoke (S n) c b w)).
Proof.
  induction n as [|n (IN & IL & II)]; [by repeat split; intros; left|].
  repeat split.
  - intros c w. rewrite (Next_S c (S n)), (Next_S c n).
    repeat (apply below_bind; [apply below_refl | intros]). apply IL.
  - intros c s w. rewrite (loop_S c (S n)), (loop_S c n).
    apply below_bind; [apply below_refl | intros i w'].
    destruct (i <? s)%Z; [|apply below_refl].
    do 3 (apply below_bind; [apply below_refl | intros]).
    apply below_bind; [apply II | intros].
    do 2 (apply below_bind; [apply below_refl | intros]). apply IL.
  - intros c [|k b] w; [apply below_refl|].
    rewrite (invoke_cons c (S n)), (invoke_cons c n).
    apply below_bind; [|intros; apply II].
    destruct k; try apply below_refl; [apply IN|].
    unfold rerun_with.
    repeat (apply below_bind; [apply below_refl | intros]). apply IN.
Qed.


(** ** Reading the closed forms *)

Lemma managed_app t t' : managed (t ++ t') = managed t ++ managed t'.
Proof. induction t as [|[] t IH]; simpl; by rewrite ?IH. Qed.

Lemma finalized_app t t' : finalized (t ++ t') = finalized t ++ finalized t'.
Proof. induction t as [|[] t IH]; simpl; by rewrite ?IH. Qed.

Lemma managed_calls_of b : managed (calls_of b) = [].
Proof. induction b as [|[] b IH]; simpl; done. Qed.

Lemma finalized_calls_of b : finalized (calls_of b) = [].
Proof. induction b as [|[] b IH]; simpl; done. Qed.

Lemma managed_chain_trace ms : ∀ k, managed (chain_trace k ms) = indexed k ms.
Proof.
  induction ms as [|m ms IH]; intros k; simpl; [done|].
  by rewrite !managed_app, !managed_calls_of, IH, app_nil_r.
Qed.

Lemma finalized_chain_trace ms : ∀ k, finalized (chain_trace k ms) = [].
Proof.
  induction ms as [|m ms IH]; intros k; simpl; [done|].
  by rewrite !finalized_app, !finalized_calls_of, IH.
Qed.

Lemma managed_deferred_trace fns : managed (deferred_trace fns) = [].
Proof.
  induction fns as [|fn fns IH]; simpl; [done|].
  by rewrite managed_app, managed_calls_of.
Qed.

Lemma finalized_deferred_trace fns : finalized (deferred_trace fns) = map name fns.
Proof.
  induction fns as [|fn fns IH]; simpl; [done|].
  by rewrite finalized_app, finalized_calls_of, IH.
Qed.

Lemma advances_reentries ms :
  advances ms = (Z.of_nat (length ms) + reentries ms)%Z.
Proof. induction ms as [|m ms IH]; simpl; [done|]. rewrite IH. lia. Qed.

Lemma reentries_nonneg ms : (0 ≤ reentries ms)%Z.
Proof.
  induction ms as [|m ms IH]; simpl; [done|].
  pose proof (nexts_nonneg (body m)). lia.
Qed.

Lemma indexed_length k ms : length (indexed k ms) = length ms.
Proof. revert k. induction ms as [|m ms IH]; intros k; simpl; by rewrite ?IH. Qed.





(** ** From any store to the cursor a context holds *)

Lemma cursor_of_Some w c hs :
  cursor_of w c = Some hs →
  ∃ cx h, ctxs w !! c = Some cx ∧ ctx_handlers cx = Some h ∧
          h < length (cursors w) ∧
          w = at_cursor (nodes w) (cursors w) (ctxs w) h
                        (managers hs) (index hs) (deferred hs) (trace w).
Proof.
  unfold cursor_of. intros H.
  destruct (ctxs w !! c) as [cx|] eqn:Hc; [|done]. simpl in H.
  destruct (ctx_handlers cx) as [h|] eqn:Hh; [|done]. simpl in H.
  exists cx, h. repeat split; try done.
  - by apply lookup_lt_Some in H.
  - destruct w, hs. unfold at_cursor. simpl in *. by rewrite list_insert_id.
Qed.

Lemma cursor_of_at nd cs xs c cx h ms i ds tr :
  xs !! c = Some cx → ctx_handlers cx = Some h → h < length cs →
  cursor_of (at_cursor nd cs xs h ms i ds tr) c = Some (Handlers i ms ds).
Proof.
  intros Hc Hh Hlen. unfold cursor_of, at_cursor. simpl.
  rewrite Hc. simpl. rewrite Hh. simpl. by apply list_lookup_insert_eq.
Qed.

(** [started ms] is the store [NewCtx] and [reset] leave. *)
Lemma started_is_reset ms :
  (c <- NewCtx None None None ;; reset c None None ms ;; ret c) (World [] [] [] [])
  = Ok 0 (started ms).
Proof. reflexivity. Qed.

(** ** [Next] from the sentinel

    [Next] reads the length of the chain as an [int8]: it reaches the
    handlers below that, and runs them if the index stays within [int8]. *)

Lemma Next_from_sentinel w c ms ds :
  cursor_of w c = Some (Handlers (-1) ms ds) →
  forallb (λ m, no_rerun (body m)) (reach ms) = true →
  (advances (reach ms) ≤ 127)%Z →
  ∃ w', settles (λ fuel, Next fuel c) w (Ok tt w') ∧
        trace w' = trace w ++ chain_trace 0 (reach ms) ∧
        cursor_of w' c =
          Some (Handlers (advances (reach ms)) ms (ds ++ chain_pushes (reach ms))) ∧
        nodes w' = nodes w ∧ ctxs w' = ctxs w.
Proof.
  intros Hw Hr Hb.
  destruct (cursor_of_Some _ _ _ Hw) as (cx & h & Hc & Hh & Hlen & ->).
  simpl in *.
  exists (at_cursor (nodes w) (cursors w) (ctxs w) h ms (advances (reach ms))
            (ds ++ chain_pushes (reach ms)) (trace w ++ chain_trace 0 (reach ms))).
  split; [|by rewrite (cursor_of_at _ _ _ c cx)].
  destruct (Z.le_gt_cases 0 (int8 (Z.of_nat (length ms)))) as [Hs|Hs].
  - by apply (Next_live _ _ _ c cx h Hc Hh Hlen ms (reach ms) _ eq_refl Hs eq_refl).
  - exists 2. intros fuel Hf.
    unfold reach. rewrite Z2Nat.nonpos by lia. simpl.
    rewrite !app_nil_r.
    apply (Next_exhausted _ _ _ c cx h Hc Hh Hlen ms _ eq_refl); lia.
Qed.

Lemma reach_small ms : length ms ≤ 127 → reach ms = ms.
Proof.
  intros H. unfold reach. rewrite int8_small by lia.
  rewrite Nat2Z.id. by apply take_ge.
Qed.

Lemma Next_fuel c n w : below (Next n c w) (Next (S n) c w).
Proof. apply engine_fuel. Qed.

Lemma invoke_fuel c b n w : below (invoke n c b w) (invoke (S n) c b w).
Proof. apply engine_fuel. Qed.

Lemma rerun_fuel c ms n w : below (rerun n c ms w) (rerun (S n) c ms w).
Proof.
  unfold rerun, rerun_with.
  repeat (apply below_bind; [apply below_refl | intros]). apply Next_fuel.
Qed.

Lemma run_deferred_fuel c fns : ∀ n w,
  below (run_deferred n c fns w) (run_deferred (S n) c fns w).
Proof.
  induction fns as [|fn fns IH]; intros n w; [apply below_refl|].
  simpl. apply below_bind; [apply below_refl | intros].
  apply below_bind; [apply invoke_fuel | intros]. apply IH.
Qed.

Lemma Run_fuel c n w : below (Run n c w) (Run (S n) c w).
Proof.
  unfold Run. apply below_bind; [apply below_refl | intros].
  apply below_bind; [apply Next_fuel | intros].
  apply below_bind; [apply below_refl | intros]. apply run_deferred_fuel.
Qed.

(** ** The run loop: [Next] *)

(** C4 (amended).  For a chain of N handlers that call [Next], [push] and
    extensions, bound to a cursor at the sentinel -1, with N plus the number
    of [c.Next()] calls the handlers make at most 127: [Next] returns, and
    the handlers it invoked are exactly those at the indices 0..N-1, each
    once, in index order.  A handler that returns without calling [Next]
    does not end the run, the loop goes on to the next index; the run ends
    normally when the index has passed the last position. *)
Theorem Next_invokes_chain_in_order w c ms ds :
  cursor_of w c = Some (Handlers (-1) ms ds) →
  forallb (λ m, no_rerun (body m)) ms = true →
  (Z.of_nat (length ms) + reentries ms ≤ 127)%Z →
  invokes_whole_chain w c ms.
Proof.
  intros Hw Hr Hb. pose proof (reentries_nonneg ms).
  assert (reach ms = ms) as E by (apply reach_small; lia).
  destruct (Next_from_sentinel w c ms ds Hw) as (w' & Hs & Ht & _);
    rewrite ?E, ?advances_reentries; try done.
  exists w'. split; [done|].
  exists (chain_trace 0 ms). rewrite E in Ht.
  by rewrite managed_chain_trace.
Qed.

Lemma Next_invokes_chain_in_order_witness :
  invokes_whole_chain (started demo_chain) 0 demo_chain.
Proof.
  apply (Next_invokes_chain_in_order (started demo_chain) 0 demo_chain []).
  - reflexivity.
  - reflexivity.
  - by vm_compute.
Defined.

(** C4 as stated fails: bound to 128 handlers, [Next] invokes none. *)
Lemma Next_skips_chain_of_128 :
  let ms := repeat (MkManage "h" []) 128 in
  (∃ w', settles (λ fuel, Next fuel 0) (started ms) (Ok tt w') ∧ trace w' = []) ∧
  ¬ invokes_whole_chain (started ms) 0 ms.
Proof.
  intros ms.
  destruct (Next_from_sentinel (started ms) 0 ms []) as (w' & Hs & Ht & _);
    [done..|].
  change (reach ms) with (@nil Manage) in Ht. simpl in Ht.
  split; [by exists w'|].
  intros (w'' & Hs' & t & Ht' & Hm).
  pose proof (settles_unique _ _ _ _ Hs Hs') as [= <-].
  rewrite Ht in Ht'. simpl in Ht'. subst t. done.
Qed.

(** ** Finalizers: [Run] *)

Lemma run_deferred_quiet nd cs xs c cx h fns :
  xs !! c = Some cx → ctx_handlers cx = Some h → h < length cs →
  forallb quiet fns = true →
  ∀ ms i ds tr,
    ∃ ds', settles (λ fuel, run_deferred fuel c fns)
             (at_cursor nd cs xs h ms i ds tr)
             (Ok tt (at_cursor nd cs xs h ms i ds' (tr ++ deferred_trace fns))).
Proof.
  intros Hc Hh Hlen.
  induction fns as [|fn fns IH]; intros Hq ms i ds tr.
  - exists ds, 0. intros fuel _. simpl. by rewrite app_nil_r.
  - simpl in Hq. apply andb_prop in Hq as [Hfn Hq].
    unfold quiet in Hfn. apply andb_prop in Hfn as [Hn Hr].
    apply negb_true_iff in Hn.
    destruct (IH Hq ms i (ds ++ pushes_of (body fn))
                ((tr ++ [EvDeferred (name fn)]) ++ calls_of (body fn)))
      as (ds' & n & Hrun).
    exists ds', (n + S (length (body fn))). intros fuel Hf. simpl.
    rewrite (bind_ok _ _ _ _ _ (emit_at nd cs xs h _ _ _ _ _)).
    rewrite (bind_ok _ _ _ _ _
               (invoke_quiet nd cs xs c cx h Hc Hh Hlen (body fn) fuel _ _ _ _
                             Hn Hr ltac:(lia))).
    rewrite Hrun by lia. by rewrite <- !app_assoc.
Qed.

(** C5 (amended).  For a request context at the sentinel whose handlers call
    [Next], [push] and extensions, with the chain length plus the number of
    [c.Next()] calls at most 127, and whose finalizers only call extensions
    or [push]: [Run] appends the release finalizer before it advances the
    chain, and when [Next] has returned it runs every finalizer registered
    by then (those already there, the release finalizer, those the handlers
    pushed), each once, in append order, after the last handler; also when
    the first handler returns without calling [Next]. *)
Theorem Run_finalizes_after_chain w c ms ds :
  cursor_of w c = Some (Handlers (-1) ms ds) →
  forallb (λ m, no_rerun (body m)) ms = true →
  (Z.of_nat (length ms) + reentries ms ≤ 127)%Z →
  forallb quiet (ds ++ chain_pushes ms) = true →
  finalizes_after_chain w c ms ds.
Proof.
  intros Hw Hr Hb Hq. pose proof (reentries_nonneg ms).
  assert (reach ms = ms) as E by (apply reach_small; lia).
  destruct (cursor_of_Some _ _ _ Hw) as (cx & h & Hc & Hh & Hlen & Ew).
  simpl in Ew.
  set (w1 := at_cursor (nodes w) (cursors w) (ctxs w) h ms (-1)
                       (ds ++ [release]) (trace w)).
  assert (push c release w = Ok tt w1) as Hpush.
  { rewrite Ew at 1. by apply (push_at _ _ _ c cx). }
  destruct (Next_from_sentinel w1 c ms (ds ++ [release])) as
    (w2 & [n2 Hnext] & Ht2 & Hw2 & _);
    rewrite ?E, ?advances_reentries; try done.
  { by apply (cursor_of_at _ _ _ c cx). }
  rewrite E in Ht2, Hw2.
  destruct (cursor_of_Some _ _ _ Hw2) as (cx2 & h2 & Hc2 & Hh2 & Hlen2 & Ew2).
  simpl in Ew2.
  assert (forallb quiet ((ds ++ [release]) ++ chain_pushes ms) = true) as Hq'.
  { rewrite !forallb_app in *. apply andb_prop in Hq as [-> ->]. done. }
  destruct (run_deferred_quiet (nodes w2) (cursors w2) (ctxs w2) c cx2 h2
              ((ds ++ [release]) ++ chain_pushes ms) Hc2 Hh2 Hlen2 Hq'
              ms (advances ms) ((ds ++ [release]) ++ chain_pushes ms) (trace w2))
    as (ds' & n3 & Hfin).
  eexists. split.
  - exists (n2 `max` n3). intros fuel Hf. unfold Run.
    rewrite (bind_ok _ _ _ _ _ Hpush).
    rewrite (bind_ok _ _ _ _ _ (Hnext fuel ltac:(lia))).
    rewrite Ew2 at 1.
    rewrite (bind_ok _ _ _ _ _ (read_at _ _ _ c cx2 h2 Hc2 Hh2 Hlen2 _ _ _ _ _)).
    simpl. apply Hfin. lia.
  - exists (chain_trace 0 ms), (deferred_trace ((ds ++ [release]) ++ chain_pushes ms)).
    simpl. rewrite Ht2. simpl.
    rewrite managed_chain_trace, finalized_chain_trace,
      managed_deferred_trace, finalized_deferred_trace, <- !app_assoc.
    done.
Qed.

Lemma Run_finalizes_after_chain_witness :
  finalizes_after_chain (started demo_chain) 0 demo_chain [].
Proof.
  apply (Run_finalizes_after_chain (started demo_chain) 0 demo_chain []).
  - reflexivity.
  - reflexivity.
  - by vm_compute.
  - reflexivity.
Defined.

(** C5 as stated fails: with 64 handlers that each wrap the rest of the
    chain in a [c.Next()], the index passes 127 while the calls return, the
    loop reads [c.managers[-128]], and [Run] panics before any finalizer,
    the release finalizer included, has run. *)
Lemma Run_of_64_wrapping_handlers_never_finalizes :
  let ms := repeat (MkManage "wrap" [CallNext]) 64 in
  (∃ w', settles (λ fuel, Run fuel 0) (started ms) (Panic index_out_of_range w') ∧
         cursor_of w' 0 = Some (Handlers (-128) ms [release]) ∧
         length (managed (trace w')) = 64 ∧ finalized (trace w') = []) ∧
  (∀ ds, ¬ finalizes_after_chain (started ms) 0 ms ds).
Proof.
  intros ms.
  assert (∃ w', settles (λ fuel, Run fuel 0) (started ms)
                  (Panic index_out_of_range w') ∧
                cursor_of w' 0 = Some (Handlers (-128) ms [release]) ∧
                length (managed (trace w')) = 64 ∧ finalized (trace w') = [])
    as (w' & Hs & Hrest).
  { eexists. split.
    - apply (settles_at _ 400); [apply Run_fuel | vm_compute; reflexivity | done].
    - by vm_compute. }
  split; [by exists w'|].
  intros ds (w'' & Hs' & _).
  by pose proof (settles_unique _ _ _ _ Hs Hs').
Qed.

(** ** Restart: [rerun] *)

(** C8 (amended).  For a request context anywhere in its chain and a new
    chain whose handlers call [Next], [push] and extensions, with its length
    plus the number of [c.Next()] calls at most 127: [rerun] rewinds the
    index to the sentinel -1, binds the new chain and advances, and the
    handlers it invokes are exactly those of the new chain, each once, in
    index order.  When the loop over the old chain is taken up again it
    invokes nothing: it stops, or it panics reading the new chain out of
    range. *)
Theorem rerun_restarts_on_new_chain w c old i ds ms :
  cursor_of w c = Some (Handlers i old ds) →
  forallb (λ m, no_rerun (body m)) ms = true →
  (Z.of_nat (length ms) + reentries ms ≤ 127)%Z →
  (∃ w0, cursor_of w0 c = Some (Handlers (-1) ms ds) ∧ trace w0 = trace w ∧
         ∀ fuel, rerun fuel c ms w = Next fuel c w0) ∧
  restarts_on_chain w c ms ∧
  ∃ w', settles (λ fuel, rerun fuel c ms) w (Ok tt w') ∧
        cursor_of w' c =
          Some (Handlers (Z.of_nat (length ms) + reentries ms) ms
                         (ds ++ chain_pushes ms)) ∧
        ∀ s fuel, 0 < fuel →
          ∃ w'', (resume fuel c s w' = Ok tt w'' ∨
                  resume fuel c s w' = Panic index_out_of_range w'') ∧
                 trace w'' = trace w'.
Proof.
  intros Hw Hr Hb. pose proof (reentries_nonneg ms).
  assert (reach ms = ms) as E by (apply reach_small; lia).
  destruct (cursor_of_Some _ _ _ Hw) as (cx & h & Hc & Hh & Hlen & Ew).
  simpl in Ew.
  set (w0 := at_cursor (nodes w) (cursors w) (ctxs w) h ms (-1) ds (trace w)).
  assert (cursor_of w0 c = Some (Handlers (-1) ms ds)) as Hw0
    by (by apply (cursor_of_at _ _ _ c cx)).
  assert (∀ fuel, rerun fuel c ms w = Next fuel c w0) as Hre.
  { intros fuel. rewrite Ew at 1. by apply (rerun_at _ _ _ c cx). }
  destruct (Next_from_sentinel w0 c ms ds Hw0) as (w' & [n Hn] & Ht & Hw' & _);
    rewrite ?E, ?advances_reentries; try done.
  rewrite E, ?advances_reentries in *.
  assert (settles (λ fuel, rerun fuel c ms) w (Ok tt w')) as Hs.
  { exists n. intros fuel Hf. rewrite Hre. by apply Hn. }
  split; [by exists w0|]. split.
  { exists w'. split; [done|]. exists (chain_trace 0 ms).
    by rewrite managed_chain_trace. }
  exists w'. repeat split; try done.
  intros s fuel Hf.
  destruct (cursor_of_Some _ _ _ Hw') as (cx' & h' & Hc' & Hh' & Hlen' & Ew').
  simpl in Ew'.
  pose proof (resume_past_chain (nodes w') (cursors w') (ctxs w') c cx' h'
                Hc' Hh' Hlen' fuel s ms (Z.of_nat (length ms) + reentries ms)
                (ds ++ chain_pushes ms) (trace w') ltac:(lia) Hf) as Hres.
  rewrite <- Ew' in Hres. rewrite Hres.
  destruct (_ <? s)%Z; eexists; (split; [by (left + right)|]); done.
Qed.

Lemma rerun_restarts_on_new_chain_witness :
  restarts_on_chain
    (midway [MkManage "a" []; MkManage "r" []; MkManage "z" []] 1
            [EvManage 0 "a"; EvManage 1 "r"]) 0 demo_chain.
Proof.
  apply (rerun_restarts_on_new_chain
           (midway [MkManage "a" []; MkManage "r" []; MkManage "z" []] 1
                   [EvManage 0 "a"; EvManage 1 "r"]) 0
           [MkManage "a" []; MkManage "r" []; MkManage "z" []] 1 [] demo_chain).
  - reflexivity.
  - reflexivity.
  - by vm_compute.
Defined.

(** C8 as stated fails: restarted on a new chain of 128 handlers in the
    middle of a chain of three, [rerun] invokes no handler of the new
    chain. *)
Lemma rerun_skips_chain_of_128 :
  let w := midway [MkManage "a" []; MkManage "r" []; MkManage "z" []] 1
                  [EvManage 0 "a"; EvManage 1 "r"] in
  let ms := repeat (MkManage "h" []) 128 in
  (∃ w', settles (λ fuel, rerun fuel 0 ms) w (Ok tt w') ∧ trace w' = trace w) ∧
  ¬ restarts_on_chain w 0 ms.
Proof.
  intros w ms.
  assert (∃ w', settles (λ fuel, rerun fuel 0 ms) w (Ok tt w') ∧
                trace w' = trace w) as (w' & Hs & Ht).
  { eexists. split.
    - apply (settles_at _ 3); [apply rerun_fuel | vm_compute; reflexivity | done].
    - reflexivity. }
  split; [by exists w'|].
  intros (w'' & Hs' & t & Ht' & Hm).
  pose proof (settles_unique _ _ _ _ Hs Hs') as [= <-].
  rewrite Ht in Ht'.
  apply (f_equal length) in Ht'. rewrite length_app in Ht'.
  apply (f_equal length) in Hm. rewrite indexed_length in Hm.
  destruct t; [|simpl in Ht'; lia]. done.
Qed.

(** ** The length read as an [int8] *)




(** C10 as stated fails within the bound too.  The specified run
    short-circuits at a handler that does not advance; the loop of the code
    goes on: on a logging middleware that wraps the rest, a handler that
    rejects and does not advance, and a third handler, [Next] returns and
    has invoked all three, where the specified run stops after the second. *)
Lemma Next_runs_on_after_a_handler_that_stops :
  let ms := [MkManage "logMiddleware" [CallExt "begin"; CallNext; CallExt "end"];
             MkManage "authReject" [CallExt "status"];
             MkManage "page" [CallExt "serveplain"]] in
  (length ms ≤ 127 ∧ (Z.of_nat (length ms) + reentries ms ≤ 127)%Z) ∧
  (∃ w' t, settles (λ fuel, Next fuel 0) (started ms) (Ok tt w') ∧
           trace w' = trace (started ms) ++ t ∧
           managed t = [(0%Z, "logMiddleware"); (1%Z, "authReject"); (2%Z, "page")] ∧
           t ≠ advanceAll_trace ms) ∧
  managed (advanceAll_trace ms) = [(0%Z, "logMiddleware"); (1%Z, "authReject")].
Proof.
  intros ms. split; [split; [vm_compute; lia | by vm_compute]|].
  split; [|reflexivity].
  do 2 eexists. split; [|split; [|split]].
  - apply (settles_at _ 10); [apply Next_fuel | vm_compute; reflexivity | done].
  - reflexivity.
  - reflexivity.
  - intros E. vm_compute in E. discriminate E.
Qed.

(** ** One node in the heap *)

Section Node.

Variables (c : nodeid) (h : heap).
Hypothesis Hlen : c < length h.

Lemma load_at n : load c (<[c := n]> h) = Ok n (<[c := n]> h).
Proof. unfold load. by rewrite list_lookup_insert_eq. Qed.

Lemma update_at f n : update c f (<[c := n]> h) = Ok tt (<[c := f n]> h).
Proof.
  unfold update. rewrite (bind_ok _ _ _ _ _ (load_at n)).
  unfold modify. by rewrite list_insert_insert_eq.
Qed.

Lemma Lock_ok n :
  mu n = false → Lock c (<[c := n]> h) = Ok tt (<[c := set_mu true n]> h).
Proof.
  intros Hmu. unfold Lock. rewrite (bind_ok _ _ _ _ _ (load_at n)), Hmu.
  apply update_at.
Qed.

Lemma Lock_held n : mu n = true → Lock c (<[c := n]> h) = Deadlock (<[c := n]> h).
Proof.
  intros Hmu. unfold Lock. by rewrite (bind_ok _ _ _ _ _ (load_at n)), Hmu.
Qed.

Lemma Unlock_ok n :
  mu n = true → Unlock c (<[c := n]> h) = Ok tt (<[c := set_mu false n]> h).
Proof.
  intros Hmu. unfold Unlock. rewrite (bind_ok _ _ _ _ _ (load_at n)), Hmu.
  apply update_at.
Qed.

Lemma close_ok n :
  done n = ChanOpen → close c (<[c := n]> h) = Ok tt (<[c := set_done ChanClosed n]> h).
Proof.
  intros Hd. unfold close. rewrite (bind_ok _ _ _ _ _ (load_at n)), Hd.
  apply update_at.
Qed.

Lemma close_closed n :
  done n = ChanClosed → close c (<[c := n]> h) = Panic close_of_closed (<[c := n]> h).
Proof.
  intros Hd. unfold close. by rewrite (bind_ok _ _ _ _ _ (load_at n)), Hd.
Qed.

End Node.

Lemma heap_at (h : heap) c n : h !! c = Some n → c < length h ∧ h = <[c := n]> h.
Proof.
  intros H. split; [by apply lookup_lt_Some in H | by rewrite list_insert_id].
Qed.

(** One step of a call at a known node. *)
Ltac hstep Hlen :=
  erewrite bind_ok;
  [| first [ apply (load_at _ _ Hlen)
           | apply (update_at _ _ Hlen)
           | apply (Lock_ok _ _ Hlen); done
           | apply (close_ok _ _ Hlen); done
           | apply (Unlock_ok _ _ Hlen); done ] ].

Section CancellationFacts.

Variable range_order : gset nodeid → list nodeid.

Lemma cancel_S fuel c rm e h :
  cancel range_order (S fuel) c rm (Some e) h =
  (Lock c ;;
   update c (set_err (Some e)) ;;
   close c ;;
   n <- load c ;;
   for_each (range_order (default ∅ (children n)))
            (λ child, cancel range_order fuel child false (Some e)) ;;
   update c (set_children None) ;;
   Unlock c ;;
   if rm then
     n <- load c ;;
     match children n with
     | Some s => update c (set_children (Some (s ∖ {[c]})))
     | None => ret tt
     end
   else ret tt) h.
Proof. done. Qed.

(** Cancelling a node whose [done] is closed already: the error is
    overwritten, then [close] panics, with the mutex held. *)
Lemma cancel_closed_panics fuel c rm e (h : heap) n :
  h !! c = Some n → mu n = false → done n = ChanClosed →
  cancel range_order (S fuel) c rm (Some e) h =
  Panic close_of_closed (<[c := set_err (Some e) (set_mu true n)]> h).
Proof.
  intros Hc Hmu Hd. destruct (heap_at _ _ _ Hc) as [Hlen E].
  rewrite E at 1. rewrite cancel_S. do 2 hstep Hlen.
  apply bind_panic.
  by apply (close_closed _ _ Hlen (set_err (Some e) (set_mu true n))).
Qed.

(** The range order visits the keys of the map, each once. *)
Hypothesis range_order_elements : ∀ s, range_order s ≡ₚ elements s.

Lemma range_order_empty : range_order ∅ = [].
Proof.
  apply Permutation_nil_r. by rewrite range_order_elements, elements_empty.
Qed.

(** Cancelling a node that is open and has no child. *)
Lemma cancel_leaf fuel c rm e (h : heap) n :
  h !! c = Some n → mu n = false → done n = ChanOpen →
  default ∅ (children n) = ∅ →
  cancel range_order (S fuel) c rm (Some e) h =
  Ok tt (<[c := Context (parent n) false None ChanClosed (Some e) (value n)]> h).
Proof.
  intros Hc Hmu Hd Hk. destruct (heap_at _ _ _ Hc) as [Hlen E].
  rewrite E at 1. rewrite cancel_S. do 4 hstep Hlen.
  simpl. rewrite Hk, range_order_empty.
  rewrite (bind_ok (for_each [] _) _ _ tt _ eq_refl).
  do 2 hstep Hlen.
  destruct rm; [|done].
  by hstep Hlen.
Qed.

(** A range over children that are all open and have no child cancels each
    of them, and nothing else. *)
Lemma for_each_cancel_leaves fuel e l : ∀ h : heap,
  NoDup l →
  (∀ k, k ∈ l → ∃ nk, h !! k = Some nk ∧ mu nk = false ∧ done nk = ChanOpen ∧
                      default ∅ (children nk) = ∅) →
  ∃ h' : heap,
    for_each l (λ child, cancel range_order (S fuel) child false (Some e)) h = Ok tt h' ∧
    (∀ k nk, k ∈ l → h !! k = Some nk →
       h' !! k = Some (Context (parent nk) false None ChanClosed (Some e) (value nk))) ∧
    (∀ k, k ∉ l → h' !! k = h !! k).
Proof.
  induction l as [|k l IH]; intros h Hnd Hl.
  - exists h. split; [done|]. split; [|done]. intros k nk Hk. by apply elem_of_nil in Hk.
  - apply NoDup_cons in Hnd as [Hk Hnd].
    destruct (Hl k) as (nk & Hhk & Hmu & Hd & Hkids); [by left|].
    assert (k < length h) as Hlen by (by apply lookup_lt_Some in Hhk).
    destruct (IH (<[k := Context (parent nk) false None ChanClosed (Some e) (value nk)]> h)
                Hnd) as (h' & Hrun & Hin & Hout).
    { intros k' Hk'. rewrite list_lookup_insert_ne by (by intros ->).
      apply Hl. by right. }
    exists h'. split; [|split].
    + cbn [for_each]. erewrite bind_ok; [apply Hrun | by apply cancel_leaf].
    + intros k' nk' Hk' Hhk'. apply elem_of_cons in Hk' as [->|Hk'].
      * rewrite Hout by done. rewrite list_lookup_insert_eq by done. congruence.
      * apply Hin; [done|]. by rewrite list_lookup_insert_ne by (by intros ->).
    + intros k' Hk'. apply not_elem_of_cons in Hk' as [Hne Hk'].
      rewrite Hout by done. by rewrite list_lookup_insert_ne.
Qed.

(** Cancelling a parent whose registered children are all open and have no
    child: the parent and every child get the error and a closed [done],
    the parent's child set is cleared, nothing else changes. *)
Lemma cancel_marks_open_children fuel p rm e (h : heap) np s :
  h !! p = Some np → mu np = false → done np = ChanOpen →
  children np = Some s → p ∉ s →
  (∀ k, k ∈ s → ∃ nk, h !! k = Some nk ∧ mu nk = false ∧ done nk = ChanOpen ∧
                      default ∅ (children nk) = ∅) →
  ∃ h' : heap,
    cancel range_order (S (S fuel)) p rm (Some e) h = Ok tt h' ∧
    h' !! p = Some (Context (parent np) false None ChanClosed (Some e) (value np)) ∧
    (∀ k nk, k ∈ s → h !! k = Some nk →
       h' !! k = Some (Context (parent nk) false None ChanClosed (Some e) (value nk))) ∧
    (∀ k, k ≠ p → k ∉ s → h' !! k = h !! k).
Proof.
  intros Hp Hmu Hd Hs Hps Hkids.
  destruct (heap_at _ _ _ Hp) as [Hlen E].
  assert (∀ k, k ∈ range_order s ↔ k ∈ s) as Hmem.
  { intros k. by rewrite range_order_elements, elem_of_elements. }
  set (np2 := set_done ChanClosed (set_err (Some e) (set_mu true np))).
  destruct (for_each_cancel_leaves fuel e (range_order s) (<[p := np2]> h))
    as (h3 & Hrun & Hin & Hout).
  { rewrite range_order_elements. apply NoDup_elements. }
  { intros k Hk. apply Hmem in Hk.
    rewrite list_lookup_insert_ne by (by intros ->). by apply Hkids. }
  assert (h3 !! p = Some np2) as Hp3.
  { rewrite Hout by (by rewrite Hmem). by apply list_lookup_insert_eq. }
  destruct (heap_at _ _ _ Hp3) as [Hlen3 E3].
  exists (<[p := Context (parent np) false None ChanClosed (Some e) (value np)]> h3).
  split; [|split; [|split]].
  - rewrite E at 1. rewrite cancel_S. do 4 hstep Hlen.
    cbn [children set_done set_err set_mu]. rewrite Hs. cbn [default id].
    rewrite (bind_ok _ _ _ _ _ Hrun). rewrite E3 at 1.
    do 2 hstep Hlen3.
    destruct rm; [|done]. by hstep Hlen3.
  - by apply list_lookup_insert_eq.
  - intros k nk Hk Hhk. rewrite list_lookup_insert_ne by (by intros ->).
    apply Hin; [by apply Hmem|]. by rewrite list_lookup_insert_ne by (by intros ->).
  - intros k Hkp Hks. rewrite list_lookup_insert_ne by done.
    rewrite Hout by (by rewrite Hmem). by rewrite list_lookup_insert_ne.
Qed.

End CancellationFacts.

(** ** Cancelling twice *)

(** C1 (the code departs from it).  What the code does when [cancel] is
    called twice on a node that is open and has no child: the first call
    sets the error and closes [done]; the second call overwrites the error
    with its own and then panics on closing [done] again, with the mutex
    still held. *)
Theorem cancel_twice_panics range_order (h : heap) c n e1 e2 rm1 rm2 fuel1 fuel2 :
  (∀ s, range_order s ≡ₚ elements s) →
  h !! c = Some n → mu n = false → done n = ChanOpen →
  default ∅ (children n) = ∅ →
  cancel range_order (S fuel1) c rm1 (Some e1) h =
    Ok tt (<[c := Context (parent n) false None ChanClosed (Some e1) (value n)]> h) ∧
  cancel range_order (S fuel2) c rm2 (Some e2)
         (<[c := Context (parent n) false None ChanClosed (Some e1) (value n)]> h) =
    Panic close_of_closed
          (<[c := Context (parent n) true None ChanClosed (Some e2) (value n)]> h).
Proof.
  intros Hro Hc Hmu Hd Hk. split; [by apply cancel_leaf|].
  assert (c < length h) as Hlen by (by apply lookup_lt_Some in Hc).
  erewrite cancel_closed_panics; [| by apply list_lookup_insert_eq | done..].
  by rewrite list_insert_insert_eq.
Qed.

Lemma cancel_twice_panics_witness :
  cancel elements 1 0 false (Some Canceled)
         [Context None false None ChanOpen None (Some 0)] =
    Ok tt [Context None false None ChanClosed (Some Canceled) (Some 0)] ∧
  cancel elements 1 0 false (Some (OtherError "late"))
         [Context None false None ChanClosed (Some Canceled) (Some 0)] =
    Panic close_of_closed
          [Context None true None ChanClosed (Some (OtherError "late")) (Some 0)].
Proof.
  apply (cancel_twice_panics elements
           [Context None false None ChanOpen None (Some 0)] 0
           (Context None false None ChanOpen None (Some 0))
           Canceled (OtherError "late") false false 0 0).
  - reflexivity.
  - reflexivity.
  - reflexivity.
  - reflexivity.
  - reflexivity.
Defined.

(** ** Detaching from the parent *)

(** C2 (the code departs from it).  What the code does when a node that is
    open, has no child and is registered with its parent is cancelled with
    [removeFromParent] true: the node's error is set, its [done] closed and
    its child set cleared, and the parent is left as it was, the node still
    in its child set.  The [delete] in [cancel] acts on the node's own
    child set, which the line before made nil. *)
Theorem cancel_leaves_node_in_parent range_order (h : heap) p c np nc s e fuel :
  (∀ s, range_order s ≡ₚ elements s) →
  h !! p = Some np → children np = Some s → c ∈ s → p ≠ c →
  h !! c = Some nc → parent nc = Some p →
  mu nc = false → done nc = ChanOpen → default ∅ (children nc) = ∅ →
  ∃ h', cancel range_order (S fuel) c true (Some e) h = Ok tt h' ∧
        h' !! c = Some (Context (Some p) false None ChanClosed (Some e) (value nc)) ∧
        h' !! p = Some np ∧ c ∈ default ∅ (children np).
Proof.
  intros Hro Hp Hs Hin Hne Hc Hpar Hmu Hd Hk.
  eexists. split; [by apply cancel_leaf|].
  assert (c < length h) as Hlen by (by apply lookup_lt_Some in Hc).
  rewrite list_lookup_insert_eq, list_lookup_insert_ne, Hpar, Hs by done.
  done.
Qed.

Lemma cancel_leaves_node_in_parent_witness :
  ∃ h', cancel elements 1 1 true (Some Canceled)
          [Context None false (Some {[1]}) ChanOpen None (Some 0);
           Context (Some 0) false None ChanOpen None (Some 0)] = Ok tt h' ∧
        h' !! 1 = Some (Context (Some 0) false None ChanClosed (Some Canceled) (Some 0)) ∧
        h' !! 0 = Some (Context None false (Some {[1]}) ChanOpen None (Some 0)) ∧
        1 ∈ default (∅ : gset nodeid) (Some {[1]}).
Proof.
  apply (cancel_leaves_node_in_parent elements
           [Context None false (Some {[1]}) ChanOpen None (Some 0);
            Context (Some 0) false None ChanOpen None (Some 0)]
           0 1 (Context None false (Some {[1]}) ChanOpen None (Some 0))
           (Context (Some 0) false None ChanOpen None (Some 0)) {[1]} Canceled 0).
  - reflexivity.
  - reflexivity.
  - reflexivity.
  - by apply elem_of_singleton.
  - lia.
  - reflexivity.
  - reflexivity.
  - reflexivity.
  - reflexivity.
  - reflexivity.
Defined.

(** ** Parent and replica *)

(** C6 (the code departs from it).  What the code does when a parent is
    cancelled and the range over its child set comes first to a child
    whose [done] is closed already (a replica that cancelled itself stays
    registered, see C2): the parent's error is set and its [done] closed,
    the child's error is overwritten, and the call panics there; every
    other node, the children not yet visited among them, is left as it
    was. *)
Theorem cancel_parent_stops_at_cancelled_child range_order (h : heap) p c np nc s rest
    e rm fuel :
  h !! p = Some np → mu np = false → done np = ChanOpen →
  children np = Some s → range_order s = c :: rest → p ≠ c →
  h !! c = Some nc → mu nc = false → done nc = ChanClosed →
  ∃ h', cancel range_order (S (S fuel)) p rm (Some e) h = Panic close_of_closed h' ∧
        h' !! p = Some (Context (parent np) true (Some s) ChanClosed (Some e) (value np)) ∧
        h' !! c = Some (Context (parent nc) true (children nc) ChanClosed (Some e) (value nc)) ∧
        ∀ r, r ≠ p → r ≠ c → h' !! r = h !! r.
Proof.
  intros Hp Hmu Hd Hs Hro Hne Hc Hmuc Hdc.
  destruct (heap_at _ _ _ Hp) as [Hlen E].
  assert (c < length h) as Hlenc by (by apply lookup_lt_Some in Hc).
  eexists. split.
  - rewrite E at 1. rewrite cancel_S. do 4 hstep Hlen.
    cbn [children set_done set_err set_mu]. rewrite Hs.
    cbn [default id]. rewrite Hro. cbn [for_each].
    apply bind_panic, bind_panic.
    apply cancel_closed_panics; [|done..].
    by rewrite list_lookup_insert_ne.
  - rewrite list_lookup_insert_eq by (by rewrite length_insert).
    rewrite list_lookup_insert_ne, list_lookup_insert_eq by done.
    split; [|split].
    + unfold set_done, set_err, set_mu. simpl. by rewrite Hs.
    + unfold set_err, set_mu. simpl. by rewrite Hdc.
    + intros r Hr Hr'. by rewrite !list_lookup_insert_ne.
Qed.

Lemma cancel_parent_stops_at_cancelled_child_witness :
  ∃ h', cancel elements 2 0 true (Some Canceled)
          [Context None false (Some {[1; 2]}) ChanOpen None (Some 0);
           Context (Some 0) false None ChanOpen None (Some 0);
           Context (Some 0) false None ChanClosed (Some Canceled) (Some 0)]
        = Panic close_of_closed h' ∧
        h' !! 0 = Some (Context None true (Some {[1; 2]}) ChanClosed (Some Canceled) (Some 0)) ∧
        h' !! 2 = Some (Context (Some 0) true None ChanClosed (Some Canceled) (Some 0)) ∧
        ∀ r, r ≠ 0 → r ≠ 2 →
          h' !! r = [Context None false (Some {[1; 2]}) ChanOpen None (Some 0);
                     Context (Some 0) false None ChanOpen None (Some 0);
                     Context (Some 0) false None ChanClosed (Some Canceled) (Some 0)] !! r.
Proof.
  apply (cancel_parent_stops_at_cancelled_child elements
           [Context None false (Some {[1; 2]}) ChanOpen None (Some 0);
            Context (Some 0) false None ChanOpen None (Some 0);
            Context (Some 0) false None ChanClosed (Some Canceled) (Some 0)]
           0 2 (Context None false (Some {[1; 2]}) ChanOpen None (Some 0))
           (Context (Some 0) false None ChanClosed (Some Canceled) (Some 0))
           {[1; 2]} [1] Canceled true 0).
  - reflexivity.
  - reflexivity.
  - reflexivity.
  - reflexivity.
  - by vm_compute.
  - lia.
  - reflexivity.
  - reflexivity.
  - reflexivity.
Defined.

(** The heap of that example is the one the request contexts leave: a
    context is reset and replicated twice, the second replica cancels
    itself, then the context is cancelled.  The range comes to the second
    replica first, and the first replica is never told. *)
Lemma replica_self_cancel_then_parent_cancel :
  ∃ w w',
    (c <- NewCtx None None None ;;
     reset c None None [] ;;
     replicate elements 2 c ;;
     r2 <- replicate elements 2 c ;;
     Cancel elements 2 r2) (World [] [] [] []) = Ok tt w ∧
    nodes w = [Context None false (Some {[1; 2]}) ChanOpen None (Some 0);
               Context (Some 0) false None ChanOpen None (Some 0);
               Context (Some 0) false None ChanClosed (Some Canceled) (Some 0)] ∧
    Cancel elements 3 0 w = Panic close_of_closed w' ∧
    node_of w' 0 = Some (Context None true (Some {[1; 2]}) ChanClosed (Some Canceled) (Some 0)) ∧
    node_of w' 1 = Some (Context (Some 0) false None ChanOpen None (Some 0)).
Proof.
  do 2 eexists.
  split; [vm_compute; reflexivity|].
  split; [vm_compute; reflexivity|].
  split; [vm_compute; reflexivity|].
  split; vm_compute; reflexivity.
Qed.

(** ** Registering a child *)

Lemma Done_at c (h : heap) n :
  c < length h → Done c (<[c := n]> h) = Ok (done n) (<[c := n]> h).
Proof. intros Hlen. unfold Done. by hstep Hlen. Qed.

Lemma propagateCancel_at range_order fuel p child (h : heap) n :
  p < length h → done n ≠ ChanNil → mu n = false →
  propagateCancel range_order fuel p child (<[p := n]> h) =
  (match err n with
   | Some e => cancel range_order fuel child false (Some e)
   | None =>
     match children n with
     | None => update p (set_children (Some ∅))
     | Some _ => ret tt
     end ;;
     update p (λ n, set_children (Some ({[child]} ∪ default ∅ (children n))) n)
   end ;;
   Unlock p) (<[p := set_mu true n]> h).
Proof.
  intros Hlen Hd Hmu. unfold propagateCancel.
  rewrite (bind_ok _ _ _ _ _ (Done_at _ _ _ Hlen)).
  destruct (done n); [done|..]; by do 2 hstep Hlen.
Qed.

(** A new child registered on a node that is cancelled already. *)
Lemma propagateCancel_cancels_late_child range_order (h : heap) p child np nc e fuel :
  (∀ s, range_order s ≡ₚ elements s) →
  h !! p = Some np → mu np = false → done np ≠ ChanNil → err np = Some e →
  h !! child = Some nc → p ≠ child →
  mu nc = false → done nc = ChanOpen → default ∅ (children nc) = ∅ →
  propagateCancel range_order (S fuel) p child h =
  Ok tt (<[child := Context (parent nc) false None ChanClosed (Some e) (value nc)]> h).
Proof.
  intros Hro Hp Hmu Hd He Hc Hne Hmuc Hdc Hk.
  destruct (heap_at _ _ _ Hp) as [Hlen E].
  assert (child < length h) as Hlenc by (by apply lookup_lt_Some in Hc).
  rewrite E at 1.
  rewrite propagateCancel_at by done. cbn [err set_mu]. rewrite He.
  erewrite bind_ok;
    [| apply (cancel_leaf range_order Hro fuel child false e _ nc); try done;
       by rewrite list_lookup_insert_ne ].
  rewrite list_insert_insert_ne by done.
  rewrite Unlock_ok by (by rewrite ?length_insert).
  rewrite list_insert_insert_ne by done. do 2 f_equal.
  rewrite E at 2. f_equal. destruct np; simpl in *; by subst.
Qed.

(** A child registered on a node that is not cancelled. *)
Lemma propagateCancel_registers_child range_order (h : heap) p child np fuel :
  h !! p = Some np → mu np = false → done np ≠ ChanNil → err np = None →
  propagateCancel range_order fuel p child h =
  Ok tt (<[p := set_children (Some ({[child]} ∪ default ∅ (children np))) np]> h).
Proof.
  intros Hp Hmu Hd He.
  destruct (heap_at _ _ _ Hp) as [Hlen E].
  rewrite E at 1.
  rewrite propagateCancel_at by done. cbn [err set_mu]. rewrite He.
  destruct np as [pa m k d er v]. simpl in *. subst m er.
  destruct k as [s|]; cbn [children set_mu].
  - rewrite (bind_ok (ret tt ;; update p _) _ _ tt
               (<[p := Context pa true (Some ({[child]} ∪ s)) d None v]> h));
      [| by rewrite (bind_ok _ _ _ _ _ eq_refl), update_at ].
    by rewrite Unlock_ok.
  - rewrite (bind_ok (update p _ ;; update p _) _ _ tt
               (<[p := Context pa true (Some ({[child]} ∪ ∅)) d None v]> h));
      [| by hstep Hlen; rewrite update_at ].
    by rewrite Unlock_ok.
Qed.





(** ** Reuse of a request context: [reset] *)

Lemma load_ctx_ok w c cx : ctxs w !! c = Some cx → load_ctx c w = Ok cx w.
Proof. unfold load_ctx. by intros ->. Qed.

Lemma update_ctx_ok w c cx f :
  ctxs w !! c = Some cx →
  update_ctx c f w = Ok tt (set_ctxs (<[c := f cx]> (ctxs w)) w).
Proof. intros H. unfold update_ctx. by rewrite (bind_ok _ _ _ _ _ (load_ctx_ok _ _ _ H)). Qed.

(** C3.  Whatever the store and the state the request context was left in
    (its old node cancelled or not, its old cursor anywhere in its chain,
    finalizers registered or not), after [reset] the context holds a new
    cancellation node whose [done] is open and whose error is nil, without
    parent or child, and a new cursor at the sentinel -1, bound to the
    given chain, with no finalizer. *)
Theorem reset_installs_fresh_state w c cx rq rwh m :
  ctxs w !! c = Some cx →
  ∃ w', reset c rq rwh m w = Ok tt w' ∧
        node_of w' c = Some (Context None false None ChanOpen None (Some c)) ∧
        cursor_of w' c = Some (Handlers (-1) m []) ∧
        ctxs w' !! c =
          Some (set_handlers (Some (length (cursors w)))
                 (set_context (Some (length (nodes w)))
                    (set_rw (rw_reset rwh (rw cx)) (set_Request rq cx)))) ∧
        nodes w' = nodes w ++ [Context None false None ChanOpen None (Some c)] ∧
        cursors w' = cursors w ++ [Handlers (-1) m []] ∧
        trace w' = trace w.
Proof.
  intros Hc. assert (c < length (ctxs w)) as Hlen by (by apply lookup_lt_Some in Hc).
  destruct w as [nd cs xs tr]. simpl in *.
  eexists. split.
  - unfold reset.
    erewrite bind_ok; [| by apply update_ctx_ok ].
    erewrite bind_ok; [| apply update_ctx_ok; simpl; by apply list_lookup_insert_eq ].
    erewrite bind_ok; [| reflexivity ].
    erewrite bind_ok;
      [| apply update_ctx_ok; simpl; apply list_lookup_insert_eq;
         by rewrite length_insert ].
    erewrite bind_ok; [| reflexivity ].
    erewrite bind_ok;
      [| apply update_ctx_ok; simpl; apply list_lookup_insert_eq;
         by rewrite !length_insert ].
    unfold write, cursor.
    erewrite bind_ok.
    2:{ erewrite bind_ok;
          [| apply load_ctx_ok; simpl; apply list_lookup_insert_eq;
             by rewrite !length_insert ].
        simpl. rewrite list_lookup_middle by done. reflexivity. }
    reflexivity.
  - simpl. rewrite !list_insert_insert_eq.
    unfold node_of, cursor_of. simpl.
    rewrite list_lookup_insert_eq by done. simpl.
    rewrite !list_lookup_middle by done.
    rewrite insert_app_r_alt, Nat.sub_diag by done. simpl.
    by rewrite list_lookup_middle.
Qed.

Lemma reset_installs_fresh_state_witness :
  ∃ w', reset 0 (Some 7) (Some 9) demo_chain
          (World [Context None true None ChanClosed (Some Canceled) (Some 0)]
                 [Handlers 2 [release] [release; release]]
                 [Ctx None (Some 0) (Some 0) None None (ResponseWriter (Some 3))
                      (Some 0) (Some 5) None None]
                 [EvManage 0 "release"]) = Ok tt w' ∧
        node_of w' 0 = Some (Context None false None ChanOpen None (Some 0)) ∧
        cursor_of w' 0 = Some (Handlers (-1) demo_chain []) ∧
        ctxs w' !! 0 =
          Some (Ctx None (Some 1) (Some 1) None None (ResponseWriter (Some 9))
                    (Some 0) (Some 7) None None) ∧
        nodes w' = [Context None true None ChanClosed (Some Canceled) (Some 0);
                    Context None false None ChanOpen None (Some 0)] ∧
        cursors w' = [Handlers 2 [release] [release; release];
                      Handlers (-1) demo_chain []] ∧
        trace w' = [EvManage 0 "release"].
Proof.
  apply (reset_installs_fresh_state
           (World [Context None true None ChanClosed (Some Canceled) (Some 0)]
                  [Handlers 2 [release] [release; release]]
                  [Ctx None (Some 0) (Some 0) None None (ResponseWriter (Some 3))
                       (Some 0) (Some 5) None None]
                  [EvManage 0 "release"])
           0 (Ctx None (Some 0) (Some 0) None None (ResponseWriter (Some 3))
                  (Some 0) (Some 5) None None) (Some 7) (Some 9) demo_chain).
  reflexivity.
Defined.

(** ** Replicas *)

Lemma on_nodes_ok {A} (m : M heap A) w a h :
  m (nodes w) = Ok a h → on_nodes m w = Ok a (set_nodes h w).
Proof. unfold on_nodes. by intros ->. Qed.

(** The engine never assigns to a request context: it works through the
    cursor the context points to. *)
Lemma keeps_bind {A B} (m : M world A) (k : A → M world B) :
  keeps_ctxs m → (∀ a, keeps_ctxs (k a)) → keeps_ctxs (bind m k).
Proof.
  intros Hm Hk w b w2. unfold bind.
  destruct (m w) as [a w1| | |] eqn:E; try done.
  intros H. rewrite (Hk _ _ _ _ H). by apply (Hm _ _ _ E).
Qed.

Lemma keeps_cursor c : keeps_ctxs (cursor c).
Proof.
  intros w [h hs] w'. unfold cursor, bind, load_ctx, panic.
  destruct (ctxs w !! c) as [cx|]; [|done].
  destruct (ctx_handlers cx); [|done].
  destruct (cursors w !! _); [|done]. by inversion 1.
Qed.

Lemma keeps_ret {A} (a : A) : keeps_ctxs (ret a).
Proof. intros w a' w'. unfold ret. by inversion 1. Qed.

Lemma keeps_read {A} c (f : handlers → A) : keeps_ctxs (read c f).
Proof. apply keeps_bind; [apply keeps_cursor | intros; apply keeps_ret]. Qed.

Lemma keeps_write c f : keeps_ctxs (write c f).
Proof.
  apply keeps_bind; [apply keeps_cursor|].
  intros p w a w'. unfold modify. by inversion 1.
Qed.

Lemma keeps_emit e : keeps_ctxs (emit e).
Proof. intros w a w'. unfold emit, modify. by inversion 1. Qed.

Lemma keeps_at_index ms i : keeps_ctxs (at_index ms i).
Proof.
  intros w a w'. unfold at_index, panic, ret.
  destruct (i <? 0)%Z; [done|]. destruct (ms !! _); [|done]. by inversion 1.
Qed.

Lemma keeps_push c fn : keeps_ctxs (push c fn).
Proof. apply keeps_bind; [apply keeps_read | intros; apply keeps_write]. Qed.

Lemma engine_keeps_ctxs n :
  (∀ c, keeps_ctxs (Next n c)) ∧
  (∀ c s, keeps_ctxs (loop n c s)) ∧
  (∀ c b, keeps_ctxs (invoke n c b)).
Proof.
  induction n as [|n (IN & IL & II)]; [by repeat split; intros; intros w a w'|].
  repeat split.
  - intros c. simpl.
    repeat (apply keeps_bind;
            [first [apply keeps_read | apply keeps_write] | intros]).
    apply IL.
  - intros c s. simpl.
    apply keeps_bind; [apply keeps_read | intros i].
    destruct (i <? s)%Z; [|apply keeps_ret].
    apply keeps_bind; [apply keeps_read | intros].
    apply keeps_bind; [apply keeps_at_index | intros].
    apply keeps_bind; [apply keeps_emit | intros].
    apply keeps_bind; [apply II | intros].
    apply keeps_bind; [apply keeps_read | intros].
    apply keeps_bind; [apply keeps_write | intros]. apply IL.
  - intros c [|k b]; [apply keeps_ret|]. simpl.
    apply keeps_bind; [|intros; apply II].
    destruct k.
    + apply IN.
    + apply keeps_push.
    + unfold rerun_with.
      apply keeps_bind; [apply keeps_read | intros i].
      apply keeps_bind;
        [destruct (i =? -1)%Z; [apply keeps_ret | apply keeps_write] | intros].
      apply keeps_bind; [apply keeps_write | intros]. apply IN.
    + apply keeps_emit.
Qed.

(** Two request contexts that hold the same [*handlers] read the same
    cursor. *)
Lemma cursor_of_shared w c r cx cr :
  ctxs w !! c = Some cx → ctxs w !! r = Some cr →
  ctx_handlers cr = ctx_handlers cx →
  cursor_of w r = cursor_of w c.
Proof. intros Hc Hr E. unfold cursor_of. rewrite Hc, Hr. simpl. by rewrite E. Qed.

(** C9 (amended).  For a request context whose node has its mutex free and
    a [done] that is not nil, [replicate] returns a new request context
    that is a copy of the original but for its cancellation node: it
    shares the request handle, the response-writing handle, the data bag
    reference and also the cursor (the same [*handlers]); its node is new,
    open, with the original's node as parent, and is registered as a child
    of that node if the original is not cancelled, cancelled at once with
    the original's error otherwise.  Advancing the chain through the
    replica moves the original's cursor: after it both read the same
    cursor. *)
Theorem replicate_shares_cursor range_order w c cx p np fuel :
  (∀ s, range_order s ≡ₚ elements s) →
  ctxs w !! c = Some cx → ctx_context cx = Some p →
  nodes w !! p = Some np → mu np = false → done np ≠ ChanNil →
  ∃ w', replicate range_order (S fuel) c w = Ok (length (ctxs w)) w' ∧
        ctxs w' = ctxs w ++ [set_context (Some (length (nodes w))) cx] ∧
        cursors w' = cursors w ∧ trace w' = trace w ∧
        nodes w' =
          match err np with
          | None =>
            <[p := set_children
                     (Some ({[length (nodes w)]} ∪ default ∅ (children np))) np]>
              (nodes w)
              ++ [Context (Some p) false None ChanOpen None (Some c)]
          | Some e =>
            nodes w ++ [Context (Some p) false None ChanClosed (Some e) (Some c)]
          end ∧
        cursor_of w' (length (ctxs w)) = cursor_of w' c ∧
        ∀ fuel' w'', Next fuel' (length (ctxs w)) w' = Ok tt w'' →
                     cursor_of w'' c = cursor_of w'' (length (ctxs w)).
Proof.
  intros Hro Hc Hctx Hp Hmu Hd.
  assert (p < length (nodes w)) as Hlen by (by apply lookup_lt_Some in Hp).
  set (child := Context (Some p) false None ChanOpen None (Some c)).
  assert (∀ e, err np = Some e →
            propagateCancel range_order (S fuel) p (length (nodes w))
                            (nodes w ++ [child]) =
            Ok tt (<[length (nodes w) :=
                       Context (Some p) false None ChanClosed (Some e) (Some c)]>
                     (nodes w ++ [child]))) as Hsome.
  { intros e He.
    apply (propagateCancel_cancels_late_child range_order
             (nodes w ++ [child]) p (length (nodes w)) np child e fuel Hro);
      try done.
    - by apply lookup_app_l_Some.
    - by apply list_lookup_middle.
    - lia. }
  assert (err np = None →
          propagateCancel range_order (S fuel) p (length (nodes w))
                          (nodes w ++ [child]) =
          Ok tt (<[p := set_children
                          (Some ({[length (nodes w)]} ∪ default ∅ (children np)))
                          np]> (nodes w ++ [child]))) as Hnone.
  { intros He. apply propagateCancel_registers_child; try done.
    by apply lookup_app_l_Some. }
  assert (∃ h, propagateCancel range_order (S fuel) p (length (nodes w))
                 (nodes w ++ [child]) = Ok tt h ∧
               h = match err np with
                   | None =>
                     <[p := set_children
                              (Some ({[length (nodes w)]} ∪ default ∅ (children np))) np]>
                       (nodes w) ++ [child]
                   | Some e =>
                     nodes w ++ [Context (Some p) false None ChanClosed (Some e) (Some c)]
                   end) as (h & Hprop & Hh).
  { destruct (err np) as [e|].
    - eexists. split; [by apply Hsome|].
      rewrite insert_app_r_alt, Nat.sub_diag by done. done.
    - eexists. split; [by apply Hnone|].
      by rewrite insert_app_l. }
  exists (World h (cursors w) (ctxs w ++ [set_context (Some (length (nodes w))) cx])
                (trace w)).
  assert (∀ w2, ctxs w2 = ctxs w ++ [set_context (Some (length (nodes w))) cx] →
                cursor_of w2 (length (ctxs w)) = cursor_of w2 c) as Hshare.
  { intros w2 E. apply (cursor_of_shared _ _ _ cx (set_context (Some (length (nodes w))) cx)).
    - rewrite E. by apply lookup_app_l_Some.
    - rewrite E. by apply list_lookup_middle.
    - done. }
  split; [|repeat split; try done].
  - unfold replicate.
    rewrite (bind_ok _ _ _ _ _ (load_ctx_ok _ _ _ Hc)).
    erewrite bind_ok; [| reflexivity ].
    rewrite Hctx.
    erewrite bind_ok; [| apply on_nodes_ok, Hprop ].
    erewrite bind_ok; [| by apply load_ctx_ok ].
    done.
  - by apply Hshare.
  - intros fuel' w'' HN. symmetry. apply Hshare.
    by rewrite (proj1 (engine_keeps_ctxs fuel') _ _ _ _ HN).
Qed.

Lemma replicate_shares_cursor_witness :
  ∃ w', replicate elements 1 0 (started demo_chain) = Ok 1 w' ∧
        ctxs w' = ctxs (started demo_chain)
                    ++ [Ctx None (Some 1) (Some 1) None None (ResponseWriter None)
                            (Some 0) None None None] ∧
        cursors w' = cursors (started demo_chain) ∧
        trace w' = trace (started demo_chain) ∧
        nodes w' = [Context None false (Some ({[1]} ∪ ∅)) ChanOpen None (Some 0);
                    Context (Some 0) false None ChanOpen None (Some 0)] ∧
        cursor_of w' 1 = cursor_of w' 0 ∧
        ∀ fuel' w'', Next fuel' 1 w' = Ok tt w'' → cursor_of w'' 0 = cursor_of w'' 1.
Proof.
  apply (replicate_shares_cursor elements (started demo_chain) 0
           (Ctx None (Some 0) (Some 1) None None (ResponseWriter None) (Some 0)
                None None None)
           0 (Context None false None ChanOpen None (Some 0)) 0).
  - reflexivity.
  - reflexivity.
  - reflexivity.
  - reflexivity.
  - reflexivity.
  - discriminate.
Defined.

(** C9 as stated fails: [Next] on a replica of a context at the sentinel of
    a chain of three moves the cursor of that context to the end of the
    chain. *)
Lemma replica_advance_moves_parent_cursor :
  (∃ r w1 w2,
     replicate elements 20 0 (started demo_chain) = Ok r w1 ∧
     Next 20 r w1 = Ok tt w2 ∧
     cursor_of w1 0 = Some (Handlers (-1) demo_chain []) ∧
     cursor_of w2 0 =
       Some (Handlers 4 demo_chain [MkManage "audit" [CallExt "audit"]])) ∧
  ¬ replica_advance_spares_parent elements (started demo_chain) 0.
Proof.
  assert (∃ r w1 w2,
     replicate elements 20 0 (started demo_chain) = Ok r w1 ∧
     Next 20 r w1 = Ok tt w2 ∧
     cursor_of w1 0 = Some (Handlers (-1) demo_chain []) ∧
     cursor_of w2 0 =
       Some (Handlers 4 demo_chain [MkManage "audit" [CallExt "audit"]]))
    as (r & w1 & w2 & Hr & HN & H1 & H2).
  { do 3 eexists. split; [vm_compute; reflexivity|].
    split; [vm_compute; reflexivity|]. split; by vm_compute. }
  split; [by exists r, w1, w2|].
  intros H. specialize (H 20 r w1 w2 Hr HN). by rewrite H1, H2 in H.
Qed.

(** * The cancellation tree as a whole *)

Lemma reaches_trans h a b c : reaches h a b → reaches h b c → reaches h a c.
Proof.
  induction 1 as [|a n k b Ha Hk _ IH]; [done|].
  intros Hbc. eapply reaches_child; eauto.
Qed.

Lemma reaches_snoc h a b n k :
  reaches h a b → h !! b = Some n → k ∈ kids n → reaches h a k.
Proof.
  intros Hab Hb Hk. apply (reaches_trans _ _ b); [done|].
  eapply reaches_child; eauto. constructor.
Qed.

Lemma confined_refl R h : confined R h h.
Proof.
  split; [done|]. intros x. split; [done|]. intros n' ?. by exists n'.
Qed.

Lemma confined_reaches R h h' a b :
  confined R h h' → reaches h' a b → reaches h a b.
Proof.
  intros [_ Hc]. induction 1 as [|a n' k b Ha Hk _ IH]; [constructor|].
  pose proof (Hc a) as [_ Hs]. pose proof (Hs _ Ha) as (n & Hn & Hsub & _).
  eapply reaches_child; [done| |done]. by apply Hsub.
Qed.

Lemma confined_trans (R R' : nodeid → Prop) h h' h'' :
  confined R h h' → confined R' h' h'' → (∀ x, R' x → R x) →
  confined R h h''.
Proof.
  intros [Hl Hc] [Hl' Hc'] HR. split; [congruence|].
  intros x. pose proof (Hc x) as [Hf Hs]. pose proof (Hc' x) as [Hf' Hs']. split.
  - intros Hx. rewrite Hf', Hf; auto.
  - intros n'' Hn''. pose proof (Hs' _ Hn'') as (n' & Hn' & ? & ? & ?).
    pose proof (Hs _ Hn') as (n & Hn & ? & ? & ?).
    exists n. split; [done|]. split; [by etrans|]. split; congruence.
Qed.

(** Writing one node of [R], with no new child. *)
Lemma confined_insert (R : nodeid → Prop) (h : heap) c n n' :
  h !! c = Some n → R c →
  kids n' ⊆ kids n → parent n' = parent n → value n' = value n →
  confined R h (<[c := n']> h).
Proof.
  intros Hc HR Hk Hp Hv. split; [by rewrite length_insert|].
  intros x. split.
  - intros Hx. rewrite list_lookup_insert_ne; [done|]. by intros ->.
  - intros m Hm. destruct (decide (x = c)) as [->|Hne].
    + rewrite list_lookup_insert_eq in Hm by (by apply lookup_lt_Some in Hc).
      injection Hm as <-. by exists n.
    + rewrite list_lookup_insert_ne in Hm by done. by exists m.
Qed.

Lemma for_each_store {S A} (I : S → Prop) (l : list A) (f : A → M S unit) :
  (∀ x s s', x ∈ l → I s → store_of (f x s) = Some s' → I s') →
  ∀ s s', I s → store_of (for_each l f s) = Some s' → I s'.
Proof.
  induction l as [|x l IH]; intros Hf s s' Hs E.
  - simpl in E. by injection E as <-.
  - cbn [for_each] in E. unfold bind in E.
    destruct (f x s) as [[] s1|msg s1|s1|] eqn:Ex.
    + eapply (IH (λ y t t' Hy, Hf y t t' (list_elem_of_further _ _ _ Hy))); [|done].
      eapply Hf; [by left|done|]. by rewrite Ex.
    + eapply Hf; [by left|done|]. by rewrite Ex.
    + eapply Hf; [by left|done|]. by rewrite Ex.
    + done.
Qed.

Section Tree.

Variable range_order : gset nodeid → list nodeid.

(** [cancel], one level unfolded: what it does to its own node around the
    range over the children. *)
Lemma cancel_unfold fuel c rm e (h : heap) :
  cancel range_order (S fuel) c rm (Some e) h =
  match h !! c with
  | None => Panic nil_dereference h
  | Some n =>
    if mu n then Deadlock h else
    match done n with
    | ChanNil => Panic close_of_nil (<[c := set_err (Some e) (set_mu true n)]> h)
    | ChanClosed => Panic close_of_closed (<[c := set_err (Some e) (set_mu true n)]> h)
    | ChanOpen =>
      match for_each (range_order (kids n))
                     (λ child, cancel range_order fuel child false (Some e))
                     (<[c := set_done ChanClosed (set_err (Some e) (set_mu true n))]> h) with
      | Ok _ h2 =>
        match h2 !! c with
        | None => Panic nil_dereference h2
        | Some n2 =>
          if mu n2 then Ok tt (<[c := set_mu false (set_children None n2)]> h2)
          else Panic unlock_of_unlocked (<[c := set_children None n2]> h2)
        end
      | Panic msg h2 => Panic msg h2
      | Deadlock h2 => Deadlock h2
      | OutOfFuel => OutOfFuel
      end
    end
  end.
Proof.
  rewrite cancel_S.
  destruct (h !! c) as [n|] eqn:Hc.
  2:{ unfold Lock, bind, load. by rewrite Hc. }
  destruct (heap_at _ _ _ Hc) as [Hlen E].
  destruct (mu n) eqn:Hmu.
  { rewrite E at 1. erewrite bind_deadlock by (by apply Lock_held). by rewrite list_insert_id. }
  rewrite E at 1. do 2 hstep Hlen.
  destruct (done n) eqn:Hd.
  - erewrite bind_panic; [done|].
    unfold close. rewrite (bind_ok _ _ _ _ _ (load_at _ _ Hlen _)). by cbn; rewrite Hd.
  - hstep Hlen. hstep Hlen. cbn [children set_done set_err set_mu]. fold (kids n).
    unfold bind at 1.
    destruct (for_each _ _ _) as [[] h2|msg h2|h2|]; try done.
    destruct (h2 !! c) as [n2|] eqn:Hc2.
    2:{ unfold update, bind, load. by rewrite Hc2. }
    destruct (heap_at _ _ _ Hc2) as [Hlen2 E2].
    rewrite E2 at 1. hstep Hlen2.
    destruct (mu n2) eqn:Hmu2.
    + hstep Hlen2. destruct rm; [|done]. by hstep Hlen2.
    + erewrite bind_panic; [done|].
      unfold Unlock. rewrite (bind_ok _ _ _ _ _ (load_at _ _ Hlen2 _)). by cbn; rewrite Hmu2.
  - erewrite bind_panic; [done|].
    by apply (close_closed _ _ Hlen (set_err (Some e) (set_mu true n))).
Qed.

Hypothesis range_order_elements : ∀ s, range_order s ≡ₚ elements s.

Lemma range_order_mem s k : k ∈ range_order s ↔ k ∈ s.
Proof using range_order_elements. by rewrite range_order_elements, elem_of_elements. Qed.

Lemma cancel_confined fuel : ∀ c rm e (h h' : heap),
  store_of (cancel range_order fuel c rm e h) = Some h' →
  confined (reaches h c) h h'.
Proof using range_order_elements.
  induction fuel as [|fuel IH]; intros c rm e h h' E; [done|].
  destruct e as [e|].
  2:{ simpl in E. injection E as <-. apply confined_refl. }
  rewrite cancel_unfold in E.
  destruct (h !! c) as [n|] eqn:Hc.
  2:{ injection E as <-. apply confined_refl. }
  destruct (mu n) eqn:Hmu.
  { injection E as <-. apply confined_refl. }
  assert (∀ n', kids n' ⊆ kids n → parent n' = parent n → value n' = value n →
                confined (reaches h c) h (<[c := n']> h)) as Hins.
  { intros n'. apply confined_insert; [done|constructor]. }
  destruct (done n) eqn:Hd; try (injection E as <-; by apply Hins).
  set (h1 := <[c := _]> h) in E.
  assert (confined (reaches h c) h h1) as H1 by (by apply Hins).
  assert (∀ s', store_of (for_each (range_order (kids n))
              (λ child, cancel range_order fuel child false (Some e)) h1) = Some s' →
            confined (reaches h c) h s') as Hloop.
  { intros s'. apply (for_each_store (confined (reaches h c) h)); [|done].
    intros k s s2 Hk Hs Es. apply IH in Es.
    eapply confined_trans; [done..|].
    intros x Hx. eapply reaches_child; [done| |].
    - by apply range_order_mem in Hk.
    - by eapply confined_reaches. }
  destruct (for_each _ _ h1) as [[] h2|msg h2|h2|] eqn:El; try done;
    try (injection E as <-; by apply Hloop).
  pose proof (Hloop _ eq_refl) as H2.
  destruct (h2 !! c) as [n2|] eqn:Hc2.
  2:{ by injection E as <-. }
  assert (confined (reaches h2 c) h2 h') as H3.
  { destruct (mu n2); injection E as <-;
      (apply (confined_insert _ _ _ n2); [done|constructor|apply empty_subseteq|done..]). }
  eapply confined_trans; [done..|].
  intros x Hx. by eapply confined_reaches.
Qed.

(** The range over the children, while the node [c] is held: the children
    [l1] are done, [l2] are to come.  [seen l1 x] says that [x] is below one
    of the children done. *)
Section Range.

Variables (fuel : nat) (e : error) (h0 : heap) (c : nodeid) (n0 n1 : context).
Hypothesis Hc0 : h0 !! c = Some n0.
Hypothesis Hmu1 : mu n1 = true.
Hypothesis Hkids1 : kids n1 = kids n0.

Hypothesis IHfuel : ∀ k (s s' : heap),
  cancel range_order fuel k false (Some e) s = Ok tt s' →
  ∀ x, reaches s k x →
    ∃ n, s !! x = Some n ∧ mu n = false ∧ done n = ChanOpen ∧
         s' !! x = Some (cancelled e n).

Local Abbreviation seen := (λ (l : list nodeid) (x : nodeid), ∃ k, k ∈ l ∧ reaches h0 k x).

Local Abbreviation ranged := (λ (l : list nodeid) (s : heap),
  length s = length h0 ∧ s !! c = Some n1 ∧
  (∀ x, seen l x →
     x ≠ c ∧ ∃ nx, h0 !! x = Some nx ∧ mu nx = false ∧ done nx = ChanOpen ∧
                   s !! x = Some (cancelled e nx)) ∧
  (∀ x, ¬ seen l x → x ≠ c → s !! x = h0 !! x)).

Lemma ranged_reaches l (s : heap) a b :
  ranged l s → reaches s a b → reaches h0 a b.
Proof using Hc0 Hkids1.
  intros (Hl & Hc & Hin & Hout).
  induction 1 as [|a n k b Ha Hk _ IH]; [constructor|].
  destruct (decide (a = c)) as [->|Hne].
  { eapply reaches_child; [done| |done]. rewrite <- Hkids1. congruence. }
  destruct (h0 !! a) as [na|] eqn:Ha0.
  2:{ apply lookup_lt_Some in Ha. apply lookup_ge_None in Ha0. lia. }
  eapply reaches_child; [done| |done].
  destruct (decide (k ∈ kids na)) as [|Hnk]; [done|]. exfalso.
  assert (¬ ¬ seen l a) as Hnn.
  { intros Hn. apply Hout in Hn; [|done]. congruence. }
  apply Hnn. intros Hs. apply Hin in Hs as (_ & nx & Hx & _ & _ & Hsx).
  rewrite Ha in Hsx. injection Hsx as ->. by apply elem_of_empty in Hk.
Qed.

Lemma ranged_step l k (s s' : heap) :
  ranged l s →
  cancel range_order fuel k false (Some e) s = Ok tt s' →
  ranged (l ++ [k]) s'.
Proof using Hc0 Hmu1 Hkids1 IHfuel range_order_elements.
  intros HR E. pose proof HR as (Hl & Hc & Hin & Hout).
  pose proof (IHfuel _ _ _ E) as HA.
  assert (confined (reaches s k) s s') as [HBl HB].
  { apply cancel_confined with fuel false (Some e). by rewrite E. }
  assert (∀ x, reaches s k x → x ≠ c ∧ ¬ seen l x) as Hfresh.
  { intros x Hx. apply HA in Hx as (n & Hn & Hmu & Hd & _). split.
    - intros ->. congruence.
    - intros Hs. apply Hin in Hs as (_ & nx & _ & _ & _ & Hsx).
      rewrite Hn in Hsx. injection Hsx as ->. done. }
  assert (∀ y x, reaches h0 y x → reaches s k y → reaches s k x) as Hdown.
  { induction 1 as [|y ny z x Hy Hz _ IH]; [done|].
    intros Hky. apply IH. destruct (Hfresh _ Hky) as [Hyc Hys].
    eapply reaches_snoc; [done| |done]. by rewrite Hout. }
  assert (∀ x, seen (l ++ [k]) x ↔ seen l x ∨ reaches h0 k x) as Hseen.
  { intros x. split.
    - intros (k' & Hk' & Hx). apply elem_of_app in Hk' as [Hk'|Hk']; [left; eauto|].
      apply list_elem_of_singleton in Hk' as ->. by right.
    - intros [(k' & Hk' & Hx)|Hx].
      + exists k'. split; [|done]. apply elem_of_app. by left.
      + exists k. split; [|done]. apply elem_of_app. right. by apply list_elem_of_singleton. }
  split; [congruence|]. split; [|split].
  - pose proof (HB c) as [HBc _]. rewrite HBc; [done|].
    intros Hx. by apply Hfresh in Hx as [? _].
  - intros x Hx. apply Hseen in Hx as [Hx|Hx].
    + destruct (Hin _ Hx) as (Hxc & nx & Hx0 & Hmu & Hd & Hsx).
      split; [done|]. exists nx. repeat (split; [done|]).
      pose proof (HB x) as [HBx _]. rewrite HBx; [done|].
      intros Hr. apply Hfresh in Hr as [_ Hr]. done.
    + assert (reaches s k x) as Hr by (apply (Hdown k); [done|constructor]).
      destruct (Hfresh _ Hr) as [Hxc Hxs]. split; [done|].
      destruct (HA _ Hr) as (n & Hn & Hmu & Hd & Hn').
      exists n. rewrite <- Hout by done. done.
  - intros x Hx Hxc.
    pose proof (HB x) as [HBx _]. rewrite HBx.
    + apply Hout; [|done]. intros Hs. apply Hx, Hseen. by left.
    + intros Hr. apply Hx, Hseen. right. by eapply ranged_reaches.
Qed.

Lemma ranged_for_each l2 : ∀ l1 (s s' : heap),
  ranged l1 s →
  for_each l2 (λ child, cancel range_order fuel child false (Some e)) s = Ok tt s' →
  ranged (l1 ++ l2) s'.
Proof using Hc0 Hmu1 Hkids1 IHfuel range_order_elements.
  induction l2 as [|k l2 IH]; intros l1 s s' HR E.
  - injection E as <-. by rewrite app_nil_r.
  - cbn [for_each] in E. unfold bind in E.
    destruct (cancel _ _ _ _ _ s) as [[] s1| | |] eqn:Ek; try done.
    replace (l1 ++ k :: l2) with ((l1 ++ [k]) ++ l2) by (by rewrite <- app_assoc).
    eapply IH; [|done]. by eapply ranged_step.
Qed.

End Range.

(** What [cancel] has done when it returns: every node below the cancelled
    one was open and free, and is cancelled now. *)
Lemma cancel_ok_below fuel : ∀ c rm e (h h' : heap),
  cancel range_order fuel c rm (Some e) h = Ok tt h' →
  ∀ x, reaches h c x →
    ∃ n, h !! x = Some n ∧ mu n = false ∧ done n = ChanOpen ∧
         h' !! x = Some (cancelled e n).
Proof using range_order_elements.
  induction fuel as [|fuel IH]; intros c rm e h h' E; [done|].
  rewrite cancel_unfold in E.
  destruct (h !! c) as [n|] eqn:Hc; [|done].
  destruct (mu n) eqn:Hmu; [done|].
  destruct (done n) eqn:Hd; try done.
  set (n1 := set_done ChanClosed (set_err (Some e) (set_mu true n))) in E.
  destruct (for_each _ _ _) as [[] h2| | |] eqn:El; try done.
  assert (c < length h) as Hlen by (by apply lookup_lt_Some in Hc).
  destruct (ranged_for_each fuel e h c n n1 Hc eq_refl eq_refl
              (λ k s s', IH k false e s s') (range_order (kids n)) []
              (<[c := n1]> h) h2) as (Hl2 & Hc2 & Hin & Hout); [|done|].
  { split; [by rewrite length_insert|]. split; [by apply list_lookup_insert_eq|].
    split.
    - intros x (k & Hk & _). by apply elem_of_nil in Hk.
    - intros x _ Hx. by apply list_lookup_insert_ne. }
  rewrite Hc2 in E. cbn in E. injection E as <-.
  intros x Hx. inversion Hx as [|? n' k ? Hc' Hk Hkx]; subst.
  - exists n. repeat (split; [done|]).
    apply list_lookup_insert_eq. congruence.
  - rewrite Hc in Hc'. injection Hc' as <-.
    destruct (Hin x) as (Hxc & nx & Hnx & Hmux & Hdx & Hx2).
    { exists k. split; [|done]. by apply range_order_mem. }
    exists nx. repeat (split; [done|]).
    by rewrite list_lookup_insert_ne.
Qed.

(** *** Trees *)

Lemma reaches_agree (h s : heap) a b :
  (∀ x, reaches h a x → s !! x = h !! x) → reaches s a b → reaches h a b.
Proof.
  intros Hag Hr. induction Hr as [|a n k b Ha Hk _ IH]; [constructor|].
  rewrite Hag in Ha by constructor.
  eapply reaches_child; [done..|]. apply IH.
  intros x Hx. apply Hag. by eapply reaches_child.
Qed.

Lemma open_tree_mono h d : ∀ c, open_tree h d c → open_tree h (S d) c.
Proof.
  induction d as [|d IH]; intros c; [done|].
  intros (n & Hc & Hmu & Hd & Hk & Hdis). exists n. repeat (split; [done|]).
  split; [|done]. intros k Hkn. by apply IH, Hk.
Qed.

Lemma open_tree_below h d c x : open_tree h d c → reaches h c x → open_tree h d x.
Proof.
  intros Ht Hr. revert d Ht. induction Hr as [|c n k x Hc Hk _ IH]; [done|].
  intros [|d]; [done|]. intros (n' & Hc' & _ & _ & Hkids & _).
  rewrite Hc in Hc'. injection Hc' as <-. by apply open_tree_mono, IH, Hkids.
Qed.

Lemma open_tree_node h d c : open_tree h d c → ∃ n, h !! c = Some n ∧ mu n = false ∧ done n = ChanOpen.
Proof. destruct d; [done|]. intros (n & ? & ? & ? & _). by exists n. Qed.

Lemma open_tree_acyclic h d : ∀ c n k,
  open_tree h d c → h !! c = Some n → k ∈ kids n → ¬ reaches h k c.
Proof.
  induction d as [|d IH]; intros c n k; [done|].
  intros (n' & Hc' & _ & _ & Hkids & _) Hc Hk Hr.
  rewrite Hc in Hc'. injection Hc' as <-.
  eapply (IH c n k); [|done..]. eapply open_tree_below; [|done]. by apply Hkids.
Qed.

Lemma open_tree_agree (h s : heap) d : ∀ c,
  (∀ x, reaches h c x → s !! x = h !! x) → open_tree h d c → open_tree s d c.
Proof.
  induction d as [|d IH]; intros c Hag; [done|].
  intros (n & Hc & Hmu & Hd & Hkids & Hdis). exists n.
  split; [by rewrite Hag by constructor|]. repeat (split; [done|]).
  assert (∀ k, k ∈ kids n → ∀ x, reaches h k x → s !! x = h !! x) as Hagk.
  { intros k Hk x Hx. apply Hag. by eapply reaches_child. }
  split.
  - intros k Hk. apply IH; [by apply Hagk | by apply Hkids].
  - intros k k' x Hk Hk' Hx Hx'. apply (Hdis k k' x); try done.
    + eapply reaches_agree; [by apply Hagk | done].
    + eapply reaches_agree; [by apply Hagk | done].
Qed.

Lemma confined_mono (R R' : nodeid → Prop) h h' :
  confined R h h' → (∀ x, R x → R' x) → confined R' h h'.
Proof.
  intros [Hl Hc] HR. split; [done|]. intros x. pose proof (Hc x) as [Hf Hs].
  split; [|done]. intros Hx. apply Hf. intros Hx'. by apply Hx, HR.
Qed.

(** The range over the children of the root of a tree. *)
Lemma for_each_cancel_tree fuel e (h : heap) c n n1 d l2 : ∀ l1 (s : heap),
  (∀ k rm (s : heap), open_tree s d k →
     ∃ s', cancel range_order fuel k rm (Some e) s = Ok tt s') →
  open_tree h (S d) c → h !! c = Some n →
  NoDup (l1 ++ l2) → (∀ k, k ∈ l1 ++ l2 → k ∈ kids n) →
  confined (λ x, x = c ∨ ∃ k, k ∈ l1 ∧ reaches h k x) h s →
  s !! c = Some n1 →
  ∃ s', for_each l2 (λ child, cancel range_order fuel child false (Some e)) s = Ok tt s' ∧
        s' !! c = Some n1.
Proof using range_order_elements.
  induction l2 as [|k l2 IH]; intros l1 s Hf Ht Hc Hnd Hl Hs Hsc.
  { by exists s. }
  pose proof Ht as (n' & Hc' & _ & _ & Hkids & Hdis).
  rewrite Hc in Hc'. injection Hc' as <-.
  assert (k ∈ kids n) as Hk by (apply Hl, elem_of_app; right; by left).
  assert (k ∉ l1) as Hk1.
  { apply NoDup_app in Hnd as (_ & Hnd & _). intros Hk1. apply (Hnd k Hk1). by left. }
  assert (∀ x, reaches h k x → s !! x = h !! x) as Hag.
  { intros x Hx. destruct Hs as [_ Hs]. pose proof (Hs x) as [Hfr _]. apply Hfr.
    intros [->|(k1 & Hk1' & Hx1)].
    - by eapply open_tree_acyclic in Hx.
    - assert (k1 = k) as -> by (apply (Hdis k1 k x); try done; apply Hl, elem_of_app; by left).
      done. }
  destruct (Hf k false s) as [s1 E1].
  { eapply open_tree_agree; [done|]. by apply Hkids. }
  assert (confined (reaches s k) s s1) as Hs1.
  { apply cancel_confined with fuel false (Some e). by rewrite E1. }
  assert (∀ x, reaches s k x → reaches h k x) as Hsk.
  { intros x. by apply reaches_agree. }
  destruct (IH (l1 ++ [k]) s1) as (s' & E' & Hc'); try done.
  - by rewrite <- app_assoc.
  - intros k'. rewrite <- app_assoc. apply Hl.
  - eapply confined_trans.
    + eapply confined_mono; [done|]. intros x [->|(k1 & Hk1' & Hx)]; [by left|].
      right. exists k1. split; [|done]. apply elem_of_app. by left.
    + done.
    + intros x Hx. right. exists k. split; [|by apply Hsk].
      apply elem_of_app. right. by left.
  - destruct Hs1 as [_ Hs1]. pose proof (Hs1 c) as [Hfr _]. rewrite Hfr; [done|].
    intros Hx. apply Hsk in Hx. by eapply open_tree_acyclic in Hx.
  - exists s'. split; [|done]. cbn [for_each]. by rewrite (bind_ok _ _ _ _ _ E1).
Qed.

(** On a tree of open nodes [cancel] returns. *)
Lemma cancel_tree_returns fuel : ∀ d c rm e (h : heap),
  d ≤ fuel → open_tree h d c →
  ∃ h', cancel range_order fuel c rm (Some e) h = Ok tt h'.
Proof using range_order_elements.
  induction fuel as [|fuel IH]; intros d c rm e h Hd Ht.
  { by replace d with 0 in Ht by lia. }
  destruct d as [|d]; [done|].
  pose proof Ht as (n & Hc & Hmu & Hdn & Hkids & Hdis).
  rewrite cancel_unfold, Hc, Hmu, Hdn.
  set (n1 := set_done ChanClosed (set_err (Some e) (set_mu true n))).
  destruct (for_each_cancel_tree fuel e h c n n1 d (range_order (kids n)) [] (<[c := n1]> h))
    as (h2 & -> & ->); try done.
  - intros k rm' s. apply IH. lia.
  - rewrite app_nil_l, range_order_elements. apply NoDup_elements.
  - intros k. rewrite app_nil_l. apply range_order_mem.
  - eapply confined_mono.
    + apply (confined_insert (λ x, x = c) h c n n1); done.
    + intros x ->. by left.
  - apply list_lookup_insert_eq. by apply lookup_lt_Some in Hc.
  - cbn. eauto.
Qed.

(** *** Nodes that are settled stay so *)

Lemma cancel_keeps_settled fuel : ∀ c rm e (h h' : heap),
  Forall settled h →
  store_of (cancel range_order fuel c rm e h) = Some h' →
  Forall settled h'.
Proof.
  induction fuel as [|fuel IH]; intros c rm e h h' Hh E; [done|].
  destruct e as [e|].
  2:{ simpl in E. by injection E as <-. }
  rewrite cancel_unfold in E.
  destruct (h !! c) as [n|] eqn:Hc.
  2:{ by injection E as <-. }
  destruct (mu n) eqn:Hmu.
  { by injection E as <-. }
  pose proof (Forall_lookup_1 _ _ _ _ Hh Hc) as [Hnil Hiff].
  destruct (done n) eqn:Hd; [done| |].
  - set (n1 := set_done ChanClosed (set_err (Some e) (set_mu true n))) in E.
    assert (Forall settled (<[c := n1]> h)) as H1.
    { apply Forall_insert; [done|]. by split. }
    assert (∀ s', store_of (for_each (range_order (kids n))
              (λ child, cancel range_order fuel child false (Some e)) (<[c := n1]> h)) = Some s' →
            Forall settled s') as Hloop.
    { intros s'. apply (for_each_store (Forall settled)); [|done].
      intros k s s2 _ Hs Es. by eapply IH. }
    destruct (for_each _ _ _) as [[] h2|msg h2|h2|] eqn:El; try done;
      try (injection E as <-; by apply Hloop).
    pose proof (Hloop _ eq_refl) as H2.
    destruct (h2 !! c) as [n2|] eqn:Hc2.
    2:{ by injection E as <-. }
    pose proof (Forall_lookup_1 _ _ _ _ H2 Hc2) as Hn2.
    destruct (mu n2); injection E as <-; (apply Forall_insert; [done | exact Hn2]).
  - injection E as <-. apply Forall_insert; [done|].
    split; cbn; rewrite Hd; [done|]. split; intros; done.
Qed.

(** *** The mutex of a node that is being cancelled *)

(** A node whose mutex is held is left as it is, by whatever [cancel]. *)
Lemma cancel_spares_held fuel (x : nodeid) nx : ∀ k rm e (s s' : heap),
  s !! x = Some nx → mu nx = true →
  store_of (cancel range_order fuel k rm e s) = Some s' →
  s' !! x = Some nx.
Proof.
  induction fuel as [|fuel IH]; intros k rm e s s' Hx Hmu E; [done|].
  destruct e as [e|].
  2:{ simpl in E. by injection E as <-. }
  rewrite cancel_unfold in E.
  destruct (s !! k) as [n|] eqn:Hk.
  2:{ by injection E as <-. }
  destruct (mu n) eqn:Hmuk.
  { by injection E as <-. }
  assert (x ≠ k) as Hne.
  { intros ->. rewrite Hx in Hk. injection Hk as ->. by rewrite Hmu in Hmuk. }
  destruct (done n) eqn:Hd; try (injection E as <-; by rewrite list_lookup_insert_ne).
  set (n1 := set_done ChanClosed (set_err (Some e) (set_mu true n))) in E.
  assert (∀ s', store_of (for_each (range_order (kids n))
            (λ child, cancel range_order fuel child false (Some e)) (<[k := n1]> s)) = Some s' →
          s' !! x = Some nx) as Hloop.
  { intros s2. apply (for_each_store (λ s, s !! x = Some nx)).
    - intros k' t t' _ Ht Et. by eapply IH.
    - by rewrite list_lookup_insert_ne. }
  destruct (for_each _ _ _) as [[] h2|msg h2|h2|] eqn:El; try done;
    try (injection E as <-; by apply Hloop).
  pose proof (Hloop _ eq_refl) as H2.
  destruct (h2 !! k) as [n2|] eqn:Hk2.
  2:{ by injection E as <-. }
  destruct (mu n2); injection E as <-; by rewrite list_lookup_insert_ne.
Qed.

End Tree.

(** X1.  Whatever [cancel] does, and however it ends (it returns, panics or
    blocks), it changes no node but the one it is called on and the nodes
    below it in the child sets; and it gives no node a new child, another
    parent or another value. *)
Theorem cancel_changes_only_descendants range_order fuel c rm e (h h' : heap) :
  (∀ s, range_order s ≡ₚ elements s) →
  store_of (cancel range_order fuel c rm e h) = Some h' →
  confined (reaches h c) h h'.
Proof. intros Hro. by apply cancel_confined. Qed.

Lemma cancel_changes_only_descendants_witness :
  confined
    (reaches [Context None false (Some {[1]}) ChanOpen None None;
              Context (Some 0) false None ChanClosed (Some Canceled) None;
              Context None false (Some {[0]}) ChanOpen None None] 0)
    [Context None false (Some {[1]}) ChanOpen None None;
     Context (Some 0) false None ChanClosed (Some Canceled) None;
     Context None false (Some {[0]}) ChanOpen None None]
    [Context None true (Some {[1]}) ChanClosed (Some Canceled) None;
     Context (Some 0) true None ChanClosed (Some Canceled) None;
     Context None false (Some {[0]}) ChanOpen None None].
Proof.
  apply (cancel_changes_only_descendants elements 2 0 true (Some Canceled)).
  - reflexivity.
  - vm_compute. reflexivity.
Defined.

(** X2.  When [cancel] returns, every node below the cancelled one (that node
    included) was open with its mutex free before the call, and is cancelled
    now: its error is the one given, its [done] is closed, its child set is
    nil and its mutex is free. *)
Theorem cancel_returns_with_all_below_cancelled range_order fuel c rm e (h h' : heap) x :
  (∀ s, range_order s ≡ₚ elements s) →
  cancel range_order fuel c rm (Some e) h = Ok tt h' →
  reaches h c x →
  ∃ n, h !! x = Some n ∧ mu n = false ∧ done n = ChanOpen ∧
       h' !! x = Some (cancelled e n).
Proof. intros Hro E. by apply (cancel_ok_below range_order Hro fuel c rm). Qed.

Lemma cancel_returns_with_all_below_cancelled_witness :
  ∃ n, [Context None false (Some {[1]}) ChanOpen None None;
        Context (Some 0) false (Some {[2]}) ChanOpen None None;
        Context (Some 1) false None ChanOpen None None] !! 2 = Some n ∧
       mu n = false ∧ done n = ChanOpen ∧
       [Context None false None ChanClosed (Some Canceled) None;
        Context (Some 0) false None ChanClosed (Some Canceled) None;
        Context (Some 1) false None ChanClosed (Some Canceled) None] !! 2 =
         Some (cancelled Canceled n).
Proof.
  apply (cancel_returns_with_all_below_cancelled elements 3 0 true Canceled
           [Context None false (Some {[1]}) ChanOpen None None;
            Context (Some 0) false (Some {[2]}) ChanOpen None None;
            Context (Some 1) false None ChanOpen None None]).
  - reflexivity.
  - vm_compute. reflexivity.
  - eapply (reaches_child _ 0 _ 1); [reflexivity | vm_compute; reflexivity |].
    eapply (reaches_child _ 1 _ 2); [reflexivity | vm_compute; reflexivity |].
    constructor.
Defined.

(** X3.  On a tree of open nodes whose mutexes are free, [cancel] returns
    as soon as the bound on the recursion is the depth of the tree: it has
    cancelled the nodes of the tree with the error given, and the rest of the
    heap is as it was. *)
Theorem cancel_of_open_tree_returns range_order fuel d c rm e (h : heap) :
  (∀ s, range_order s ≡ₚ elements s) →
  open_tree h d c → d ≤ fuel →
  ∃ h', cancel range_order fuel c rm (Some e) h = Ok tt h' ∧
        length h' = length h ∧
        ∀ x, (reaches h c x →
                ∃ n, h !! x = Some n ∧ h' !! x = Some (cancelled e n)) ∧
             (¬ reaches h c x → h' !! x = h !! x).
Proof.
  intros Hro Ht Hd.
  destruct (cancel_tree_returns range_order Hro fuel d c rm e h Hd Ht) as [h' E].
  exists h'. split; [done|].
  destruct (cancel_confined range_order Hro fuel c rm (Some e) h h') as [Hl Hc].
  { by rewrite E. }
  split; [done|]. intros x. split.
  - intros Hx.
    destruct (cancel_ok_below range_order Hro fuel c rm e h h' E x Hx)
      as (n & Hn & _ & _ & Hn').
    by exists n.
  - apply Hc.
Qed.

Lemma cancel_of_open_tree_returns_witness :
  ∃ h', cancel elements 3 0 true (Some Canceled)
          [Context None false (Some {[1]}) ChanOpen None None;
           Context (Some 0) false (Some {[2]}) ChanOpen None None;
           Context (Some 1) false None ChanOpen None None;
           Context None false None ChanOpen None None] = Ok tt h' ∧
        length h' = 4 ∧
        ∀ x, (reaches [Context None false (Some {[1]}) ChanOpen None None;
                       Context (Some 0) false (Some {[2]}) ChanOpen None None;
                       Context (Some 1) false None ChanOpen None None;
                       Context None false None ChanOpen None None] 0 x →
                ∃ n, [Context None false (Some {[1]}) ChanOpen None None;
                      Context (Some 0) false (Some {[2]}) ChanOpen None None;
                      Context (Some 1) false None ChanOpen None None;
                      Context None false None ChanOpen None None] !! x = Some n ∧
                     h' !! x = Some (cancelled Canceled n)) ∧
             (¬ reaches [Context None false (Some {[1]}) ChanOpen None None;
                         Context (Some 0) false (Some {[2]}) ChanOpen None None;
                         Context (Some 1) false None ChanOpen None None;
                         Context None false None ChanOpen None None] 0 x →
                h' !! x =
                [Context None false (Some {[1]}) ChanOpen None None;
                 Context (Some 0) false (Some {[2]}) ChanOpen None None;
                 Context (Some 1) false None ChanOpen None None;
                 Context None false None ChanOpen None None] !! x).
Proof.
  apply (cancel_of_open_tree_returns elements 3 3 0 true Canceled).
  - reflexivity.
  - eexists. split; [reflexivity|]. do 2 (split; [reflexivity|]).
    unfold kids; cbn [children default id]. split.
    + intros k ->%elem_of_singleton.
      eexists. split; [reflexivity|]. do 2 (split; [reflexivity|]).
      unfold kids; cbn [children default id]. split.
      * intros k ->%elem_of_singleton.
        eexists. split; [reflexivity|]. do 2 (split; [reflexivity|]).
        unfold kids; cbn [children default id].
        split; [by intros k ?%elem_of_empty | by intros k k' x ?%elem_of_empty].
      * by intros k k' x ->%elem_of_singleton ->%elem_of_singleton.
    + by intros k k' x ->%elem_of_singleton ->%elem_of_singleton.
  - lia.
Defined.

(** X4.  [cancel] keeps the error and [done] of every node in step, however
    it ends: if in every node of the heap [done] is not nil and the error is
    set exactly when [done] is closed, the same holds of the heap [cancel]
    leaves, also when it panics or blocks. *)
Theorem cancel_keeps_err_and_done_in_step range_order fuel c rm e (h h' : heap) :
  Forall settled h →
  store_of (cancel range_order fuel c rm e h) = Some h' →
  Forall settled h'.
Proof. apply cancel_keeps_settled. Qed.

Lemma cancel_keeps_err_and_done_in_step_witness :
  Forall settled
    [Context None true None ChanClosed (Some (OtherError "late")) None;
     Context None false None ChanOpen None None].
Proof.
  apply (cancel_keeps_err_and_done_in_step elements 1 0 false
           (Some (OtherError "late"))
           [Context None false None ChanClosed (Some Canceled) None;
            Context None false None ChanOpen None None]).
  - repeat constructor; done.
  - vm_compute. reflexivity.
Defined.

(** X5.  A [cancel] that does not return leaves the mutex of its node
    held, unless it was given the nil error.  If the node exists and
    [cancel], given an error that is not nil, panics (on a node cancelled
    before, or anywhere below) or blocks, the mutex of the node is held
    afterwards, and [Err] on that node blocks for ever.  Given the nil error
    [cancel] panics before it takes the mutex, and leaves the heap as it
    was. *)
Theorem failed_cancel_holds_mutex range_order fuel c rm e (h h' : heap) n :
  h !! c = Some n →
  (∃ msg, cancel range_order fuel c rm e h = Panic msg h') ∨
  cancel range_order fuel c rm e h = Deadlock h' →
  match e with
  | Some _ => ∃ n', h' !! c = Some n' ∧ mu n' = true ∧ Err c h' = Deadlock h'
  | None => cancel range_order fuel c rm e h = Panic missing_cancel_error h ∧ h' = h
  end.
Proof.
  intros Hc Hfail. destruct e as [e|]; last first.
  { destruct fuel as [|fuel]; [by destruct Hfail as [[? ?]|?]|].
    cbn [cancel] in *. by destruct Hfail as [[? [= _ <-]]|[=]]. }
  assert (∃ n', h' !! c = Some n' ∧ mu n' = true) as (n' & Hc' & Hmu').
  { destruct fuel as [|fuel]; [by destruct Hfail as [[? ?]|?]|].
    rewrite cancel_unfold, Hc in Hfail.
    destruct (mu n) eqn:Hmu.
    { destruct Hfail as [[? [=]]|[= <-]]. by exists n. }
    assert (c < length h) as Hlen by (by apply lookup_lt_Some in Hc).
    destruct (done n) eqn:Hd.
    - destruct Hfail as [[? [= _ <-]]|[=]].
      eexists. split; [by apply list_lookup_insert_eq|done].
    - set (n1 := set_done ChanClosed (set_err (Some e) (set_mu true n))) in Hfail.
      assert (∀ s', store_of (for_each (range_order (kids n))
                (λ child, cancel range_order fuel child false (Some e)) (<[c := n1]> h)) = Some s' →
              s' !! c = Some n1) as Hloop.
      { intros s2. apply (for_each_store (λ s : heap, s !! c = Some n1)).
        - intros k' t t' _ Ht Et. by eapply cancel_spares_held.
        - by apply list_lookup_insert_eq. }
      destruct (for_each _ _ _) as [[] h2|msg h2|h2|] eqn:El.
      + rewrite (Hloop _ eq_refl) in Hfail. cbn in Hfail.
        by destruct Hfail as [[? [=]]|[=]].
      + destruct Hfail as [[? [= _ <-]]|[=]]. exists n1. split; [by apply Hloop|done].
      + destruct Hfail as [[? [=]]|[= <-]]. exists n1. split; [by apply Hloop|done].
      + by destruct Hfail as [[? [=]]|[=]].
    - destruct Hfail as [[? [= _ <-]]|[=]].
      eexists. split; [by apply list_lookup_insert_eq|done]. }
  exists n'. split; [done|]. split; [done|].
  destruct (heap_at _ _ _ Hc') as [Hlen E]. rewrite E at 1.
  unfold Err. erewrite bind_deadlock by (by apply Lock_held). by rewrite list_insert_id.
Qed.

Lemma failed_cancel_holds_mutex_witness :
  (∃ n', [Context None true (Some {[1]}) ChanClosed (Some Canceled) None;
          Context (Some 0) true None ChanClosed (Some Canceled) None] !! 0 = Some n' ∧
         mu n' = true ∧
         Err 0 [Context None true (Some {[1]}) ChanClosed (Some Canceled) None;
                Context (Some 0) true None ChanClosed (Some Canceled) None] =
         Deadlock [Context None true (Some {[1]}) ChanClosed (Some Canceled) None;
                   Context (Some 0) true None ChanClosed (Some Canceled) None]) ∧
  (cancel elements 2 0 true None [Context None false None ChanOpen None None] =
     Panic missing_cancel_error [Context None false None ChanOpen None None] ∧
   [Context None false None ChanOpen None None] =
     [Context None false None ChanOpen None None]).
Proof.
  split.
  - apply (failed_cancel_holds_mutex elements 2 0 true (Some Canceled)
             [Context None false (Some {[1]}) ChanOpen None None;
              Context (Some 0) false None ChanClosed (Some (OtherError "first")) None]
             _ (Context None false (Some {[1]}) ChanOpen None None)).
    + reflexivity.
    + left. exists close_of_closed. vm_compute. reflexivity.
  - apply (failed_cancel_holds_mutex elements 2 0 true None
             [Context None false None ChanOpen None None]
             [Context None false None ChanOpen None None]
             (Context None false None ChanOpen None None)).
    + reflexivity.
    + left. exists missing_cancel_error. reflexivity.
Defined.

(** X6.  After [cancel] returned, [Err] on the cancelled node, and on any
    node below it, returns the error [cancel] was given, [Done] returns a
    closed channel, and neither changes the heap: the mutexes are free
    again. *)
Theorem Err_and_Done_after_cancel range_order fuel c rm e (h h' : heap) x :
  (∀ s, range_order s ≡ₚ elements s) →
  cancel range_order fuel c rm (Some e) h = Ok tt h' →
  reaches h c x →
  Err x h' = Ok (Some e) h' ∧ Done x h' = Ok ChanClosed h'.
Proof.
  intros Hro E Hx.
  destruct (cancel_ok_below range_order Hro fuel c rm e h h' E x Hx)
    as (n & _ & _ & _ & Hn').
  destruct (heap_at _ _ _ Hn') as [Hlen E']. split.
  - rewrite E' at 1. unfold Err. do 3 hstep Hlen.
    cbn. by rewrite list_insert_id.
  - rewrite E' at 1. by rewrite Done_at, list_insert_id.
Qed.

Lemma Err_and_Done_after_cancel_witness :
  Err 1 [Context None false None ChanClosed (Some Canceled) None;
         Context (Some 0) false None ChanClosed (Some Canceled) None] =
    Ok (Some Canceled)
       [Context None false None ChanClosed (Some Canceled) None;
        Context (Some 0) false None ChanClosed (Some Canceled) None] ∧
  Done 1 [Context None false None ChanClosed (Some Canceled) None;
          Context (Some 0) false None ChanClosed (Some Canceled) None] =
    Ok ChanClosed
       [Context None false None ChanClosed (Some Canceled) None;
        Context (Some 0) false None ChanClosed (Some Canceled) None].
Proof.
  apply (Err_and_Done_after_cancel elements 2 0 true Canceled
           [Context None false (Some {[1]}) ChanOpen None None;
            Context (Some 0) false None ChanOpen None None]).
  - reflexivity.
  - vm_compute. reflexivity.
  - eapply (reaches_child _ 0 _ 1); [reflexivity | vm_compute; reflexivity |].
    constructor.
Defined.

(** ** Replicas in a tree of nodes *)

Section Register.

Variables (h : heap) (p : nodeid) (np leaf : context).
Hypothesis Hp : h !! p = Some np.
Hypothesis Hleaf : kids leaf = ∅.

Local Abbreviation h' := (registered h p np leaf).

Lemma registered_old (x : nodeid) : x ≠ p → x < length h → h' !! x = h !! x.
Proof.
  intros Hne Hlt. unfold registered.
  rewrite lookup_app_l by (by rewrite length_insert).
  by rewrite list_lookup_insert_ne.
Qed.

Lemma registered_parent :
  h' !! p = Some (set_children (Some ({[length h]} ∪ kids np)) np).
Proof using Hp.
  unfold registered. apply lookup_app_l_Some, list_lookup_insert_eq.
  by apply lookup_lt_Some in Hp.
Qed.

Lemma registered_new : h' !! (length h : nodeid) = Some leaf.
Proof.
  unfold registered.
  rewrite lookup_app_r by (by rewrite length_insert).
  by rewrite length_insert, Nat.sub_diag.
Qed.

Lemma registered_leaf x : reaches h' (length h) x → x = length h.
Proof using Hleaf.
  inversion 1 as [|? n k ? Hn Hk _]; [done|]. subst.
  rewrite registered_new in Hn. injection Hn as <-.
  rewrite Hleaf in Hk. by apply elem_of_empty in Hk.
Qed.

(** The edges of the new heap from a node of the old one. *)
Lemma registered_kids (a : nodeid) n n' k :
  h !! a = Some n → h' !! a = Some n' → k ∈ kids n' →
  k ∈ kids n ∨ (a = p ∧ k = length h).
Proof using Hp.
  intros Ha Ha' Hk. destruct (decide (a = p)) as [->|Hne].
  - rewrite registered_parent in Ha'. injection Ha' as <-.
    rewrite Hp in Ha. injection Ha as <-.
    unfold kids at 1 in Hk. cbn in Hk.
    apply elem_of_union in Hk as [->%elem_of_singleton|Hk]; [by right | by left].
  - rewrite registered_old in Ha' by (done || by apply lookup_lt_Some in Ha).
    left. congruence.
Qed.

Lemma tree_in_heap d a x : open_tree h d a → reaches h a x → x < length h.
Proof.
  intros Ht Hx. destruct (open_tree_node h d x) as (n & Hn & _).
  - by eapply open_tree_below.
  - by apply lookup_lt_Some in Hn.
Qed.

(** What can be reached in the new heap from a node of a tree of the old
    one: what could be reached before, and the new node from above [p]. *)
Lemma registered_reaches d a x :
  open_tree h d a → reaches h' a x →
  reaches h a x ∨ (x = length h ∧ reaches h a p).
Proof using Hp Hleaf.
  intros Ht Hr. revert d Ht.
  induction Hr as [|a n' k x Ha' Hk Hkx IH]; intros d Ht.
  { left. constructor. }
  destruct d as [|d]; [done|].
  pose proof Ht as (n & Ha & _ & _ & Hkids & _).
  destruct (registered_kids a n n' k Ha Ha' Hk) as [Hkn|[-> ->]].
  - destruct (IH d (Hkids k Hkn)) as [Hx|[-> Hx]].
    + left. by eapply reaches_child.
    + right. split; [done|]. by eapply reaches_child.
  - apply registered_leaf in Hkx as ->. right. split; [done|constructor].
Qed.

Lemma registered_keeps_reaches d a x :
  open_tree h d a → reaches h a x → reaches h' a x.
Proof using Hp.
  intros Ht Hr. revert d Ht.
  induction Hr as [|a n k x Ha Hk Hkx IH]; intros d Ht; [constructor|].
  destruct d as [|d]; [done|].
  pose proof Ht as (n' & Ha' & _ & _ & Hkids & _).
  rewrite Ha in Ha'. injection Ha' as <-.
  assert (a < length h) as Hlt by (by apply lookup_lt_Some in Ha).
  destruct (decide (a = p)) as [->|Hne].
  - eapply reaches_child; [apply registered_parent| |by eapply IH, Hkids].
    rewrite Hp in Ha. injection Ha as ->.
    unfold kids at 1. cbn. apply elem_of_union. by right.
  - eapply reaches_child; [by rewrite registered_old| done |by eapply IH, Hkids].
Qed.

(** Registering a new leaf keeps a tree a tree, one level deeper at most. *)
Lemma registered_tree d : ∀ a,
  mu leaf = false → done leaf = ChanOpen →
  open_tree h d a → open_tree h' (S d) a.
Proof using Hp Hleaf.
  intros a Hmul Hdl.
  assert (∀ d, open_tree h' (S d) (length h)) as Hnew.
  { intros d'. exists leaf. split; [apply registered_new|].
    do 2 (split; [done|]). rewrite Hleaf.
    split; [by intros k ?%elem_of_empty | by intros k k' x ?%elem_of_empty]. }
  revert a. induction d as [|d IH]; intros a; [done|].
  intros Ht. pose proof Ht as (n & Ha & Hmu & Hd & Hkids & Hdis).
  assert (a < length h) as Hlt by (by apply lookup_lt_Some in Ha).
  assert (∃ n', h' !! a = Some n' ∧ mu n' = false ∧ done n' = ChanOpen)
    as (n' & Ha' & Hmu' & Hd').
  { destruct (decide (a = p)) as [->|Hne].
    - eexists. split; [apply registered_parent|].
      rewrite Hp in Ha. injection Ha as ->. done.
    - exists n. by rewrite registered_old. }
  assert (∀ k, k ∈ kids n → ¬ reaches h k (length h)) as Hfresh.
  { intros k Hk Hr. eapply tree_in_heap in Hr; [lia | by apply Hkids]. }
  assert (∀ k, k ∈ kids n → ¬ (a = p ∧ reaches h k p)) as Hloop.
  { intros k Hk [-> Hr]. by eapply open_tree_acyclic in Hr. }
  exists n'. repeat (split; [done|]). split.
  - intros k Hk.
    destruct (registered_kids a n n' k Ha Ha' Hk) as [Hkn|[_ ->]]; [|apply Hnew].
    by apply IH, Hkids.
  - intros k k' x Hk Hk' Hx Hx'.
    destruct (registered_kids a n n' k Ha Ha' Hk) as [Hkn|[Hap Hkl]];
      destruct (registered_kids a n n' k' Ha Ha' Hk') as [Hkn'|[Hap' Hkl']].
    + apply (registered_reaches d) in Hx; [|by apply Hkids].
      apply (registered_reaches d) in Hx'; [|by apply Hkids].
      destruct Hx as [Hx|[Hxl Hx]], Hx' as [Hx'|[Hxl' Hx']].
      * by apply (Hdis k k' x).
      * subst x. by apply Hfresh in Hx.
      * subst x. by apply Hfresh in Hx'.
      * by apply (Hdis k k' p).
    + subst k'. apply registered_leaf in Hx' as ->.
      apply (registered_reaches d) in Hx as [Hx|[_ Hx]]; [| |by apply Hkids].
      * by apply Hfresh in Hx.
      * by destruct (Hloop k Hkn).
    + subst k. apply registered_leaf in Hx as ->.
      apply (registered_reaches d) in Hx' as [Hx'|[_ Hx']]; [| |by apply Hkids].
      * by apply Hfresh in Hx'.
      * by destruct (Hloop k' Hkn').
    + congruence.
Qed.

End Register.

(** ** Replicas in a tree *)

Lemma replicate_open range_order w c cx p np fuel :
  ctxs w !! c = Some cx → ctx_context cx = Some p →
  nodes w !! p = Some np → mu np = false → done np ≠ ChanNil → err np = None →
  replicate range_order fuel c w =
  Ok (length (ctxs w))
     (World (registered (nodes w) p np (Context (Some p) false None ChanOpen None (Some c)))
            (cursors w)
            (ctxs w ++ [set_context (Some (length (nodes w))) cx])
            (trace w)).
Proof.
  intros Hc Hctx Hp Hmu Hd He.
  assert (p < length (nodes w)) as Hlen by (by apply lookup_lt_Some in Hp).
  unfold replicate.
  rewrite (bind_ok _ _ _ _ _ (load_ctx_ok _ _ _ Hc)).
  erewrite bind_ok; [| reflexivity ].
  rewrite Hctx.
  erewrite bind_ok.
  2:{ apply on_nodes_ok. cbn [nodes set_nodes].
      apply (propagateCancel_registers_child range_order _ p _ np); try done.
      by apply lookup_app_l_Some. }
  erewrite bind_ok; [| by apply load_ctx_ok ].
  unfold alloc_ctx, registered. cbn. by rewrite insert_app_l.
Qed.

(** X7.  [replicate] keeps the cancellation tree a tree.  In a store whose
    nodes have error and [done] in step, for a request context whose node
    [p] is in a tree of open nodes below a root [r]: [replicate] returns a
    new request context with a new open node, registered below [p]; the
    nodes below [r] are a tree of open nodes still, at most one level deeper,
    with the new node in it; error and [done] are in step still. *)
Theorem replicate_keeps_tree range_order w c cx p r d fuel :
  ctxs w !! c = Some cx → ctx_context cx = Some p →
  Forall settled (nodes w) →
  open_tree (nodes w) d r → reaches (nodes w) r p →
  ∃ w', replicate range_order fuel c w = Ok (length (ctxs w)) w' ∧
        node_of w' (length (ctxs w)) =
          Some (Context (Some p) false None ChanOpen None (Some c)) ∧
        Forall settled (nodes w') ∧
        open_tree (nodes w') (S d) r ∧
        reaches (nodes w') r (length (nodes w)).
Proof.
  intros Hc Hctx Hset Ht Hr.
  destruct (open_tree_node (nodes w) d p) as (np & Hp & Hmu & Hd).
  { by eapply open_tree_below. }
  pose proof (Forall_lookup_1 _ _ _ _ Hset Hp) as [Hnil Hiff].
  assert (err np = None) as He by (by apply Hiff).
  set (leaf := Context (Some p) false None ChanOpen None (Some c)).
  eexists. split; [by eapply replicate_open|].
  cbn [nodes ctxs].
  split; [|split; [|split]].
  - unfold node_of. cbn [nodes ctxs].
    rewrite list_lookup_middle by done. cbn.
    apply (registered_new (nodes w) p np leaf).
  - unfold registered. apply Forall_app. split.
    + apply Forall_insert; [done|]. by split.
    + repeat constructor; done.
  - by apply registered_tree.
  - apply (reaches_trans _ _ p).
    + by eapply registered_keeps_reaches.
    + eapply reaches_child; [by apply registered_parent| |constructor].
      unfold kids. cbn. apply elem_of_union. left. by apply elem_of_singleton.
Qed.

Lemma replicate_keeps_tree_witness :
  ∃ w', replicate elements 0 1
          (World [Context None false (Some {[1]}) ChanOpen None (Some 0);
                  Context (Some 0) false None ChanOpen None (Some 0)]
                 [Handlers (-1) [] []]
                 [Ctx None (Some 0) (Some 0) None None (ResponseWriter None) (Some 0)
                      None None None;
                  Ctx None (Some 1) (Some 0) None None (ResponseWriter None) (Some 0)
                      None None None]
                 []) = Ok 2 w' ∧
        node_of w' 2 = Some (Context (Some 1) false None ChanOpen None (Some 1)) ∧
        Forall settled (nodes w') ∧
        open_tree (nodes w') 3 0 ∧
        reaches (nodes w') 0 2.
Proof.
  apply (replicate_keeps_tree elements
           (World [Context None false (Some {[1]}) ChanOpen None (Some 0);
                   Context (Some 0) false None ChanOpen None (Some 0)]
                  [Handlers (-1) [] []]
                  [Ctx None (Some 0) (Some 0) None None (ResponseWriter None) (Some 0)
                       None None None;
                   Ctx None (Some 1) (Some 0) None None (ResponseWriter None) (Some 0)
                       None None None]
                  [])
           1 (Ctx None (Some 1) (Some 0) None None (ResponseWriter None) (Some 0)
                  None None None) 1 0 2 0).
  - reflexivity.
  - reflexivity.
  - repeat constructor; done.
  - eexists. split; [reflexivity|]. do 2 (split; [reflexivity|]).
    unfold kids; cbn [children default id nodes]. split.
    + intros k ->%elem_of_singleton.
      eexists. split; [reflexivity|]. do 2 (split; [reflexivity|]).
      unfold kids; cbn [children default id].
      split; [by intros k ?%elem_of_empty | by intros k k' x ?%elem_of_empty].
    + by intros k k' x ->%elem_of_singleton ->%elem_of_singleton.
  - eapply (reaches_child _ 0 _ 1); [reflexivity | vm_compute; reflexivity | constructor].
Defined.

(** X8.  [Cancel] on a request context whose node is the root of a tree of
    open nodes (the request contexts replicated from it, and from those)
    returns: it has called the status hook, every node of the tree is
    cancelled with [Canceled], and nothing else in the store has changed. *)
Theorem Cancel_cancels_replica_tree range_order w c cx p d fuel :
  (∀ s, range_order s ≡ₚ elements s) →
  ctxs w !! c = Some cx → ctx_context cx = Some p →
  open_tree (nodes w) d p → d ≤ fuel →
  ∃ w', Cancel range_order fuel c w = Ok tt w' ∧
        trace w' = trace w ++ [EvPostProcess] ∧
        ctxs w' = ctxs w ∧ cursors w' = cursors w ∧
        length (nodes w') = length (nodes w) ∧
        ∀ x, (reaches (nodes w) p x →
                ∃ n, nodes w !! x = Some n ∧
                     nodes w' !! x = Some (cancelled Canceled n)) ∧
             (¬ reaches (nodes w) p x → nodes w' !! x = nodes w !! x).
Proof.
  intros Hro Hc Hctx Ht Hd.
  destruct (cancel_tree_returns range_order Hro fuel d p true Canceled (nodes w) Hd Ht)
    as [h' E].
  destruct (cancel_confined range_order Hro fuel p true (Some Canceled) (nodes w) h')
    as [Hl Hconf].
  { by rewrite E. }
  exists (set_nodes h' (set_trace (trace w ++ [EvPostProcess]) w)).
  split; [|repeat split; try done].
  - unfold Cancel.
    erewrite (bind_ok (emit EvPostProcess)); [| reflexivity ].
    erewrite bind_ok; [| by apply load_ctx_ok ].
    rewrite Hctx. by apply on_nodes_ok.
  - intros Hx.
    destruct (cancel_ok_below range_order Hro fuel p true Canceled (nodes w) h' E x Hx)
      as (n & Hn & _ & _ & Hn').
    by exists n.
  - apply Hconf.
Qed.

Lemma Cancel_cancels_replica_tree_witness :
  ∃ w', Cancel elements 2 0
          (World [Context None false (Some {[1]}) ChanOpen None (Some 0);
                  Context (Some 0) false None ChanOpen None (Some 0)]
                 [Handlers (-1) [] []]
                 [Ctx None (Some 0) (Some 0) None None (ResponseWriter None) (Some 0)
                      None None None]
                 []) = Ok tt w' ∧
        trace w' = [] ++ [EvPostProcess] ∧
        ctxs w' = [Ctx None (Some 0) (Some 0) None None (ResponseWriter None) (Some 0)
                       None None None] ∧
        cursors w' = [Handlers (-1) [] []] ∧
        length (nodes w') = 2 ∧
        ∀ x, (reaches [Context None false (Some {[1]}) ChanOpen None (Some 0);
                       Context (Some 0) false None ChanOpen None (Some 0)] 0 x →
                ∃ n, [Context None false (Some {[1]}) ChanOpen None (Some 0);
                      Context (Some 0) false None ChanOpen None (Some 0)] !! x = Some n ∧
                     nodes w' !! x = Some (cancelled Canceled n)) ∧
             (¬ reaches [Context None false (Some {[1]}) ChanOpen None (Some 0);
                         Context (Some 0) false None ChanOpen None (Some 0)] 0 x →
                nodes w' !! x =
                [Context None false (Some {[1]}) ChanOpen None (Some 0);
                 Context (Some 0) false None ChanOpen None (Some 0)] !! x).
Proof.
  apply (Cancel_cancels_replica_tree elements
           (World [Context None false (Some {[1]}) ChanOpen None (Some 0);
                   Context (Some 0) false None ChanOpen None (Some 0)]
                  [Handlers (-1) [] []]
                  [Ctx None (Some 0) (Some 0) None None (ResponseWriter None) (Some 0)
                       None None None]
                  [])
           0 (Ctx None (Some 0) (Some 0) None None (ResponseWriter None) (Some 0)
                  None None None) 0 2 2).
  - reflexivity.
  - reflexivity.
  - reflexivity.
  - eexists. split; [reflexivity|]. do 2 (split; [reflexivity|]).
    unfold kids; cbn [children default id nodes]. split.
    + intros k ->%elem_of_singleton.
      eexists. split; [reflexivity|]. do 2 (split; [reflexivity|]).
      unfold kids; cbn [children default id].
      split; [by intros k ?%elem_of_empty | by intros k k' x ?%elem_of_empty].
    + by intros k k' x ->%elem_of_singleton ->%elem_of_singleton.
  - lia.
Defined.

(** ** Error and [done] in step *)

Lemma preserves_bind {S A B} (I : S → Prop) (m : M S A) (k : A → M S B) :
  preserves I m → (∀ a, preserves I (k a)) → preserves I (bind m k).
Proof.
  intros Hm Hk s s' Hs E. unfold bind in E.
  destruct (m s) as [a s1|msg s1|s1|] eqn:Em; try done.
  - eapply Hk; [|done]. eapply Hm; [done|]. by rewrite Em.
  - eapply Hm; [done|]. by rewrite Em.
  - eapply Hm; [done|]. by rewrite Em.
Qed.

Lemma preserves_ret {S A} (I : S → Prop) (a : A) : preserves I (ret a).
Proof. intros s s' Hs [= <-]. done. Qed.

Lemma preserves_panic {S A} (I : S → Prop) msg : preserves I (panic (A := A) msg).
Proof. intros s s' Hs [= <-]. done. Qed.

Lemma preserves_deadlock {S A} (I : S → Prop) : preserves I (deadlock (A := A)).
Proof. intros s s' Hs [= <-]. done. Qed.

Lemma preserves_load (I : heap → Prop) c : preserves I (load c).
Proof. intros s s' Hs. unfold load. by destruct (s !! c); intros [= <-]. Qed.

Lemma preserves_update c f :
  (∀ n, settled n → settled (f n)) → preserves (Forall settled) (update c f).
Proof.
  intros Hf s s' Hs. unfold update, bind, load, modify.
  destruct (s !! c) as [n|] eqn:Hc; intros [= <-]; [|done].
  apply Forall_insert; [done|]. apply Hf. by eapply Forall_lookup_1.
Qed.

Lemma preserves_Lock c : preserves (Forall settled) (Lock c).
Proof.
  apply preserves_bind; [apply preserves_load|]. intros n.
  destruct (mu n); [apply preserves_deadlock | by apply preserves_update].
Qed.

Lemma preserves_Unlock c : preserves (Forall settled) (Unlock c).
Proof.
  apply preserves_bind; [apply preserves_load|]. intros n.
  destruct (mu n); [by apply preserves_update | apply preserves_panic].
Qed.

Lemma preserves_propagateCancel range_order fuel p child :
  preserves (Forall settled) (propagateCancel range_order fuel p child).
Proof.
  apply preserves_bind.
  { apply preserves_bind; [apply preserves_load | intros; apply preserves_ret]. }
  intros d.
  assert (preserves (Forall settled)
            (Lock p ;;
             n <- load p ;;
             match err n with
             | Some e => cancel range_order fuel child false (Some e)
             | None =>
               match children n with
               | None => update p (set_children (Some ∅))
               | Some _ => ret tt
               end ;;
               update p (λ n, set_children (Some ({[child]} ∪ default ∅ (children n))) n)
             end ;;
             Unlock p)) as H.
  { apply preserves_bind; [apply preserves_Lock | intros _].
    apply preserves_bind; [apply preserves_load | intros n].
    apply preserves_bind; [|intros _; apply preserves_Unlock].
    destruct (err n) as [e|].
    - intros s s'. apply cancel_keeps_settled.
    - apply preserves_bind; [|intros _; by apply preserves_update].
      destruct (children n); [apply preserves_ret | by apply preserves_update]. }
  destruct d; [apply preserves_ret | apply H | apply H].
Qed.

Lemma preserves_on_nodes {A} (I : heap → Prop) (m : M heap A) :
  preserves I m → preserves (λ w, I (nodes w)) (on_nodes m).
Proof.
  intros Hm w w' Hw. unfold on_nodes.
  destruct (m (nodes w)) as [a h|msg h|h|] eqn:Em; intros [= <-]; cbn;
    (eapply Hm; [done|]; by rewrite Em).
Qed.

Lemma preserves_load_ctx (I : world → Prop) c : preserves I (load_ctx c).
Proof. intros s s' Hs. unfold load_ctx. by destruct (ctxs s !! c); intros [= <-]. Qed.

Lemma preserves_update_ctx (I : heap → Prop) c f :
  preserves (λ w, I (nodes w)) (update_ctx c f).
Proof.
  apply preserves_bind; [apply preserves_load_ctx|].
  intros cx s s' Hs [= <-]. done.
Qed.

Lemma preserves_cursor (I : world → Prop) c : preserves I (cursor c).
Proof.
  apply preserves_bind; [apply preserves_load_ctx|]. intros cx.
  destruct (ctx_handlers cx) as [h|]; [|apply preserves_panic].
  intros s s' Hs. by destruct (cursors s !! h); intros [= <-].
Qed.

Lemma preserves_write (I : heap → Prop) c f :
  preserves (λ w, I (nodes w)) (write c f).
Proof.
  apply preserves_bind; [apply preserves_cursor|].
  intros cx s s' Hs [= <-]. done.
Qed.

(** X9.  The calls that make and cancel nodes keep the error and [done] of
    every node of the store in step, however they end: after [reset],
    [replicate] and [Cancel], also when they panic or block, [done] is nil
    in no node and the error of a node is set exactly when its [done] is
    closed. *)
Theorem request_contexts_keep_nodes_settled range_order fuel c rq rwh m w w' :
  Forall settled (nodes w) →
  store_of (reset c rq rwh m w) = Some w' ∨
  store_of (replicate range_order fuel c w) = Some w' ∨
  store_of (Cancel range_order fuel c w) = Some w' →
  Forall settled (nodes w').
Proof.
  intros Hw [E|[E|E]]; revert E; apply (λ H, H w w' Hw); clear.
  - unfold reset.
    apply preserves_bind; [apply preserves_update_ctx | intros _].
    apply preserves_bind; [apply preserves_update_ctx | intros _].
    apply preserves_bind.
    { intros s s' Hs [= <-]. cbn. apply Forall_app. split; [done|].
      repeat constructor; done. }
    intros n.
    apply preserves_bind; [apply preserves_update_ctx | intros _].
    apply preserves_bind; [by intros s s' Hs [= <-] | intros h].
    apply preserves_bind; [apply preserves_update_ctx | intros _].
    apply preserves_write.
  - unfold replicate.
    apply preserves_bind; [apply preserves_load_ctx | intros cx].
    apply preserves_bind.
    { intros s s' Hs [= <-]. cbn. apply Forall_app. split; [done|].
      repeat constructor; done. }
    intros child.
    apply preserves_bind.
    { destruct (ctx_context cx) as [p|]; [|apply preserves_panic].
      apply (preserves_on_nodes (Forall settled)), preserves_propagateCancel. }
    intros _.
    apply preserves_bind; [apply preserves_load_ctx | intros rcopy].
    by intros s s' Hs [= <-].
  - unfold Cancel.
    apply preserves_bind; [by intros s s' Hs [= <-] | intros _].
    apply preserves_bind; [apply preserves_load_ctx | intros cx].
    destruct (ctx_context cx) as [p|]; [|apply preserves_panic].
    apply (preserves_on_nodes (Forall settled)).
    intros s s'. apply cancel_keeps_settled.
Qed.

Lemma request_contexts_keep_nodes_settled_witness :
  Forall settled
    [Context None true (Some {[1]}) ChanClosed (Some Canceled) (Some 0);
     Context (Some 0) true None ChanClosed (Some Canceled) (Some 0)].
Proof.
  apply (request_contexts_keep_nodes_settled elements 2 0 None None []
           (World [Context None false (Some {[1]}) ChanOpen None (Some 0);
                   Context (Some 0) false None ChanClosed (Some Canceled) (Some 0)]
                  [Handlers (-1) [] []]
                  [Ctx None (Some 0) (Some 0) None None (ResponseWriter None) (Some 0)
                       None None None]
                  [])
           (World [Context None true (Some {[1]}) ChanClosed (Some Canceled) (Some 0);
                   Context (Some 0) true None ChanClosed (Some Canceled) (Some 0)]
                  [Handlers (-1) [] []]
                  [Ctx None (Some 0) (Some 0) None None (ResponseWriter None) (Some 0)
                       None None None]
                  [EvPostProcess])).
  - repeat constructor; done.
  - right. right. vm_compute. reflexivity.
Defined.

(** ** The life of a request context *)

Lemma run_deferred_at nd cs xs c cx h fns :
  xs !! c = Some cx → ctx_handlers cx = Some h → h < length cs →
  forallb quiet fns = true →
  ∀ ms i ds tr,
    settles (λ fuel, run_deferred fuel c fns)
      (at_cursor nd cs xs h ms i ds tr)
      (Ok tt (at_cursor nd cs xs h ms i (ds ++ deferred_pushes fns)
                (tr ++ deferred_trace fns))).
Proof.
  intros Hc Hh Hlen.
  induction fns as [|fn fns IH]; intros Hq ms i ds tr.
  - exists 0. intros fuel _. simpl. by rewrite !app_nil_r.
  - simpl in Hq. apply andb_prop in Hq as [Hfn Hq].
    unfold quiet in Hfn. apply andb_prop in Hfn as [Hn Hr].
    apply negb_true_iff in Hn.
    destruct (IH Hq ms i (ds ++ pushes_of (body fn))
                ((tr ++ [EvDeferred (name fn)]) ++ calls_of (body fn)))
      as (n & Hrun).
    exists (n + S (length (body fn))). intros fuel Hf. simpl.
    rewrite (bind_ok _ _ _ _ _ (emit_at nd cs xs h _ _ _ _ _)).
    rewrite (bind_ok _ _ _ _ _
               (invoke_quiet nd cs xs c cx h Hc Hh Hlen (body fn) fuel _ _ _ _
                             Hn Hr ltac:(lia))).
    rewrite Hrun by lia. by rewrite <- !app_assoc.
Qed.

(** [Run] from the sentinel, in full: the store it leaves. *)
Lemma Run_from_sentinel nd cs xs c cx h ms ds tr :
  xs !! c = Some cx → ctx_handlers cx = Some h → h < length cs →
  forallb (λ m, no_rerun (body m)) ms = true →
  (Z.of_nat (length ms) + reentries ms ≤ 127)%Z →
  forallb quiet (ds ++ chain_pushes ms) = true →
  settles (λ fuel, Run fuel c)
    (at_cursor nd cs xs h ms (-1) ds tr)
    (Ok tt (at_cursor nd cs xs h ms (advances ms)
              (((ds ++ [release]) ++ chain_pushes ms)
                 ++ deferred_pushes ((ds ++ [release]) ++ chain_pushes ms))
              ((tr ++ chain_trace 0 ms)
                 ++ deferred_trace ((ds ++ [release]) ++ chain_pushes ms)))).
Proof.
  intros Hc Hh Hlen Hr Hb Hq. pose proof (reentries_nonneg ms).
  assert (reach ms = ms) as E by (apply reach_small; lia).
  assert (0 ≤ int8 (Z.of_nat (length ms)))%Z as Hs0 by (rewrite int8_small; lia).
  destruct (Next_live nd cs xs c cx h Hc Hh Hlen ms ms _ eq_refl Hs0 (eq_sym E)
              (ds ++ [release]) tr Hr) as [n2 Hnext].
  { rewrite advances_reentries. lia. }
  assert (forallb quiet ((ds ++ [release]) ++ chain_pushes ms) = true) as Hq'.
  { rewrite !forallb_app in *. apply andb_prop in Hq as [-> ->]. done. }
  destruct (run_deferred_at nd cs xs c cx h ((ds ++ [release]) ++ chain_pushes ms)
              Hc Hh Hlen Hq' ms (advances ms) ((ds ++ [release]) ++ chain_pushes ms)
              (tr ++ chain_trace 0 ms)) as [n3 Hfin].
  exists (n2 `max` n3). intros fuel Hf. unfold Run.
  rewrite (bind_ok _ _ _ _ _ (push_at nd cs xs c cx h Hc Hh Hlen _ _ _ _ _)).
  rewrite (bind_ok _ _ _ _ _ (Hnext fuel ltac:(lia))).
  rewrite (bind_ok _ _ _ _ _ (read_at nd cs xs c cx h Hc Hh Hlen _ _ _ _ _)).
  cbn [deferred]. apply Hfin. lia.
Qed.

(** ** Making and binding a request context *)

Lemma insert_last {A} (l : list A) x y : <[length l := y]> (l ++ [x]) = l ++ [y].
Proof. by rewrite insert_app_r_alt, Nat.sub_diag by done. Qed.

Lemma NewCtx_ok erroror extensor rs w :
  NewCtx erroror extensor rs w =
  Ok (length (ctxs w))
     (World (nodes w) (cursors w ++ [Handlers (-1) [] []])
            (ctxs w ++ [Ctx rs None (Some (length (cursors w))) erroror extensor
                            (ResponseWriter None) (Some (length (ctxs w)))
                            None None None])
            (trace w)).
Proof.
  destruct w as [nd cs xs tr]. unfold NewCtx, emptyCtx, defaulthandlers. cbn [nodes cursors ctxs trace].
  erewrite bind_ok.
  2:{ erewrite bind_ok; reflexivity. }
  cbn [set_cursors set_ctxs nodes cursors ctxs trace].
  erewrite bind_ok; [| apply update_ctx_ok; cbn; by apply list_lookup_middle ].
  cbn [set_ctxs nodes cursors ctxs trace]. rewrite insert_last.
  erewrite bind_ok; [| apply update_ctx_ok; cbn; by apply list_lookup_middle ].
  cbn [set_ctxs nodes cursors ctxs trace]. rewrite insert_last.
  erewrite bind_ok; [| apply update_ctx_ok; cbn; by apply list_lookup_middle ].
  cbn [set_ctxs nodes cursors ctxs trace]. rewrite insert_last.
  reflexivity.
Qed.

Lemma reset_ok w c cx rq rwh m :
  ctxs w !! c = Some cx →
  reset c rq rwh m w =
  Ok tt (World (nodes w ++ [Context None false None ChanOpen None (Some c)])
               (cursors w ++ [Handlers (-1) m []])
               (<[c := set_handlers (Some (length (cursors w)))
                         (set_context (Some (length (nodes w)))
                            (set_rw (rw_reset rwh (rw cx)) (set_Request rq cx)))]>
                  (ctxs w))
               (trace w)).
Proof.
  intros Hc. assert (c < length (ctxs w)) as Hlen by (by apply lookup_lt_Some in Hc).
  destruct w as [nd cs xs tr]. simpl in *.
  unfold reset.
  erewrite bind_ok; [| by apply update_ctx_ok ].
  erewrite bind_ok; [| apply update_ctx_ok; simpl; by apply list_lookup_insert_eq ].
  erewrite bind_ok; [| reflexivity ].
  erewrite bind_ok;
    [| apply update_ctx_ok; simpl; apply list_lookup_insert_eq;
       by rewrite length_insert ].
  erewrite bind_ok; [| reflexivity ].
  erewrite bind_ok;
    [| apply update_ctx_ok; simpl; apply list_lookup_insert_eq;
       by rewrite !length_insert ].
  unfold write, cursor.
  erewrite bind_ok.
  2:{ erewrite bind_ok;
        [| apply load_ctx_ok; simpl; apply list_lookup_insert_eq;
           by rewrite !length_insert ].
      simpl. rewrite list_lookup_middle by done. reflexivity. }
  unfold modify. simpl. rewrite !list_insert_insert_eq.
  by rewrite insert_last.
Qed.

Lemma App_Ctx_ok erroror extensor rw rq rs ms w :
  App_Ctx erroror extensor rw rq rs ms w =
  Ok (length (ctxs w))
     (World (nodes w ++ [Context None false None ChanOpen None (Some (length (ctxs w)))])
            (cursors w ++ [Handlers (-1) [] []; Handlers (-1) ms []])
            (ctxs w ++ [Ctx rs (Some (length (nodes w))) (Some (S (length (cursors w))))
                            erroror extensor (ResponseWriter rw)
                            (Some (length (ctxs w))) rq None None])
            (trace w ++ [EvCall "start"])).
Proof.
  unfold App_Ctx.
  rewrite (bind_ok _ _ _ _ _ (NewCtx_ok _ _ _ _)).
  erewrite bind_ok.
  2:{ apply reset_ok. cbn. by apply list_lookup_middle. }
  cbn [nodes cursors ctxs trace]. rewrite insert_last, length_app, Nat.add_1_r.
  rewrite <- app_assoc. reflexivity.
Qed.

(** X10.  [NewCtx] makes a request context without a cancellation node: the
    new context holds a cursor at the sentinel with no handler, and points
    to its own response writer, but [Cancel] and [replicate] on it panic on
    the nil [*context] ([replicate] after it has made the child node);
    [Run] on it runs the release finalizer and nothing else.  What was in
    the store is untouched. *)
Theorem NewCtx_binds_no_node range_order erroror extensor rs w fuel :
  ∃ w', NewCtx erroror extensor rs w = Ok (length (ctxs w)) w' ∧
        nodes w' = nodes w ∧ trace w' = trace w ∧
        cursors w' = cursors w ++ [Handlers (-1) [] []] ∧
        ctxs w' = ctxs w ++ [Ctx rs None (Some (length (cursors w))) erroror extensor
                                 (ResponseWriter None) (Some (length (ctxs w)))
                                 None None None] ∧
        Cancel range_order fuel (length (ctxs w)) w' =
          Panic nil_dereference (set_trace (trace w ++ [EvPostProcess]) w') ∧
        replicate range_order fuel (length (ctxs w)) w' =
          Panic nil_dereference
            (set_nodes (nodes w ++ [Context None false None ChanOpen None
                                            (Some (length (ctxs w)))]) w') ∧
        settles (λ fuel, Run fuel (length (ctxs w))) w'
          (Ok tt (World (nodes w)
                        (cursors w ++ [Handlers 0 [] [release]])
                        (ctxs w') 
                        (trace w ++ [EvDeferred "release"; EvCall "release"]))).
Proof.
  eexists. split; [apply NewCtx_ok|]. cbn [nodes cursors ctxs trace].
  do 4 (split; [done|]).
  set (cx := Ctx rs None (Some (length (cursors w))) erroror extensor
                 (ResponseWriter None) (Some (length (ctxs w))) None None None).
  assert ((ctxs w ++ [cx]) !! (length (ctxs w) : ctxid) = Some cx) as Hc
    by (by apply list_lookup_middle).
  split; [|split].
  - unfold Cancel.
    erewrite (bind_ok (emit EvPostProcess)); [| reflexivity ].
    erewrite bind_ok; [| by apply load_ctx_ok ].
    done.
  - unfold replicate.
    erewrite bind_ok; [| by apply load_ctx_ok ].
    erewrite bind_ok; [| reflexivity ].
    done.
  - pose proof (Run_from_sentinel (nodes w) (cursors w ++ [Handlers (-1) [] []])
                  (ctxs w ++ [cx]) (length (ctxs w)) cx (length (cursors w)) [] [] (trace w)
                  Hc eq_refl) as HR.
    unfold at_cursor in HR. rewrite !insert_last in HR. cbn in HR.
    rewrite app_nil_r in HR. apply HR; try done.
    rewrite length_app. cbn. lia.
Qed.

(** X11.  The request context [App.Ctx] makes, and its [Run].  For a route
    whose handlers call [Next], [push] and extensions, with the chain length
    plus the number of [c.Next()] calls at most 127, and whose pushed
    finalizers only call extensions or [push]: [App.Ctx] returns a new
    request context with a new open node and a new cursor at the sentinel,
    bound to the route's handlers, having called the "start" extension; the
    cursor [NewCtx] had made is dropped; what was in the store is untouched.
    [Run] on that context then invokes the handlers in order and after them
    the release finalizer and the finalizers the handlers pushed. *)
Theorem App_Ctx_then_Run erroror extensor rw rq rs ms w :
  forallb (λ m, no_rerun (body m)) ms = true →
  (Z.of_nat (length ms) + reentries ms ≤ 127)%Z →
  forallb quiet (chain_pushes ms) = true →
  ∃ w1 w2,
    App_Ctx erroror extensor rw rq rs ms w = Ok (length (ctxs w)) w1 ∧
    node_of w1 (length (ctxs w)) =
      Some (Context None false None ChanOpen None (Some (length (ctxs w)))) ∧
    cursor_of w1 (length (ctxs w)) = Some (Handlers (-1) ms []) ∧
    settles (λ fuel, Run fuel (length (ctxs w))) w1 (Ok tt w2) ∧
    nodes w2 = nodes w ++ [Context None false None ChanOpen None (Some (length (ctxs w)))] ∧
    ctxs w2 = ctxs w ++ [Ctx rs (Some (length (nodes w))) (Some (S (length (cursors w))))
                             erroror extensor (ResponseWriter rw)
                             (Some (length (ctxs w))) rq None None] ∧
    cursors w2 =
      cursors w ++ [Handlers (-1) [] [];
                    Handlers (advances ms) ms
                      ((release :: chain_pushes ms)
                         ++ deferred_pushes (release :: chain_pushes ms))] ∧
    trace w2 =
      trace w ++ EvCall "start" :: chain_trace 0 ms
              ++ deferred_trace (release :: chain_pushes ms).
Proof.
  intros Hr Hb Hq.
  set (cx := Ctx rs (Some (length (nodes w))) (Some (S (length (cursors w))))
                 erroror extensor (ResponseWriter rw) (Some (length (ctxs w)))
                 rq None None).
  set (nd := nodes w ++ [Context None false None ChanOpen None (Some (length (ctxs w)))]).
  assert ((ctxs w ++ [cx]) !! (length (ctxs w) : ctxid) = Some cx) as Hc
    by (by apply list_lookup_middle).
  pose proof (Run_from_sentinel nd (cursors w ++ [Handlers (-1) [] []; Handlers (-1) ms []])
                (ctxs w ++ [cx]) (length (ctxs w)) cx (S (length (cursors w))) ms []
                (trace w ++ [EvCall "start"]) Hc eq_refl) as HR.
  assert (∀ hs, <[S (length (cursors w)) := hs]>
                  (cursors w ++ [Handlers (-1) [] []; Handlers (-1) ms []]) =
                cursors w ++ [Handlers (-1) [] []; hs]) as Hins.
  { intros hs. rewrite insert_app_r_alt by lia.
    by replace (S (length (cursors w)) - length (cursors w)) with 1 by lia. }
  unfold at_cursor in HR. rewrite !Hins in HR. cbn [app] in HR.
  subst cx nd.
  do 2 eexists. split; [apply App_Ctx_ok|].
  split; [|split; [|split]].
  - unfold node_of. cbn [nodes ctxs]. rewrite Hc. cbn. by apply list_lookup_middle.
  - unfold cursor_of. cbn [cursors ctxs]. rewrite Hc. cbn.
    rewrite lookup_app_r by lia.
    by replace (S (length (cursors w)) - length (cursors w)) with 1 by lia.
  - apply HR; try done. rewrite length_app. cbn. lia.
  - cbn [nodes ctxs cursors trace]. repeat split; try done.
    by rewrite <- !app_assoc.
Qed.

Lemma App_Ctx_then_Run_witness :
  ∃ w1 w2,
    App_Ctx None None (Some 9) (Some 7) None demo_chain (World [] [] [] []) = Ok 0 w1 ∧
    node_of w1 0 = Some (Context None false None ChanOpen None (Some 0)) ∧
    cursor_of w1 0 = Some (Handlers (-1) demo_chain []) ∧
    settles (λ fuel, Run fuel 0) w1 (Ok tt w2) ∧
    nodes w2 = [] ++ [Context None false None ChanOpen None (Some 0)] ∧
    ctxs w2 = [] ++ [Ctx None (Some 0) (Some 1) None None (ResponseWriter (Some 9))
                         (Some 0) (Some 7) None None] ∧
    cursors w2 =
      [] ++ [Handlers (-1) [] [];
             Handlers (advances demo_chain) demo_chain
               ((release :: chain_pushes demo_chain)
                  ++ deferred_pushes (release :: chain_pushes demo_chain))] ∧
    trace w2 =
      [] ++ EvCall "start" :: chain_trace 0 demo_chain
         ++ deferred_trace (release :: chain_pushes demo_chain).
Proof.
  apply (App_Ctx_then_Run None None (Some 9) (Some 7) None demo_chain (World [] [] [] [])).
  - reflexivity.
  - by vm_compute.
  - reflexivity.
Defined.

(** X12.  [Run] leaves the finalizers registered.  For a request context at
    the sentinel whose handlers call [Next], [push] and extensions, with the
    chain length plus the number of [c.Next()] calls at most 126, and whose
    finalizers (those registered before and those the handlers push) only
    call extensions: [Run] returns, and a second [Run] on the same request
    context, not reset in between, returns too; it invokes no handler, and
    runs every finalizer of the first [Run] again and the release finalizer
    twice. *)
Theorem Run_again_repeats_finalizers w c ms ds :
  cursor_of w c = Some (Handlers (-1) ms ds) →
  forallb (λ m, no_rerun (body m)) ms = true →
  (Z.of_nat (length ms) + reentries ms ≤ 126)%Z →
  forallb quiet (ds ++ chain_pushes ms) = true →
  deferred_pushes (ds ++ chain_pushes ms) = [] →
  ∃ w1 w2 t,
    settles (λ fuel, Run fuel c) w (Ok tt w1) ∧
    settles (λ fuel, Run fuel c) w1 (Ok tt w2) ∧
    trace w2 = trace w1 ++ t ∧
    managed t = [] ∧
    finalized t = map name (ds ++ [release] ++ chain_pushes ms ++ [release]).
Proof.
  intros Hw Hr Hb Hq Hp. pose proof (reentries_nonneg ms).
  destruct (cursor_of_Some _ _ _ Hw) as (cx & h & Hc & Hh & Hlen & Ew).
  cbn [managers index deferred] in Ew.
  assert (deferred_pushes ((ds ++ [release]) ++ chain_pushes ms) = []) as Hp1.
  { revert Hp. clear. induction ds as [|d ds IH]; simpl.
    - done.
    - intros Hp. apply app_eq_nil in Hp as [-> Hp]. by rewrite IH. }
  assert (forallb quiet ((ds ++ [release]) ++ chain_pushes ms) = true) as Hq1.
  { rewrite !forallb_app in *. apply andb_prop in Hq as [-> ->]. done. }
  pose proof (Run_from_sentinel (nodes w) (cursors w) (ctxs w) c cx h ms ds (trace w)
                Hc Hh Hlen Hr ltac:(lia) Hq) as H1.
  rewrite Hp1, app_nil_r in H1.
  set (DS := (ds ++ [release]) ++ chain_pushes ms) in *.
  set (T1 := (trace w ++ chain_trace 0 ms) ++ deferred_trace DS) in *.
  assert (0 ≤ int8 (Z.of_nat (length ms)))%Z as Hs0 by (rewrite int8_small; lia).
  assert (forallb quiet (DS ++ [release]) = true) as Hq2.
  { rewrite forallb_app, Hq1. done. }
  destruct (run_deferred_at (nodes w) (cursors w) (ctxs w) c cx h (DS ++ [release])
              Hc Hh Hlen Hq2 ms (advances ms + 1)%Z (DS ++ [release]) T1) as [n3 Hfin].
  exists (at_cursor (nodes w) (cursors w) (ctxs w) h ms (advances ms) DS T1).
  eexists. exists (deferred_trace (DS ++ [release])).
  split; [by rewrite Ew at 1|]. split; [|split; [|split]].
  - assert (int8 (Z.of_nat (length ms)) ≤ advances ms + 1 ≤ 127)%Z as Hi.
    { rewrite int8_small by lia. pose proof (advances_ge ms).
      rewrite advances_reentries in *. lia. }
    exists (2 `max` n3). intros fuel Hf. unfold Run.
    rewrite (bind_ok _ _ _ _ _ (push_at _ _ _ c cx h Hc Hh Hlen _ _ _ _ _)).
    rewrite (bind_ok _ _ _ _ _
               (Next_exhausted _ _ _ c cx h Hc Hh Hlen ms _ eq_refl fuel (advances ms)
                  (DS ++ [release]) T1 Hi ltac:(lia))).
    rewrite (bind_ok _ _ _ _ _ (read_at _ _ _ c cx h Hc Hh Hlen _ _ _ _ _)).
    cbn [deferred]. apply Hfin. lia.
  - done.
  - apply managed_deferred_trace.
  - rewrite finalized_deferred_trace. unfold DS. by rewrite <- !app_assoc.
Qed.

Lemma Run_again_repeats_finalizers_witness :
  ∃ w1 w2 t,
    settles (λ fuel, Run fuel 0) (started demo_chain) (Ok tt w1) ∧
    settles (λ fuel, Run fuel 0) w1 (Ok tt w2) ∧
    trace w2 = trace w1 ++ t ∧
    managed t = [] ∧
    finalized t = map name ([] ++ [release] ++ chain_pushes demo_chain ++ [release]).
Proof.
  apply (Run_again_repeats_finalizers (started demo_chain) 0 demo_chain []).
  - reflexivity.
  - reflexivity.
  - by vm_compute.
  - reflexivity.
  - reflexivity.
Defined.

(** The bound is sharp.  After [Run] on a chain of 127 handlers the index
    stands at 127; a second [Run] wraps it to -128 and panics reading
    [c.managers[-128]], before any finalizer runs again. *)
Lemma second_Run_after_127_handlers_panics :
  let ms := repeat (MkManage "h" []) 127 in
  ∃ w1 w2,
    settles (λ fuel, Run fuel 0) (started ms) (Ok tt w1) ∧
    settles (λ fuel, Run fuel 0) w1 (Panic index_out_of_range w2) ∧
    cursor_of w2 0 = Some (Handlers (-128) ms [release; release]) ∧
    finalized (trace w2) = ["release"].
Proof.
  intros ms. do 2 eexists. split; [|split; [|split]].
  - apply (settles_at _ 400); [apply Run_fuel | vm_compute; reflexivity | done].
  - apply (settles_at _ 400); [apply Run_fuel | vm_compute; reflexivity | done].
  - by vm_compute.
  - by vm_compute.
Qed.

(** ** [Value], and nodes that cannot be cancelled *)

(** X13.  [Value] on the node of a replica gives the request context the
    replica was made from, not the replica: [replicate] on a request context
    [c] whose node is open and not cancelled returns a new request context,
    other than [c], on whose node [Value] returns [c]; after [reset] on [c],
    [Value] on the node of [c] returns [c] itself. *)
Theorem replica_Value_is_original range_order w c cx p np fuel rq rwh m :
  ctxs w !! c = Some cx → ctx_context cx = Some p →
  nodes w !! p = Some np → mu np = false → done np ≠ ChanNil → err np = None →
  (∃ w' r cr n,
     replicate range_order fuel c w = Ok r w' ∧ r ≠ c ∧
     ctxs w' !! r = Some cr ∧ ctx_context cr = Some n ∧
     Value n (nodes w') = Ok (Some c) (nodes w')) ∧
  (∃ w' cr n,
     reset c rq rwh m w = Ok tt w' ∧
     ctxs w' !! c = Some cr ∧ ctx_context cr = Some n ∧
     Value n (nodes w') = Ok (Some c) (nodes w')).
Proof.
  intros Hc Hctx Hp Hmu Hd He.
  assert (c < length (ctxs w)) as Hlen by (by apply lookup_lt_Some in Hc).
  split.
  - eexists _, (length (ctxs w)), _, (length (nodes w)).
    split; [by eapply replicate_open|]. cbn [ctxs nodes].
    split; [lia|]. split; [by apply list_lookup_middle|]. split; [done|].
    unfold Value, load, bind, ret, registered.
    rewrite lookup_app_r by (by rewrite length_insert).
    by rewrite length_insert, Nat.sub_diag.
  - eexists _, _, (length (nodes w)).
    split; [by apply reset_ok|]. cbn [ctxs nodes].
    split; [by apply list_lookup_insert_eq|]. split; [done|].
    unfold Value, load, bind, ret. by rewrite list_lookup_middle.
Qed.

Lemma replica_Value_is_original_witness :
  (∃ w' r cr n,
     replicate elements 1 0 (started demo_chain) = Ok r w' ∧ r ≠ 0 ∧
     ctxs w' !! r = Some cr ∧ ctx_context cr = Some n ∧
     Value n (nodes w') = Ok (Some 0) (nodes w')) ∧
  (∃ w' cr n,
     reset 0 (Some 7) (Some 9) [] (started demo_chain) = Ok tt w' ∧
     ctxs w' !! 0 = Some cr ∧ ctx_context cr = Some n ∧
     Value n (nodes w') = Ok (Some 0) (nodes w')).
Proof.
  apply (replica_Value_is_original elements (started demo_chain) 0
           (Ctx None (Some 0) (Some 1) None None (ResponseWriter None) (Some 0)
                None None None)
           0 (Context None false None ChanOpen None (Some 0)) 1 (Some 7) (Some 9) []);
    first [reflexivity | discriminate].
Defined.



(** * Cookies *)

Lemma occurs_app c s t : occurs c (s +:+ t) = occurs c s + occurs c t.
Proof. induction s as [|a s IH]; simpl; [done|]. rewrite IH. lia. Qed.

Lemma occurs_replace_bytes c f s :
  (∀ a, f a ≠ c) → occurs c (replace_bytes f s) = 0.
Proof.
  intros Hf. induction s as [|a s IH]; simpl; [done|].
  rewrite IH. by destruct (decide (f a = c)); [destruct (Hf a)|].
Qed.

Lemma occurs_name c s :
  c = LF ∨ c = CR → occurs c (cNameSanitizer s) = 0.
Proof.
  intros Hc. apply occurs_replace_bytes. intros a.
  repeat case_decide; destruct Hc; subst; try done; congruence.
Qed.

Lemma occurs_value c s :
  c = LF ∨ c = CR ∨ c = ";"%char → occurs c (cValueSanitizer s) = 0.
Proof.
  intros Hc. apply occurs_replace_bytes. intros a.
  repeat case_decide; destruct Hc as [|[|]]; subst; try done; congruence.
Qed.

(** The name sanitizer leaves semicolons where they are. *)
Lemma occurs_name_semicolon s :
  occurs ";" (cNameSanitizer s) = occurs ";" s.
Proof.
  induction s as [|a s IH]; simpl; [done|]. unfold cNameSanitizer in IH. rewrite IH.
  repeat case_decide; subst; try done.
Qed.

Lemma occurs_uint c d :
  ¬ is_digit c → occurs c (NilEmpty.string_of_uint d) = 0.
Proof.
  intros Hc. unfold is_digit in Hc.
  induction d as [|d IH|d IH|d IH|d IH|d IH|d IH|d IH|d IH|d IH|d IH]; simpl;
    [done|..]; rewrite IH; case_decide; try done; subst; destruct Hc;
    repeat first [apply list_elem_of_here | apply list_elem_of_further].
Qed.

Lemma occurs_FormatInt c z :
  ¬ is_digit c → c ≠ "-"%char → occurs c (FormatInt z) = 0.
Proof.
  intros Hc Hm. unfold FormatInt, NilZero.string_of_int, NilZero.string_of_uint.
  assert (occurs c "0" = 0) as H0.
  { simpl. case_decide; [|done]. subst. destruct Hc. apply list_elem_of_here. }
  destruct (Z.to_int z) as [d|d]; simpl.
  - destruct d; try by apply (occurs_uint c _ Hc). done.
  - case_decide; [by subst|].
    destruct d; try by apply (occurs_uint c _ Hc). done.
Qed.

(** *** [SplitN] *)

Lemma cut_None sep s : occurs sep s = 0 → cut sep s = None.
Proof.
  induction s as [|a s IH]; simpl; [done|].
  case_decide; [done|]. intros Hs. by rewrite IH.
Qed.

Lemma cut_None_inv sep s : cut sep s = None → occurs sep s = 0.
Proof.
  induction s as [|a s IH]; simpl; [done|].
  case_decide; [done|]. destruct (cut sep s) as [[]|]; [done|]. intros _. by rewrite IH.
Qed.

Lemma cut_Some sep s a b :
  cut sep s = Some (a, b) →
  s = a +:+ String sep b ∧ occurs sep a = 0 ∧ occurs sep s = S (occurs sep b).
Proof.
  revert a. induction s as [|c s IH]; intros a; simpl; [done|].
  case_decide as Hc.
  - intros [= <- <-]. by subst.
  - destruct (cut sep s) as [[a' b']|]; [|done]. intros [= <- <-].
    destruct (IH a' eq_refl) as (-> & Ha & Hs). simpl.
    rewrite decide_False by done. by rewrite Ha, <- Hs.
Qed.

Lemma cut_app sep a b :
  occurs sep a = 0 → cut sep (a +:+ String sep b) = Some (a, b).
Proof.
  induction a as [|c a IH]; simpl.
  - by rewrite decide_True.
  - case_decide; [done|]. intros Ha. by rewrite IH.
Qed.

Lemma SplitN_join sep a b c :
  occurs sep a = 0 → occurs sep b = 0 →
  SplitN (a +:+ String sep (b +:+ String sep c)) sep 3 = [a; b; c].
Proof. intros Ha Hb. simpl. by rewrite !cut_app. Qed.

Lemma SplitN_few sep s :
  occurs sep s < 2 → length (SplitN s sep 3) < 3.
Proof.
  intros H. simpl. destruct (cut sep s) as [[a b]|] eqn:E; [|simpl; lia].
  apply cut_Some in E as (_ & _ & E).
  rewrite cut_None by lia. simpl. lia.
Qed.

(** *** [basiccookie] *)

Lemma not_digit c :
  c ∉ ["0"; "1"; "2"; "3"; "4"; "5"; "6"; "7"; "8"; "9"]%char → ¬ is_digit c.
Proof. done. Qed.

(** The occurrences of a byte that the sanitizer of values removes and
    that is not in a decimal number: they come from the name and from the
    text [basiccookie] writes itself. *)
Lemma basiccookie_occurs c name value opts :
  c = LF ∨ c = CR ∨ c = ";"%char →
  occurs c (basiccookie name value opts) ≤
    occurs c (cNameSanitizer name) + occurs c "="
    + from_option (λ _, occurs c "; Max-Age=") 0 (opts !! 0)
    + from_option (λ _, occurs c "; Path=") 0 (opts !! 1)
    + from_option (λ _, occurs c "; Domain=") 0 (opts !! 2)
    + from_option (λ _, occurs c "; Secure") 0 (opts !! 3)
    + from_option (λ _, occurs c "; HttpOnly") 0 (opts !! 4).
Proof.
  intros Hc.
  assert (¬ is_digit c ∧ c ≠ "-"%char) as [Hd Hm].
  { split; [apply not_digit|]; destruct Hc as [->|[->| ->]]; try done;
      intros H; repeat (apply elem_of_cons in H as [H|H]; [done|]);
      by apply elem_of_nil in H. }
  assert (occurs c "0" = 0) as H0.
  { simpl. rewrite decide_False; [done|]. intros <-. apply Hd. by left. }
  unfold basiccookie.
  set (b0 := cNameSanitizer name +:+ "=" +:+ cValueSanitizer value).
  assert (occurs c b0 = occurs c (cNameSanitizer name) + occurs c "=") as E0.
  { unfold b0. rewrite !occurs_app, occurs_value by done. lia. }
  clearbody b0.
  set (b1 := match opts !! 0 with Some (VInt _) => _ | _ => b0 end).
  assert (occurs c b1 ≤ occurs c b0 + from_option (λ _, occurs c "; Max-Age=") 0 (opts !! 0))
    as H1.
  { unfold b1. destruct (opts !! 0) as [[z|s|b|]|]; cbn [from_option]; try lia.
    destruct (0 <? z)%Z.
    - rewrite !occurs_app, occurs_FormatInt by done. lia.
    - change "; Max-Age=0" with ("; Max-Age=" +:+ "0"). rewrite !occurs_app, H0. lia. }
  clearbody b1.
  set (b2 := match opts !! 1 with Some (VString _) => _ | _ => b1 end).
  assert (occurs c b2 ≤ occurs c b1 + from_option (λ _, occurs c "; Path=") 0 (opts !! 1))
    as H2.
  { unfold b2. destruct (opts !! 1) as [[z|s|b|]|]; cbn [from_option]; try lia.
    destruct (0 <? String.length s); rewrite ?occurs_app, ?occurs_value by done; lia. }
  clearbody b2.
  set (b3 := match opts !! 2 with Some (VString _) => _ | _ => b2 end).
  assert (occurs c b3 ≤ occurs c b2 + from_option (λ _, occurs c "; Domain=") 0 (opts !! 2))
    as H3.
  { unfold b3. destruct (opts !! 2) as [[z|s|b|]|]; cbn [from_option]; try lia.
    destruct (0 <? String.length s); rewrite ?occurs_app, ?occurs_value by done; lia. }
  clearbody b3.
  set (b4 := if match opts !! 3 with Some (VBool opt) => opt | _ => false end
             then _ else b3).
  assert (occurs c b4 ≤ occurs c b3 + from_option (λ _, occurs c "; Secure") 0 (opts !! 3))
    as H4.
  { unfold b4. destruct (opts !! 3) as [[z|s|[]|]|]; cbn [from_option];
      rewrite ?occurs_app; lia. }
  clearbody b4.
  set (b5 := if match opts !! 4 with Some (VBool opt) => opt | _ => false end
             then _ else b4).
  assert (occurs c b5 ≤ occurs c b4 + from_option (λ _, occurs c "; HttpOnly") 0 (opts !! 4))
    as H5.
  { unfold b5. destruct (opts !! 4) as [[z|s|[]|]|]; cbn [from_option];
      rewrite ?occurs_app; lia. }
  clearbody b5. lia.
Qed.

(** X15.  The header [basiccookie] writes cannot be broken by its
    arguments: it holds no line feed and no carriage return, whatever the
    name, the value and the options; and the semicolons in it are those of the
    name (which is not cleared of them) and at most one for each of the five
    options: the value, the path and the domain add none. *)
Theorem basiccookie_keeps_header_whole name value opts :
  occurs LF (basiccookie name value opts) = 0 ∧
  occurs CR (basiccookie name value opts) = 0 ∧
  occurs ";" (basiccookie name value opts) ≤ occurs ";" name + length opts `min` 5.
Proof.
  assert (∀ (c : ascii) (n : nat) i,
            from_option (λ _ : iface, n) 0 (opts !! i) =
            if decide (i < length opts) then n else 0) as Hi.
  { intros c n i. destruct (opts !! i) eqn:E; cbn [from_option].
    - apply lookup_lt_Some in E. by rewrite decide_True.
    - apply lookup_ge_None in E. rewrite decide_False; [done|lia]. }
  split; [|split].
  - pose proof (basiccookie_occurs LF name value opts) as H.
    rewrite occurs_name in H by auto.
    assert (∀ i n, from_option (λ _ : iface, n) 0 (opts !! i) ≤ n) as Hle.
    { intros i n. destruct (opts !! i); cbn; lia. }
    pose proof (Hle 0 (occurs LF "; Max-Age=")). pose proof (Hle 1 (occurs LF "; Path=")).
    pose proof (Hle 2 (occurs LF "; Domain=")). pose proof (Hle 3 (occurs LF "; Secure")).
    pose proof (Hle 4 (occurs LF "; HttpOnly")).
    change (occurs LF "; Max-Age=") with 0 in *. change (occurs LF "; Path=") with 0 in *.
    change (occurs LF "; Domain=") with 0 in *. change (occurs LF "; Secure") with 0 in *.
    change (occurs LF "; HttpOnly") with 0 in *. change (occurs LF "=") with 0 in *.
    specialize (H ltac:(auto)). lia.
  - pose proof (basiccookie_occurs CR name value opts) as H.
    rewrite occurs_name in H by auto.
    assert (∀ i n, from_option (λ _ : iface, n) 0 (opts !! i) ≤ n) as Hle.
    { intros i n. destruct (opts !! i); cbn; lia. }
    pose proof (Hle 0 (occurs CR "; Max-Age=")). pose proof (Hle 1 (occurs CR "; Path=")).
    pose proof (Hle 2 (occurs CR "; Domain=")). pose proof (Hle 3 (occurs CR "; Secure")).
    pose proof (Hle 4 (occurs CR "; HttpOnly")).
    change (occurs CR "; Max-Age=") with 0 in *. change (occurs CR "; Path=") with 0 in *.
    change (occurs CR "; Domain=") with 0 in *. change (occurs CR "; Secure") with 0 in *.
    change (occurs CR "; HttpOnly") with 0 in *. change (occurs CR "=") with 0 in *.
    specialize (H ltac:(auto)). lia.
  - pose proof (basiccookie_occurs ";" name value opts ltac:(auto)) as H.
    rewrite occurs_name_semicolon in H.
    change (occurs ";" "; Max-Age=") with 1 in H. change (occurs ";" "; Path=") with 1 in H.
    change (occurs ";" "; Domain=") with 1 in H. change (occurs ";" "; Secure") with 1 in H.
    change (occurs ";" "; HttpOnly") with 1 in H. change (occurs ";" "=") with 0 in H.
    rewrite !(Hi ";"%char) in H. repeat case_decide; lia.
Qed.

(** *** [cookies] *)

Lemma cookies_snoc cs ck : cookies (cs ++ [ck]) = <[http.Name ck := ck]> (cookies cs).
Proof. unfold cookies. by rewrite foldl_app. Qed.

Lemma cookies_lookup cs n :
  cookies cs !! n = last (filter (λ ck, http.Name ck = n) cs).
Proof.
  induction cs as [|ck cs IH] using rev_ind; [done|].
  rewrite cookies_snoc, filter_app.
  destruct (decide (http.Name ck = n)) as [<-|Hne].
  - rewrite lookup_insert_eq. rewrite filter_cons_True by done.
    rewrite filter_nil. by rewrite last_snoc.
  - rewrite lookup_insert_ne by done. rewrite filter_cons_False by done.
    by rewrite filter_nil, app_nil_r.
Qed.

(** X16.  [cookies] maps a name to the last of the request's cookies of that
    name: a cookie sent twice is read as its last occurrence, and a name the
    request does not carry is not in the map. *)
Theorem cookies_keeps_last_of_each_name cs n :
  cookies cs !! n = last (filter (λ ck, http.Name ck = n) cs).
Proof. apply cookies_lookup. Qed.

Section CookieFacts.

Variable StoreItem : Type.
Variable item_Value : StoreItem → string.
Variable Call_store : string → dyn StoreItem * option error.
Variable hmac_hex : string → string.
Variables b64encode b64decode : string → string.

Local Abbreviation unpack := (unpackcookie StoreItem item_Value Call_store hmac_hex b64decode).

Lemma unpack_signed it name vs ts sig :
  Call_store "SECRET_KEY" = (DynStoreItem StoreItem (Some it), None) →
  occurs "|" vs = 0 → occurs "|" ts = 0 →
  unpack (http.MkCookie name (vs +:+ "|" +:+ ts +:+ "|" +:+ sig)) tt =
  if decide (hmac_hex (item_Value it) = sig) then Ok (b64decode vs) tt else Ok "" tt.
Proof.
  intros Hs Hv Ht. unfold unpackcookie. cbn [http.Value].
  rewrite decide_False by (by destruct vs).
  change (vs +:+ "|" +:+ ts +:+ "|" +:+ sig)
    with (vs +:+ String "|" (ts +:+ String "|" sig)).
  rewrite SplitN_join by done.
  unfold CheckStore. rewrite Hs. unfold bind, ret.
  by case_decide.
Qed.

(** X17.  A value [securevalue] has signed is read back by [unpackcookie]
    under the same secret; but the signature is the HMAC of the empty
    message, it covers neither the value nor the time: with the signature of
    one signed value, any other value and time pass the check and are read
    back as if signed. *)
Theorem signature_covers_no_value it name now value :
  Call_store "SECRET_KEY" = (DynStoreItem StoreItem (Some it), None) →
  occurs "|" (b64encode value) = 0 →
  b64decode (b64encode value) = value →
  ∃ sig,
    SplitN (securevalue hmac_hex b64encode now (item_Value it) value) "|" 3 =
      [b64encode value; FormatInt now; sig] ∧
    unpack (http.MkCookie name (securevalue hmac_hex b64encode now (item_Value it) value)) tt =
      Ok value tt ∧
    ∀ forged ts,
      occurs "|" forged = 0 → occurs "|" ts = 0 →
      unpack (http.MkCookie name (forged +:+ "|" +:+ ts +:+ "|" +:+ sig)) tt =
        Ok (b64decode forged) tt.
Proof.
  intros Hs Hv Hd.
  assert (occurs "|" (FormatInt now) = 0) as Ht.
  { apply occurs_FormatInt; [|done]. unfold is_digit. intros H.
    repeat (apply elem_of_cons in H as [H|H]; [done|]). by apply elem_of_nil in H. }
  exists (hmac_hex (item_Value it)). split; [|split].
  - unfold securevalue.
    change (b64encode value +:+ "|" +:+ FormatInt now +:+ "|" +:+ hmac_hex (item_Value it))
      with (b64encode value +:+ String "|" (FormatInt now +:+ String "|" (hmac_hex (item_Value it)))).
    by apply SplitN_join.
  - unfold securevalue. rewrite (unpack_signed it) by done.
    rewrite decide_True by done. by rewrite Hd.
  - intros forged ts Hf Hts. rewrite (unpack_signed it) by done.
    by rewrite decide_True.
Qed.

(** X18.  [unpackcookie] hands back as it is a value that is empty or holds
    fewer than two bars, without looking at the store: a value that was
    never signed, or whose signature was cut off, is read as a plain one. *)
Theorem unpackcookie_passes_plain_values ck :
  occurs "|" (http.Value ck) < 2 →
  unpack ck tt = Ok (http.Value ck) tt.
Proof.
  intros H. unfold unpackcookie. case_decide; [done|].
  pose proof (SplitN_few "|" (http.Value ck) H) as Hl.
  destruct (SplitN (http.Value ck) "|" 3) as [|a [|b [|c [|d l]]]]; try done.
  simpl in Hl. lia.
Qed.

End CookieFacts.

(** ** Reading all the cookies of a request *)

Section ReadCookies.

Variable StoreItem : Type.
Variable item_Value : StoreItem → string.
Variable Call_store : string → dyn StoreItem * option error.
Variable hmac_hex : string → string.
Variables b64decode : string → string.

Local Abbreviation unpack := (unpackcookie StoreItem item_Value Call_store hmac_hex b64decode).

(** With a store that answers with an item or with an error, [unpackcookie]
    returns. *)
Lemma unpack_returns ck :
  (∃ it, Call_store "SECRET_KEY" = (DynStoreItem StoreItem (Some it), None)) ∨
  (∃ d e, Call_store "SECRET_KEY" = (d, Some e)) →
  ∃ v, unpack ck tt = Ok v tt.
Proof.
  intros Hs. unfold unpackcookie. case_decide; [by eexists|].
  destruct (SplitN (http.Value ck) "|" 3) as [|a [|b [|c [|d l]]]]; try by eexists.
  unfold CheckStore, bind, ret.
  destruct Hs as [[it ->]|(d & e & ->)].
  - case_decide; by eexists.
  - by eexists.
Qed.

Lemma unpack_each_lookup l : ∀ acc,
  (∀ k ck, (k, ck) ∈ l → ∃ v, unpack ck tt = Ok v tt) →
  NoDup (l.*1) →
  ∃ m, unpack_each StoreItem item_Value Call_store hmac_hex b64decode l acc tt = Ok m tt ∧
       ∀ k v, m !! k = Some v ↔
              (∃ ck, (k, ck) ∈ l ∧ unpack ck tt = Ok v tt) ∨
              ((k ∉ l.*1) ∧ acc !! k = Some v).
Proof.
  induction l as [|[k0 ck0] l IH]; intros acc Hl Hnd.
  - exists acc. split; [done|]. intros k v. split.
    + intros H. right. split; [|done]. by intros ?%elem_of_nil.
    + intros [(ck & H & _)|[_ H]]; [by apply elem_of_nil in H | done].
  - cbn in Hnd. apply NoDup_cons in Hnd as [Hk0 Hnd].
    destruct (Hl k0 ck0) as [v0 Hv0]; [by left|].
    destruct (IH (<[k0 := v0]> acc)) as (m & Hm & Hlook); [|done|].
    { intros k ck H. apply (Hl k). by right. }
    exists m. split.
    { cbn [unpack_each]. by rewrite (bind_ok _ _ _ _ _ Hv0). }
    intros k v. rewrite Hlook. split.
    + intros [(ck & Hin & Hv)|[Hk Hacc]].
      * left. exists ck. split; [by right | done].
      * destruct (decide (k = k0)) as [->|Hne].
        -- rewrite lookup_insert_eq in Hacc. injection Hacc as <-.
           left. exists ck0. split; [by left | done].
        -- rewrite lookup_insert_ne in Hacc by done. right. split; [|done].
           cbn. by intros [?|?]%elem_of_cons.
    + intros [(ck & Hin & Hv)|[Hk Hacc]].
      * apply elem_of_cons in Hin as [[= -> ->]|Hin].
        -- right. split; [done|]. rewrite lookup_insert_eq. congruence.
        -- left. by exists ck.
      * cbn in Hk. apply not_elem_of_cons in Hk as [Hne Hk].
        right. split; [done|]. by rewrite lookup_insert_ne.
Qed.

(** X19.  [readcookies] reads the last cookie of each name, in whatever
    order the map is ranged over: with a store that answers "SECRET_KEY"
    with an item or with an error, it returns a map that holds under a name
    what [unpackcookie] makes of the last of the request's cookies of that
    name, and nothing under other names. *)
Theorem readcookies_reads_last_of_each_name range_order cs :
  (∀ m : gmap string http.Cookie, range_order m ≡ₚ map_to_list m) →
  (∃ it, Call_store "SECRET_KEY" = (DynStoreItem StoreItem (Some it), None)) ∨
  (∃ d e, Call_store "SECRET_KEY" = (d, Some e)) →
  ∃ m, readcookies StoreItem item_Value Call_store hmac_hex b64decode range_order cs tt
         = Ok m tt ∧
       ∀ n v, m !! n = Some v ↔
              ∃ ck, last (filter (λ ck, http.Name ck = n) cs) = Some ck ∧
                    unpack ck tt = Ok v tt.
Proof.
  intros Hro Hs. unfold readcookies.
  destruct (unpack_each_lookup (range_order (cookies cs)) ∅) as (m & Hm & Hlook).
  { intros k ck _. by apply unpack_returns. }
  { rewrite Hro. apply NoDup_fst_map_to_list. }
  exists m. split; [done|]. intros n v. rewrite Hlook. split.
  - intros [(ck & Hin & Hv)|[_ H]]; [|done].
    exists ck. split; [|done].
    rewrite Hro in Hin. apply elem_of_map_to_list in Hin.
    by rewrite <- cookies_lookup.
  - intros (ck & Hlast & Hv). left. exists ck. split; [|done].
    rewrite Hro. apply elem_of_map_to_list. by rewrite cookies_lookup.
Qed.

(** X20.  Without a secret [unpackcookie] answers in band: when the store
    has no "SECRET_KEY" (the call returns an error), a value with two bars
    or more is read as the text "cookie value could not be read and/or
    unpacked", whatever was signed and however. *)
Theorem unpackcookie_without_secret_answers_in_band d e ck :
  Call_store "SECRET_KEY" = (d, Some e) →
  2 ≤ occurs "|" (http.Value ck) →
  unpack ck tt = Ok unreadable tt.
Proof.
  intros Hs H. unfold unpackcookie.
  rewrite decide_False by (intros E; rewrite E in H; simpl in H; lia).
  simpl. destruct (cut "|" (http.Value ck)) as [[a b]|] eqn:E1.
  2:{ destruct (occurs "|" (http.Value ck)) eqn:E0; [lia|]. 
      apply cut_None_inv in E1. lia. }
  apply cut_Some in E1 as (_ & _ & E1).
  destruct (cut "|" b) as [[b1 c]|] eqn:E2.
  2:{ apply cut_None_inv in E2. lia. }
  unfold CheckStore, bind, ret. by rewrite Hs.
Qed.

End ReadCookies.

(** ** Examples with a store and an encoding *)

Lemma b64_examples :
  b64_encode "user=42" = "dXNlcj00Mg==" ∧ b64_decode "dXNlcj00Mg==" = "user=42" ∧
  b64_encode "ab" = "YWI=" ∧ b64_decode "YWI=" = "ab" ∧
  b64_encode "abc" = "YWJj" ∧ b64_decode "YWJj" = "abc".
Proof. repeat split; vm_compute; reflexivity. Qed.

Lemma signature_covers_no_value_witness :
  ∃ sig,
    SplitN (securevalue example_hmac_hex b64_encode 1446300000000000000 "s3cret" "user=42")
           "|" 3 =
      [b64_encode "user=42"; FormatInt 1446300000000000000; sig] ∧
    unpackcookie string id example_store example_hmac_hex b64_decode
      (http.MkCookie "session"
         (securevalue example_hmac_hex b64_encode 1446300000000000000 "s3cret" "user=42"))
      tt = Ok "user=42" tt ∧
    ∀ forged ts,
      occurs "|" forged = 0 → occurs "|" ts = 0 →
      unpackcookie string id example_store example_hmac_hex b64_decode
        (http.MkCookie "session" (forged +:+ "|" +:+ ts +:+ "|" +:+ sig)) tt =
        Ok (b64_decode forged) tt.
Proof.
  apply (signature_covers_no_value string id example_store example_hmac_hex
           b64_encode b64_decode "s3cret" "session" 1446300000000000000 "user=42").
  - reflexivity.
  - vm_compute. reflexivity.
  - vm_compute. reflexivity.
Defined.

Lemma unpackcookie_passes_plain_values_witness :
  unpackcookie string id example_store example_hmac_hex b64_decode
    (http.MkCookie "theme" "dark|wide") tt = Ok "dark|wide" tt.
Proof.
  apply (unpackcookie_passes_plain_values string id example_store example_hmac_hex
           b64_decode (http.MkCookie "theme" "dark|wide")).
  vm_compute. lia.
Defined.

Lemma readcookies_reads_last_of_each_name_witness :
  ∃ m, readcookies string id example_store example_hmac_hex b64_decode map_to_list
         [http.MkCookie "theme" "dark"; http.MkCookie "lang" "en"; http.MkCookie "theme" "light"] tt
         = Ok m tt ∧
       ∀ n v, m !! n = Some v ↔
              ∃ ck, last (filter (λ ck, http.Name ck = n)
                            [http.MkCookie "theme" "dark"; http.MkCookie "lang" "en";
                             http.MkCookie "theme" "light"]) = Some ck ∧
                    unpackcookie string id example_store example_hmac_hex b64_decode ck tt
                      = Ok v tt.
Proof.
  apply (readcookies_reads_last_of_each_name string id example_store example_hmac_hex
           b64_decode map_to_list).
  - reflexivity.
  - left. by exists "s3cret".
Defined.

Lemma unpackcookie_without_secret_answers_in_band_witness :
  unpackcookie string id (λ _, (nil_interface, Some (OtherError "no such item")))
    example_hmac_hex b64_decode (http.MkCookie "session" "dXNlcj00Mg==|1|00") tt =
  Ok unreadable tt.
Proof.
  apply (unpackcookie_without_secret_answers_in_band string id
           (λ _, (nil_interface, Some (OtherError "no such item")))
           example_hmac_hex b64_decode nil_interface (OtherError "no such item")
           (http.MkCookie "session" "dXNlcj00Mg==|1|00")).
  - reflexivity.
  - vm_compute. lia.
Defined.

(** * The environment *)

Section EnvFacts.

Context {V : Type}.
Variable range_order : gmap string V → list (string * V).
Hypothesis range_order_entries : ∀ m, range_order m ≡ₚ map_to_list m.

Lemma range_order_lookup (m : gmap string V) k v :
  (k, v) ∈ range_order m ↔ m !! k = Some v.
Proof. by rewrite range_order_entries, elem_of_map_to_list. Qed.

Lemma range_order_NoDup (m : gmap string V) : NoDup ((range_order m).*1).
Proof. rewrite range_order_entries. apply NoDup_fst_map_to_list. Qed.

Lemma range_order_empty_entries (m : gmap string V) :
  range_order m = [] ↔ m = ∅.
Proof.
  split.
  - intros E. apply map_to_list_empty_iff, Permutation_nil_r.
    by rewrite <- range_order_entries, E.
  - intros ->. apply Permutation_nil_r. by rewrite range_order_entries, map_to_list_empty.
Qed.

Lemma merge_each (defaultvalue : V → option bool) l : ∀ g : gmap string V,
  NoDup (l.*1) →
  (∀ k v, (k, v) ∈ l → is_Some (defaultvalue v)) →
  ∃ g', for_each l
          (λ kv, match defaultvalue kv.2 with
                 | None => panic nil_dereference
                 | Some d =>
                   if negb d then
                     λ store, match map_get store kv.1 with
                              | Some _ => Ok tt store
                              | None => map_set kv.1 kv.2 store
                              end
                   else ret tt
                 end) (Some g) = Ok tt (Some g') ∧
        ∀ k v, g' !! k = Some v ↔
               g !! k = Some v ∨
               (g !! k = None ∧ (k, v) ∈ l ∧ defaultvalue v = Some false).
Proof.
  induction l as [|[k0 v0] l IH]; intros g Hnd Hread.
  - exists g. split; [done|]. intros k v. split; [by left|].
    intros [H|(_ & H & _)]; [done | by apply elem_of_nil in H].
  - cbn in Hnd. apply NoDup_cons in Hnd as [Hk0 Hnd].
    assert (∀ k v, (k, v) ∈ l → is_Some (defaultvalue v)) as Hread'.
    { intros k v Hin. apply (Hread k). by right. }
    specialize (λ g, IH g Hnd Hread').
    cbn [for_each fst snd].
    destruct (defaultvalue v0) as [[|]|] eqn:Hd; cbn [negb];
      [| |destruct (Hread k0 v0) as [? ?]; [by left | congruence]].
    + destruct (IH g) as (g' & Hrun & Hlook).
      exists g'. split; [by rewrite (bind_ok (ret tt) _ (Some g) tt (Some g) eq_refl)|].
      intros k v. rewrite Hlook. split.
      * intros [H|(Hg & Hin & Hv)]; [by left|]. right. repeat split; try done. by right.
      * intros [H|(Hg & Hin & Hv)]; [by left|]. right. repeat split; try done.
        apply elem_of_cons in Hin as [[= -> ->]|Hin]; [congruence | done].
    + destruct (g !! k0) as [u|] eqn:Hg.
      * destruct (IH g) as (g' & Hrun & Hlook).
        exists g'. split.
        { erewrite bind_ok; [done|]. cbn. by rewrite Hg. }
        intros k v. rewrite Hlook. split.
        -- intros [H|(Hgk & Hin & Hv)]; [by left|]. right. repeat split; try done. by right.
        -- intros [H|(Hgk & Hin & Hv)]; [by left|]. right. repeat split; try done.
           apply elem_of_cons in Hin as [[= -> ->]|Hin]; [congruence | done].
      * destruct (IH (<[k0 := v0]> g)) as (g' & Hrun & Hlook).
        exists g'. split.
        { erewrite bind_ok; [done|]. cbn. by rewrite Hg. }
        intros k v. rewrite Hlook. destruct (decide (k = k0)) as [->|Hne].
        -- rewrite lookup_insert_eq, Hg. split.
           ++ intros [[= <-]|(? & _)]; [|done]. right. repeat split; try done. by left.
           ++ intros [?|(_ & Hin & Hv)]; [done|]. left.
              apply elem_of_cons in Hin as [[= ->]|Hin]; [done|].
              destruct Hk0. apply list_elem_of_fmap. by exists (k0, v).
        -- rewrite lookup_insert_ne by done. split.
           ++ intros [H|(Hgk & Hin & Hv)]; [by left|]. right. repeat split; try done. by right.
           ++ intros [H|(Hgk & Hin & Hv)]; [by left|]. right. repeat split; try done.
              apply elem_of_cons in Hin as [[= -> ->]|Hin]; [done | done].
Qed.

Lemma merge_each_nil (defaultvalue : V → option bool) (l : list (string * V)) :
  (∀ k v, (k, v) ∈ l → is_Some (defaultvalue v)) →
  for_each l
    (λ kv, match defaultvalue kv.2 with
           | None => panic nil_dereference
           | Some d =>
             if negb d then
               λ store, match map_get store kv.1 with
                        | Some _ => Ok tt store
                        | None => map_set kv.1 kv.2 store
                        end
             else ret tt
           end) None =
  if forallb (λ kv, bool_decide (defaultvalue kv.2 = Some true)) l then Ok tt None
  else Panic nil_map_assignment None.
Proof.
  induction l as [|[k0 v0] l IH]; intros Hread; [done|].
  cbn [for_each forallb fst snd].
  destruct (defaultvalue v0) as [[|]|] eqn:Hd; cbn [negb].
  - rewrite bool_decide_eq_true_2 by done. cbn [andb].
    rewrite (bind_ok (ret tt) _ None tt None eq_refl).
    apply IH. intros k v Hin. apply (Hread k). by right.
  - rewrite bool_decide_eq_false_2 by done. by apply bind_panic.
  - destruct (Hread k0 v0) as [? ?]; [by left | congruence].
Qed.

(** X21.  [MergeStore] adds to the store of the environment the items of
    the other store that are not default values, under the keys the
    environment does not hold yet: no item of the environment is replaced,
    and the result does not depend on the order in which the other store is
    ranged over.  On an environment whose store is the nil map it panics as
    soon as the other store holds an item that is not a default value, and
    leaves the nil map otherwise.  The items of the other store are taken to
    be readable (none is a nil pointer). *)
Theorem MergeStore_adds_missing_items (defaultvalue : V → option bool)
    (other : gomap V) (g : gmap string V) :
  (∀ k v, entries other !! k = Some v → is_Some (defaultvalue v)) →
  MergeStore range_order defaultvalue other (Some g) =
    Ok tt (Some (g ∪ filter (λ kv, defaultvalue kv.2 = Some false) (entries other))) ∧
  ((∀ k v, entries other !! k = Some v → defaultvalue v = Some true) →
   MergeStore range_order defaultvalue other None = Ok tt None) ∧
  (∀ k v, entries other !! k = Some v → defaultvalue v = Some false →
   MergeStore range_order defaultvalue other None = Panic nil_map_assignment None).
Proof using range_order_entries.
  intros Hread.
  assert (∀ k v, (k, v) ∈ range_order (entries other) → is_Some (defaultvalue v))
    as Hread'.
  { intros k v Hin. apply (Hread k). by apply range_order_lookup. }
  split; [|split].
  - unfold MergeStore.
    destruct (merge_each defaultvalue (range_order (entries other)) g)
      as (g' & -> & Hlook); [apply range_order_NoDup | done |].
    do 2 f_equal. apply map_eq. intros k. apply option_eq. intros v.
    rewrite Hlook, lookup_union_Some_raw, map_lookup_filter_Some.
    by setoid_rewrite range_order_lookup.
  - intros Hall. unfold MergeStore. rewrite merge_each_nil by done.
    rewrite (proj2 (forallb_forall _ _)); [done|].
    intros [k v] Hin%list_elem_of_In. apply range_order_lookup in Hin.
    apply bool_decide_eq_true_2. by eapply Hall.
  - intros k v Hin Hd. unfold MergeStore. rewrite merge_each_nil by done.
    destruct (forallb _ _) eqn:E; [|done].
    rewrite forallb_forall in E. specialize (E (k, v)). cbn in E.
    rewrite bool_decide_eq_true, Hd in E.
    discriminate E. by apply list_elem_of_In, range_order_lookup.
Qed.

Lemma set_each l : ∀ g : gmap string V,
  NoDup (l.*1) →
  ∃ g', for_each l (λ kv, map_set kv.1 kv.2) (Some g) = Ok tt (Some g') ∧
        ∀ k v, g' !! k = Some v ↔
               (k, v) ∈ l ∨ ((k ∉ l.*1) ∧ g !! k = Some v).
Proof.
  induction l as [|[k0 v0] l IH]; intros g Hnd.
  - exists g. split; [done|]. intros k v. split.
    + intros H. right. split; [by intros ?%elem_of_nil | done].
    + intros [H|[_ H]]; [by apply elem_of_nil in H | done].
  - cbn in Hnd. apply NoDup_cons in Hnd as [Hk0 Hnd].
    destruct (IH (<[k0 := v0]> g) Hnd) as (g' & Hrun & Hlook).
    exists g'. split; [cbn [for_each]; by erewrite bind_ok|].
    intros k v. rewrite Hlook. cbn. split.
    + intros [Hin|[Hk Hg]]; [left; by right|].
      destruct (decide (k = k0)) as [->|Hne].
      * rewrite lookup_insert_eq in Hg. injection Hg as <-. left. by left.
      * rewrite lookup_insert_ne in Hg by done. right. split; [|done].
        by intros [?|?]%elem_of_cons.
    + intros [Hin|[Hk Hg]].
      * apply elem_of_cons in Hin as [[= -> ->]|Hin]; [|by left].
        right. split; [done|]. by rewrite lookup_insert_eq.
      * apply not_elem_of_cons in Hk as [Hne Hk]. right. split; [done|].
        by rewrite lookup_insert_ne.
Qed.

(** X22.  [MergeExtensions] writes every function handed in over the
    extensions of the environment: a name held already is replaced, the
    others stay, in whatever order the map is ranged over.  It does not make
    the map: on an environment whose extensions are the nil map it panics,
    unless no function is handed in. *)
Theorem MergeExtensions_overwrites (fns : gomap V) (g : gmap string V) :
  MergeExtensions range_order fns (Some g) = Ok tt (Some (entries fns ∪ g)) ∧
  (entries fns = ∅ → MergeExtensions range_order fns None = Ok tt None) ∧
  (entries fns ≠ ∅ →
   MergeExtensions range_order fns None = Panic nil_map_assignment None).
Proof using range_order_entries.
  split; [|split].
  - unfold MergeExtensions.
    destruct (set_each (range_order (entries fns)) g) as (g' & -> & Hlook);
      [apply range_order_NoDup|].
    do 2 f_equal. apply map_eq. intros k. apply option_eq. intros v.
    rewrite Hlook, lookup_union_Some_raw. setoid_rewrite range_order_lookup.
    split.
    + intros [H|[Hk Hg]]; [by left|]. right. split; [|done].
      destruct (entries fns !! k) as [u|] eqn:E; [|done].
      destruct Hk. apply list_elem_of_fmap. exists (k, u). split; [done|].
      by apply range_order_lookup.
    + intros [H|[Hk Hg]]; [by left|]. right. split; [|done].
      intros ((k' & u) & -> & Hin)%list_elem_of_fmap.
      apply range_order_lookup in Hin. cbn in Hk. congruence.
  - intros E. unfold MergeExtensions.
    by rewrite (proj2 (range_order_empty_entries _) E).
  - intros E. unfold MergeExtensions.
    destruct (range_order (entries fns)) as [|kv l] eqn:El.
    + by apply range_order_empty_entries in El.
    + cbn [for_each]. by apply bind_panic.
Qed.

End EnvFacts.

Section ExtensionFacts.

Context {F V : Type}.
Variable validExtension : F → option error.
Variable valueFunc : F → V.
Variable range_order : gmap string F → list (string * F).
Hypothesis range_order_entries : ∀ m, range_order m ≡ₚ map_to_list m.

Lemma AddExtension_valid name fn (s : gomap V) :
  validExtension fn = None →
  AddExtension validExtension valueFunc name fn s =
  Ok None (Some (<[name := valueFunc fn]> (entries s))).
Proof. intros Hv. unfold AddExtension. rewrite Hv. by destruct s. Qed.

Lemma AddExtension_invalid name fn e (s : gomap V) :
  validExtension fn = Some e →
  AddExtension validExtension valueFunc name fn s = Ok (Some e) (Some (entries s)).
Proof. intros Hv. unfold AddExtension. rewrite Hv. by destruct s. Qed.

Lemma add_each_valid l : ∀ s : gomap V,
  NoDup (l.*1) → l ≠ [] →
  (∀ k f, (k, f) ∈ l → validExtension f = None) →
  ∃ g', add_each validExtension valueFunc l s = Ok None (Some g') ∧
        ∀ k v, g' !! k = Some v ↔
               (∃ f, (k, f) ∈ l ∧ v = valueFunc f) ∨
               ((k ∉ l.*1) ∧ entries s !! k = Some v).
Proof.
  induction l as [|[k0 f0] l IH]; intros s Hnd Hne Hall; [done|].
  cbn in Hnd. apply NoDup_cons in Hnd as [Hk0 Hnd].
  assert (validExtension f0 = None) as H0 by (apply (Hall k0); by left).
  cbn [add_each fst snd].
  rewrite (bind_ok _ _ _ _ _ (AddExtension_valid k0 f0 s H0)).
  destruct l as [|kv l'].
  - eexists. split; [done|]. intros k v. cbn. split.
    + destruct (decide (k = k0)) as [->|Hk].
      * rewrite lookup_insert_eq. intros [= <-]. left. exists f0. split; [by left|done].
      * rewrite lookup_insert_ne by done. intros H. right. split; [|done].
        by intros [?|?%elem_of_nil]%elem_of_cons.
    + intros [(f & Hin & ->)|[Hk Hs]].
      * apply elem_of_cons in Hin as [[= -> ->]|Hin%elem_of_nil]; [|done].
        by rewrite lookup_insert_eq.
      * apply not_elem_of_cons in Hk as [Hk _]. by rewrite lookup_insert_ne.
  - destruct (IH (Some (<[k0 := valueFunc f0]> (entries s))) Hnd) as (g' & Hrun & Hlook);
      [done | by intros k f Hin; apply (Hall k); right |].
    exists g'. split; [done|]. intros k v. rewrite Hlook.
    set (l := kv :: l') in *.
    change (entries (Some (<[k0:=valueFunc f0]> (entries s))))
      with (<[k0:=valueFunc f0]> (entries s)). split.
    + intros [(f & Hin & ->)|[Hk Hs]].
      * left. exists f. split; [by right | done].
      * destruct (decide (k = k0)) as [->|Hkk].
        -- rewrite lookup_insert_eq in Hs. injection Hs as <-.
           left. exists f0. split; [by left | done].
        -- rewrite lookup_insert_ne in Hs by done. right. split; [|done].
           cbn. by intros [?|?]%elem_of_cons.
    + intros [(f & Hin & ->)|[Hk Hs]].
      * apply elem_of_cons in Hin as [[= -> ->]|Hin].
        -- right. split; [done|]. by rewrite lookup_insert_eq.
        -- left. by exists f.
      * cbn in Hk. apply not_elem_of_cons in Hk as [Hkk Hk].
        right. split; [done|]. by rewrite lookup_insert_ne.
Qed.

Lemma add_each_returns l : ∀ s : gomap V,
  ∃ r s', add_each validExtension valueFunc l s = Ok r s' ∧
          (l ≠ [] → s' ≠ None) ∧
          match r with
          | None => ∀ k f, (k, f) ∈ l → validExtension f = None
          | Some e => ∃ k f, (k, f) ∈ l ∧ validExtension f = Some e
          end.
Proof.
  induction l as [|[k0 f0] l IH]; intros s.
  - exists None, s. split; [done|]. split; [done|]. by intros k f ?%elem_of_nil.
  - cbn [add_each fst snd].
    destruct (validExtension f0) as [e|] eqn:H0.
    + exists (Some e), (Some (entries s)).
      split; [by rewrite (bind_ok _ _ _ _ _ (AddExtension_invalid k0 f0 e s H0))|].
      split; [done|]. exists k0, f0. split; [by left | done].
    + destruct (IH (Some (<[k0 := valueFunc f0]> (entries s)))) as (r & s' & Hrun & Hs' & Hr).
      exists r, s'.
      split; [by rewrite (bind_ok _ _ _ _ _ (AddExtension_valid k0 f0 s H0))|].
      split.
      { intros _. destruct l as [|kv l']; [|by apply Hs'].
        cbn in Hrun. by injection Hrun as <- <-. }
      destruct r as [e|].
      * destruct Hr as (k & f & Hin & Hv). exists k, f. split; [by right | done].
      * intros k f [[= -> ->]|Hin]%elem_of_cons; [done | by eapply Hr].
Qed.

(** X23.  [AddExtensions] returns, whatever it is handed.  It returns nil
    exactly when every function handed in is a valid extension, and then the
    extensions of the environment hold the value of each of them under its
    name, over what they held before; otherwise it returns the error of one
    of the functions that are not valid.  When a function is handed in, the
    extensions are not the nil map afterwards; when none is, they are left
    as they are. *)
Theorem AddExtensions_registers_all_or_reports (fns : gomap F) (s : gomap V) :
  ∃ r s',
    AddExtensions validExtension valueFunc range_order fns s = Ok r s' ∧
    (r = None ↔ ∀ k f, entries fns !! k = Some f → validExtension f = None) ∧
    (∀ e, r = Some e → ∃ k f, entries fns !! k = Some f ∧ validExtension f = Some e) ∧
    (r = None → entries fns ≠ ∅ →
     s' = Some ((valueFunc <$> entries fns) ∪ entries s)) ∧
    (entries fns ≠ ∅ → s' ≠ None) ∧
    (entries fns = ∅ → s' = s).
Proof using range_order_entries.
  assert (∀ k f, (k, f) ∈ range_order (entries fns) ↔ entries fns !! k = Some f) as Hmem.
  { intros k f. by rewrite range_order_entries, elem_of_map_to_list. }
  assert (range_order (entries fns) = [] ↔ entries fns = ∅) as Hnil.
  { split.
    - intros E. apply map_to_list_empty_iff, Permutation_nil_r.
      by rewrite <- range_order_entries, E.
    - intros ->. apply Permutation_nil_r.
      by rewrite range_order_entries, map_to_list_empty. }
  unfold AddExtensions.
  destruct (add_each_returns (range_order (entries fns)) s) as (r & s' & Hrun & Hs' & Hr).
  exists r, s'. split; [done|].
  split; [|split; [|split; [|split]]].
  - split.
    + intros ->. intros k f Hin. apply (Hr k). by apply Hmem.
    + intros Hall. destruct r as [e|]; [|done].
      destruct Hr as (k & f & Hin & Hv). apply Hmem in Hin.
      rewrite (Hall _ _ Hin) in Hv. done.
  - intros e ->. destruct Hr as (k & f & Hin & Hv). exists k, f. by rewrite <- Hmem.
  - intros -> Hne.
    destruct (add_each_valid (range_order (entries fns)) s) as (g' & Hrun' & Hlook).
    + rewrite range_order_entries. apply NoDup_fst_map_to_list.
    + by rewrite Hnil.
    + done.
    + rewrite Hrun in Hrun'. injection Hrun' as ->. f_equal.
      apply map_eq. intros k. apply option_eq. intros v.
      rewrite Hlook, lookup_union_Some_raw, lookup_fmap, fmap_Some, fmap_None.
      setoid_rewrite Hmem. split.
      * intros [(f & Hin & ->)|[Hk Hv]]; [left; by exists f|].
        right. split; [|done].
        destruct (entries fns !! k) as [f|] eqn:E; [|done].
        destruct Hk. apply list_elem_of_fmap. exists (k, f). split; [done|]. by apply Hmem.
      * intros [(f & Hin & ->)|[Hk Hv]]; [left; by exists f|].
        right. split; [|done].
        intros ((k' & f) & -> & Hin)%list_elem_of_fmap.
        apply Hmem in Hin. cbn in Hk. congruence.
  - intros Hne. apply Hs'. by rewrite Hnil.
  - intros E. apply Hnil in E. rewrite E in Hrun. cbn in Hrun. by injection Hrun as <- <-.
Qed.

End ExtensionFacts.

(** A store item for the examples: a pointer to whether it is a default
    value, and the value. *)
Lemma MergeStore_adds_missing_items_witness :
  MergeStore map_to_list (fmap fst)
    (Some {[ "SECRET_KEY" := Some (false, "s3cret");
             "MODE" := Some (true, "development");
             "NAME" := Some (false, "other") ]})
    (Some {[ "NAME" := Some (false, "app") ]}) =
    Ok tt (Some {[ "NAME" := Some (false, "app");
                   "SECRET_KEY" := Some (false, "s3cret") ]}) ∧
  MergeStore map_to_list (fmap fst)
    (Some {[ "SECRET_KEY" := Some (false, "s3cret");
             "MODE" := Some (true, "development");
             "NAME" := Some (false, "other") ]}) None =
    Panic nil_map_assignment None.
Proof.
  destruct (MergeStore_adds_missing_items map_to_list ltac:(reflexivity) (fmap fst)
              (Some {[ "SECRET_KEY" := Some (false, "s3cret");
                       "MODE" := Some (true, "development");
                       "NAME" := Some (false, "other") ]})
              {[ "NAME" := Some (false, "app") ]}) as (H1 & _ & H3).
  - unfold entries, default.
    apply (map_Forall_insert_2 (λ _ v, is_Some (fst <$> v))); [by eexists|].
    apply map_Forall_insert_2; [by eexists|].
    apply map_Forall_singleton. by eexists.
  - split.
    + rewrite H1. vm_compute. reflexivity.
    + apply (H3 "SECRET_KEY" (Some (false, "s3cret"))); reflexivity.
Defined.

Lemma MergeExtensions_overwrites_witness :
  MergeExtensions map_to_list (Some {[ "render" := 2; "flash" := 3 ]})
    (Some {[ "render" := 1; "store" := 4 ]}) =
    Ok tt (Some (entries (Some {[ "render" := 2; "flash" := 3 ]})
                 ∪ {[ "render" := 1; "store" := 4 ]})) ∧
  (entries (Some ({[ "render" := 2; "flash" := 3 ]} : gmap string nat)) = ∅ →
   MergeExtensions map_to_list (Some {[ "render" := 2; "flash" := 3 ]}) None = Ok tt None) ∧
  (entries (Some ({[ "render" := 2; "flash" := 3 ]} : gmap string nat)) ≠ ∅ →
   MergeExtensions map_to_list (Some {[ "render" := 2; "flash" := 3 ]}) None =
     Panic nil_map_assignment None).
Proof.
  apply (MergeExtensions_overwrites map_to_list). reflexivity.
Defined.

Lemma AddExtensions_registers_all_or_reports_witness :
  ∃ r s',
    AddExtensions (λ f : nat, if decide (f = 0) then Some (OtherError "not a function") else None)
      (λ f : nat, f) map_to_list (Some {[ "render" := 2; "flash" := 0 ]}) None = Ok r s' ∧
    (r = None ↔
     ∀ k f, entries (Some ({[ "render" := 2; "flash" := 0 ]} : gmap string nat)) !! k = Some f →
            (if decide (f = 0) then Some (OtherError "not a function") else None) = None) ∧
    (∀ e, r = Some e →
          ∃ k f, entries (Some ({[ "render" := 2; "flash" := 0 ]} : gmap string nat)) !! k = Some f ∧
                 (if decide (f = 0) then Some (OtherError "not a function") else None) = Some e) ∧
    (r = None → entries (Some ({[ "render" := 2; "flash" := 0 ]} : gmap string nat)) ≠ ∅ →
     s' = Some (((λ f : nat, f) <$> entries (Some ({[ "render" := 2; "flash" := 0 ]} : gmap string nat)))
                ∪ entries None)) ∧
    (entries (Some ({[ "render" := 2; "flash" := 0 ]} : gmap string nat)) ≠ ∅ → s' ≠ None) ∧
    (entries (Some ({[ "render" := 2; "flash" := 0 ]} : gmap string nat)) = ∅ → s' = None).
Proof.
  apply (AddExtensions_registers_all_or_reports
           (λ f : nat, if decide (f = 0) then Some (OtherError "not a function") else None)
           (λ f : nat, f) map_to_list).
  reflexivity.
Defined.
